(** * Source initialisation of scarlet ([scarlet/source.py]): a shallow embedding

    The Python module works on numpy arrays of binary64 numbers.  The
    embedding is written once over an abstract scalar carrier ([Scalar]) and
    is instantiated twice:

    - [float64]: Rocq's primitive IEEE-754 binary64 numbers, the arithmetic the
      Python code really runs; every definition computes on it, and concrete
      runs are evaluated with [vm_compute];
    - [real]: the real numbers of the Standard Library, the exact arithmetic
      in which the algebraic statements (sums of layers, noise propagation)
      are meant.

    Python exceptions are values of [exn] returned through the error monad
    [result].  Calls to [logger.warning] have no influence on any returned
    value and are left out.  In-place updates of numpy arrays are written as
    functions returning the updated array. *)

From Stdlib Require Import PrimFloat Uint63.
From Stdlib Require Import ZArith List Bool String Lia Reals Lra Psatz Sorted.
From Stdlib Require FloatAxioms.
Import ListNotations.

Local Open Scope Z_scope.

(* ------------------------------------------------------------------------- *)
(** ** Exceptions and the error monad *)

Inductive exn : Type :=
| ValueError
| IndexError
| AttributeError
| TypeError
| LinAlgError.

Inductive result (A : Type) : Type :=
| Ok (a : A)
| Raise (e : exn).

Arguments Ok {A} a.
Arguments Raise {A} e.

Definition bind {A B : Type} (m : result A) (k : A -> result B) : result B :=
  match m with
  | Ok a => k a
  | Raise e => Raise e
  end.

Declare Scope py_scope.
Delimit Scope py_scope with py.
Notation "x <- m ;; k" := (bind m (fun x => k))
  (at level 61, m at next level, right associativity) : py_scope.
Notation "' pat <- m ;; k" := (bind m (fun x => match x with pat => k end))
  (at level 61, pat pattern, m at next level, right associativity) : py_scope.
Local Open Scope py_scope.

(** [mapM f l]: a list comprehension whose body can raise; the first
    exception (in iteration order) aborts it. *)
Fixpoint mapM {A B : Type} (f : A -> result B) (l : list A) : result (list B) :=
  match l with
  | [] => Ok []
  | a :: l' => b <- f a ;; bs <- mapM f l' ;; Ok (b :: bs)
  end.

Definition is_ok {A : Type} (r : result A) : bool :=
  match r with Ok _ => true | Raise _ => false end.

(* ------------------------------------------------------------------------- *)
(** ** Python sequences *)

Definition len {A : Type} (l : list A) : Z := Z.of_nat (List.length l).

(** [l[i]] with Python's rule for negative indices; out of range raises
    [IndexError]. *)
Definition py_index {A : Type} (l : list A) (i : Z) : result A :=
  let j := if i <? 0 then i + len l else i in
  if (j <? 0) || (len l <=? j) then Raise IndexError
  else match nth_error l (Z.to_nat j) with
       | Some a => Ok a
       | None => Raise IndexError
       end.

(** [range(lo, hi)] *)
Definition zrange (lo hi : Z) : list Z :=
  map (fun k => lo + Z.of_nat k) (seq 0 (Z.to_nat (hi - lo))).

(** Lookup without wrap-around, used where numpy slices clip to the array. *)
Definition lookupZ {A : Type} (l : list A) (i : Z) : option A :=
  if i <? 0 then None else nth_error l (Z.to_nat i).

(* ------------------------------------------------------------------------- *)
(** ** The scalar carrier *)

Class Scalar : Type := {
  num : Type;
  zero : num;
  one : num;
  add : num -> num -> num;
  sub : num -> num -> num;
  mul : num -> num -> num;
  div : num -> num -> num;
  fsqrt : num -> num;
  of_Z : Z -> num;
  (** [gtb x y] is the Python test [x > y], [leb x y] is [x <= y] *)
  gtb : num -> num -> bool;
  leb : num -> num -> bool;
  (** the binary step of [ndarray.max] *)
  fmax : num -> num -> num
}.

(** binary64, as numpy computes *)
Definition float_of_Z (z : Z) : float :=
  match z with
  | Z0 => PrimFloat.zero
  | Zpos _ => PrimFloat.of_uint63 (Uint63.of_Z z)
  | Zneg p => PrimFloat.opp (PrimFloat.of_uint63 (Uint63.of_Z (Zpos p)))
  end.

Definition float_max (x y : float) : float :=
  if PrimFloat.is_nan x then x
  else if PrimFloat.is_nan y then y
  else if PrimFloat.ltb x y then y else x.

Definition float64 : Scalar := {|
  num := float;
  zero := PrimFloat.zero;
  one := PrimFloat.one;
  add := PrimFloat.add;
  sub := PrimFloat.sub;
  mul := PrimFloat.mul;
  div := PrimFloat.div;
  fsqrt := PrimFloat.sqrt;
  of_Z := float_of_Z;
  gtb := fun x y => PrimFloat.ltb y x;
  leb := PrimFloat.leb;
  fmax := float_max
|}.

(** exact real arithmetic *)
Definition Rgtb (x y : R) : bool := if Rlt_dec y x then true else false.
Definition Rleb (x y : R) : bool := if Rle_dec x y then true else false.

Definition real : Scalar := {|
  num := R;
  zero := 0%R;
  one := 1%R;
  add := Rplus;
  sub := Rminus;
  mul := Rmult;
  div := Rdiv;
  fsqrt := sqrt;
  of_Z := IZR;
  gtb := Rgtb;
  leb := Rleb;
  fmax := Rmax
|}.

(* ------------------------------------------------------------------------- *)
(** ** Arrays *)

Section Arrays.
Context {Num : Scalar}.

(** a 2D image, indexed [y][x]; a stack of images, indexed [c][y][x] *)
Definition Image : Type := list (list num).
Definition Cube : Type := list Image.

Definition map2d {A B : Type} (f : A -> B) (m : list (list A)) : list (list B) :=
  map (map f) m.

Definition flatten {A : Type} (m : list (list A)) : list A := List.concat m.

(** [np.sum] of a 1D array *)
Definition fsum (l : list num) : num := fold_left add l zero.

(** [ndarray.max()] of a flattened array; numpy raises [ValueError] on an
    empty one *)
Definition amax (l : list num) : result num :=
  match l with
  | [] => Raise ValueError
  | x :: l' => Ok (fold_left fmax l' x)
  end.

(** [m[p0, p1]] *)
Definition index2 {A : Type} (m : list (list A)) (p : Z * Z) : result A :=
  row <- py_index m (fst p) ;; py_index row (snd p).

(** numpy broadcasting of a binary operation on 1D arrays, the result
    having the shape of the left operand (as for the in-place [x /= y]) *)
Definition bcast_left (op : num -> num -> num) (xs ys : list num)
  : result (list num) :=
  match ys with
  | [y] => Ok (map (fun x => op x y) xs)
  | _ => if (List.length xs =? List.length ys)%nat
         then Ok (map (fun xy => op (fst xy) (snd xy)) (combine xs ys))
         else Raise ValueError
  end.
End Arrays.

(* ------------------------------------------------------------------------- *)
(** ** Collaborators: boxes, frames, observations *)

(** Modelled from the spec: class [Box] of [scarlet/bbox.py] is not among the
    sources.  A box is an axis-aligned integer region, one half-open interval
    [(start, stop)] per axis; [Box.from_bounds] builds it from the intervals,
    [start] and [stop] are the tuples of lower and upper bounds. *)
Record Box : Type := { bounds : list (Z * Z) }.

Definition Box_from_bounds (bs : list (Z * Z)) : Box := {| bounds := bs |}.
Definition Box_start (b : Box) : list Z := map fst (bounds b).
Definition Box_stop (b : Box) : list Z := map snd (bounds b).
Definition Box_shape (b : Box) : list Z := map (fun se => snd se - fst se) (bounds b).

(** Modelled from the spec: [Box.contains(p)], the point lies in every
    interval of the box. *)
Definition Box_contains (b : Box) (p : list Z) : bool :=
  (List.length (bounds b) =? List.length p)%nat &&
  forallb (fun bx => (fst (fst bx) <=? snd bx) && (snd bx <? snd (fst bx)))
          (combine (bounds b) p).

Definition zmin_list (x : Z) (l : list Z) : Z := fold_left Z.min l x.
Definition zmax_list (x : Z) (l : list Z) : Z := fold_left Z.max l x.

Section Collaborators.
Context {Num : Scalar}.

(** the pixel coordinates [(y, x)] at which the array exceeds [min_value],
    as [np.where(X > min_value)] lists them *)
Definition where_gt (X : Image) (min_value : num) : list (Z * Z) :=
  flat_map (fun yrow =>
    flat_map (fun xv => if gtb (snd xv) min_value
                        then [(fst yrow, fst xv)] else [])
             (combine (zrange 0 (len (snd yrow))) (snd yrow)))
    (combine (zrange 0 (len X)) X).

(** Modelled from the spec: [Box.from_data(X, min_value)], the tight
    bounding box of the pixels above [min_value] (the empty box at the
    origin when there is none). *)
Definition Box_from_data (X : Image) (min_value : num) : Box :=
  match where_gt X min_value with
  | [] => Box_from_bounds [(0, 0); (0, 0)]
  | (y, x) :: sel =>
      Box_from_bounds
        [(zmin_list y (map fst sel), zmax_list y (map fst sel) + 1);
         (zmin_list x (map snd sel), zmax_list x (map snd sel) + 1)]
  end.

Definition pixel_or_zero (im : Image) (y x : Z) : num :=
  match lookupZ im y with
  | Some row => match lookupZ row x with Some v => v | None => zero end
  | None => zero
  end.

(** Modelled from the spec: [Box.extract_from(image)], the part of the
    image inside the box; where the box leaves the image the result is
    padded with zeros. *)
Definition extract2 (ys xs : Z * Z) (im : Image) : Image :=
  map (fun y => map (fun x => pixel_or_zero im y x) (zrange (fst xs) (snd xs)))
      (zrange (fst ys) (snd ys)).

Definition Box_extract_from (b : Box) (im : Image) : result Image :=
  match bounds b with
  | [ys; xs] => Ok (extract2 ys xs im)
  | _ => Raise ValueError
  end.

Definition Box_extract_from_cube (b : Box) (cube : Cube) : result Cube :=
  match bounds b with
  | [cs; ys; xs] =>
      Ok (map (fun c => match lookupZ cube c with
                        | Some im => extract2 ys xs im
                        | None => extract2 ys xs []
                        end)
              (zrange (fst cs) (snd cs)))
  | _ => Raise ValueError
  end.

(** a sky position; [Frame.get_pixel] turns it into integer pixel indices *)
Definition SkyCoord : Type := (num * num)%type.

(** [frame.psf]: only the image stack of the PSF model is read *)
Record PSF : Type := { psf_image : Cube }.

Record Frame : Type := {
  get_pixel : SkyCoord -> Z * Z;
  frame_C : Z;
  frame_psf : option PSF
}.

Record Observation : Type := {
  (** the Python test [type(obs) is Observation]: false for subclasses,
      which live in a frame of their own *)
  is_Observation : bool;
  obs_frame : Frame;
  images : Cube;
  (** [None] when the attribute [weights] is unusable *)
  weights : option Cube;
  (** [obs._diff_kernels.image] *)
  diff_kernels : Cube
}.
End Collaborators.

(* ------------------------------------------------------------------------- *)
(** ** [trim_morphology] *)

(** [while boxsize < size: boxsize *= 2], with the number of iterations
    bounded by [fuel] *)
Fixpoint grow_boxsize (fuel : nat) (boxsize size : Z) : Z :=
  match fuel with
  | O => boxsize
  | S fuel' =>
      if boxsize <? size then grow_boxsize fuel' (boxsize * 2) size
      else boxsize
  end.

Section Trim.
Context {Num : Scalar}.

(** [mask.sum()] *)
Definition mask_sum (mask : list (list bool)) : Z :=
  len (filter (fun b : bool => b) (flatten mask)).

Definition trim_morphology (sky_coord : SkyCoord) (frame : Frame)
    (morph : Image) (bg_cutoff thresh : num) : result (Image * Box) :=
  (* trim morph to pixels above threshold *)
  let mask := map2d (fun x => gtb x (mul bg_cutoff thresh)) morph in
  let boxsize := 16 in
  let pixel_center := get_pixel frame sky_coord in
  '(morph, boxsize) <-
    (if 0 <? mask_sum mask then
       let morph :=
         map2d (fun x => if gtb x (mul bg_cutoff thresh) then x else zero) morph in
       (* normalize to unity at peak pixel *)
       center_morph <- index2 morph pixel_center ;;
       let morph := map2d (fun x => div x center_morph) morph in
       (* find fitting bbox *)
       let bbox := Box_from_data morph zero in
       if Box_contains bbox [fst pixel_center; snd pixel_center] then
         start2 <- py_index (Box_start bbox) (-2) ;;
         stop0 <- py_index (Box_stop bbox) 0 ;;
         start1 <- py_index (Box_start bbox) (-1) ;;
         stop1 <- py_index (Box_stop bbox) 1 ;;
         let size :=
           2 * Z.max (Z.max (fst pixel_center - start2)
                            (stop0 - fst pixel_center))
                     (Z.max (snd pixel_center - start1)
                            (stop1 - snd pixel_center)) in
         Ok (morph, grow_boxsize (Z.to_nat size) boxsize size)
       else Ok (morph, boxsize)
     else Ok (morph, boxsize)) ;;
  (* define bbox and trim to bbox *)
  let bottom := fst pixel_center - boxsize / 2 in
  let top := fst pixel_center + boxsize / 2 in
  let left := snd pixel_center - boxsize / 2 in
  let right := snd pixel_center + boxsize / 2 in
  let bbox := Box_from_bounds [(bottom, top); (left, right)] in
  morph <- Box_extract_from bbox morph ;;
  let bbox_3d :=
    Box_from_bounds [(0, frame_C frame); (bottom, top); (left, right)] in
  Ok (morph, bbox_3d).
End Trim.

(* ------------------------------------------------------------------------- *)
(** ** SED estimation: [get_pixel_sed], [get_psf_sed] *)

Section SED.
Context {Num : Scalar}.

Definition get_pixel_sed (sky_coord : SkyCoord) (observation : Observation)
  : result (list num) :=
  let pixel := get_pixel (obs_frame observation) sky_coord in
  (* observation.images[:, pixel[0], pixel[1]] *)
  mapM (fun im => index2 im pixel) (images observation).

(** [psf.image.max(axis=(1, 2))] *)
Definition psf_peaks (psf : PSF) : result (list num) :=
  mapM (fun im => amax (flatten im)) (psf_image psf).

(** [psf.image[0].max()] *)
Definition psf_peak0 (psf : PSF) : result num :=
  im0 <- py_index (psf_image psf) 0 ;; amax (flatten im0).

Definition get_psf_sed (sky_coord : SkyCoord) (observation : Observation)
    (frame : Frame) : result (list num) :=
  sed <- get_pixel_sed sky_coord observation ;;
  (* approx. correct PSF width variations from SED by normalizing heights *)
  sed <- match frame_psf (obs_frame observation) with
         | Some psf => peaks <- psf_peaks psf ;; bcast_left div sed peaks
         | None => Ok sed
         end ;;
  match frame_psf frame with
  | Some psf => peak <- psf_peak0 psf ;; Ok (map (fun x => mul x peak) sed)
  | None => Ok sed
  end.
End SED.

(* ------------------------------------------------------------------------- *)
(** ** The detection coadd: [build_sed_coadd] *)

Fixpoint foldM {A B : Type} (f : B -> A -> result B) (l : list A) (b : B)
  : result B :=
  match l with
  | [] => Ok b
  | a :: l' => b' <- f b a ;; foldM f l' b'
  end.

(** [enumerate(l)] *)
Definition enumerate {A : Type} (l : list A) : list (Z * A) :=
  combine (zrange 0 (len l)) l.

Section Coadd.
Context {Num : Scalar}.

(** [interpolate_observation] of [scarlet/interpolation.py] resamples the
    images of an observation into another frame; it is a collaborator. *)
Variable interpolate_observation : Observation -> Frame -> Cube.

(** the accumulators of the loop over the observations *)
Record coadd_acc : Type := {
  positive_img : list Image;
  positive_bgrms : list num;
  coadd_weights : list num;
  jacobian_args : list num
}.

(** [observations[loc[0][0]]]: the first element whose type is exactly
    [Observation]; [IndexError] when there is none *)
Definition reference_observation (observations : list Observation)
  : result Observation :=
  match find is_Observation observations with
  | Some o => Ok o
  | None => Raise IndexError
  end.

(** [[c for c in range(C) if sed[c] > 0]] *)
Definition positive_channels (sed : list num) : list Z :=
  map fst (filter (fun cv => gtb (snd cv) zero) (enumerate sed)).

(** one iteration of [for i, obs in enumerate(observations)] *)
Definition coadd_step (obs_ref : Observation) (seds bg_rmses : list (list num))
    (acc : coadd_acc) (iobs : Z * Observation) : result coadd_acc :=
  let i := fst iobs in
  let obs := snd iobs in
  sed <- py_index seds i ;;
  bg_rms <- py_index bg_rmses i ;;
  if existsb (fun r => leb r zero) bg_rms then
    (* bg_rms must be greater than zero in all channels *)
    Raise ValueError
  else
    let positive := positive_channels sed in
    imgs <- (if is_Observation obs
             then mapM (fun c => py_index (images obs) c) positive
             else mapM (fun c => py_index
                         (interpolate_observation obs (obs_frame obs_ref)) c)
                       positive) ;;
    rmss <- mapM (fun c => py_index bg_rms c) positive ;;
    ws <- mapM (fun c => s <- py_index sed c ;; r <- py_index bg_rms c ;;
                         Ok (div s (mul r r))) positive ;;
    jac <- mapM (fun c => s <- py_index sed c ;; r <- py_index bg_rms c ;;
                          Ok (div (mul s s) (mul r r))) positive ;;
    Ok {| positive_img := positive_img acc ++ imgs;
          positive_bgrms := positive_bgrms acc ++ rmss;
          coadd_weights := coadd_weights acc ++ ws;
          jacobian_args := jacobian_args acc ++ jac |}.

Definition zip2d {A B C : Type} (f : A -> B -> C)
    (a : list (list A)) (b : list (list B)) : list (list C) :=
  map (fun rr => map (fun xy => f (fst xy) (snd xy)) (combine (fst rr) (snd rr)))
      (combine a b).

Definition same_shape (a b : Image) : bool :=
  (List.length a =? List.length b)%nat &&
  forallb (fun rr => (List.length (fst rr) =? List.length (snd rr))%nat)
          (combine a b).

(** [np.einsum("i,i...", weights, imgs)]: the weighted sum of the images;
    images of different shapes cannot be stacked ([ValueError]).  With no
    image at all numpy returns the scalar 0, not an image; it is written
    here as the empty image.  What the callers of [build_sed_coadd] do
    with that scalar is decided by collaborators and is not modelled:
    nothing is stated about the coadd of a source without any positive
    channel beyond its cutoff. *)
Definition einsum_weighted (ws : list num) (imgs : list Image) : result Image :=
  match combine ws imgs with
  | [] => Ok []
  | (w, im) :: rest =>
      if forallb (fun wi => same_shape im (snd wi)) rest then
        Ok (fold_left (fun acc wi =>
                         zip2d (fun a x => add a (mul (fst wi) x)) acc (snd wi))
                      rest (map2d (fun x => mul w x) im))
      else Raise ValueError
  end.

Definition build_sed_coadd (seds bg_rmses : list (list num))
    (observations : list Observation) : result (Image * num) :=
  (* The observation that lives in the same plane as the frame *)
  obs_ref <- reference_observation observations ;;
  acc <- foldM (coadd_step obs_ref seds bg_rmses) (enumerate observations)
           {| positive_img := []; positive_bgrms := [];
              coadd_weights := []; jacobian_args := [] |} ;;
  let norm := fsum (jacobian_args acc) in
  weighted <- einsum_weighted (coadd_weights acc) (positive_img acc) ;;
  let detect := map2d (fun x => div x norm) weighted in
  (* thresh is multiple above the rms of detect *)
  let bg_cutoff :=
    div (fsqrt (fsum (map (fun wr => mul (mul (fst wr) (fst wr))
                                         (mul (snd wr) (snd wr)))
                          (combine (coadd_weights acc) (positive_bgrms acc)))))
        norm in
  Ok (detect, bg_cutoff).
End Coadd.

(* ------------------------------------------------------------------------- *)
(** ** Least-squares SEDs: [get_best_fit_seds] *)

Fixpoint transpose {A : Type} (m : list (list A)) : list (list A) :=
  match m with
  | [] => []
  | [r] => map (fun x => [x]) r
  | r :: m' => map (fun xc => fst xc :: snd xc) (combine r (transpose m'))
  end.

Section BestFit.
Context {Num : Scalar}.

(** [np.linalg.inv]; a singular matrix raises [LinAlgError] *)
Variable linalg_inv : list (list num) -> result (list (list num)).

Definition dotp (a b : list num) : result num :=
  if (List.length a =? List.length b)%nat
  then Ok (fsum (map (fun xy => mul (fst xy) (snd xy)) (combine a b)))
  else Raise ValueError.

(** [np.dot(A, B.T)] *)
Definition dot_T (A B : list (list num)) : result (list (list num)) :=
  mapM (fun a => mapM (fun b => dotp a b) B) A.

(** [np.dot(A, B)] *)
Definition dot (A B : list (list num)) : result (list (list num)) :=
  dot_T A (transpose B).

Definition get_best_fit_seds (morphs : list Image) (images : Cube)
  : result (list (list num)) :=
  let _morph := map flatten morphs in
  let data := map flatten images in
  gram <- dot_T _morph _morph ;;
  inv <- linalg_inv gram ;;
  md <- dot_T _morph data ;;
  dot inv md.
End BestFit.

(* ------------------------------------------------------------------------- *)
(** ** [init_extended_source] and [init_multicomponent_source] *)

Fixpoint chunks {A : Type} (n : nat) (rows : nat) (l : list A) : list (list A) :=
  match rows with
  | O => []
  | S rows' => firstn n l :: chunks n rows' (skipn n l)
  end.

Section Init.
Context {Num : Scalar}.

Variable interpolate_observation : Observation -> Frame -> Cube.
Variable linalg_inv : list (list num) -> result (list (list num)).

(** [operator.prox_uncentered_symmetry(X, step, center, algorithm)] *)
Variable prox_uncentered_symmetry : Image -> Z -> Z * Z -> string -> Image.

(** [operator.prox_weighted_monotonic(shape, neighbor_weight, center,
    min_gradient)] returns the projection, which maps an image and a step
    to the flattened projected image. *)
Variable prox_weighted_monotonic :
  Z * Z -> string -> Z * Z -> num -> Image -> Z -> list num.

(** the argument [observations]: one observation or a list of them *)
Inductive observations_arg : Type :=
| one_observation (obs : Observation)
| observation_list (l : list Observation).

(** [try: iter(observations) except TypeError: observations = [observations]] *)
Definition as_list (observations : observations_arg) : list Observation :=
  match observations with
  | one_observation obs => [obs]
  | observation_list l => l
  end.

(** [morph.shape] *)
Definition shape2 (m : Image) : Z * Z :=
  (len m, match m with [] => 0 | r :: _ => len r end).

(** [flat.reshape(shape)] *)
Definition reshape2 (shape : Z * Z) (flat : list num) : result Image :=
  if len flat =? fst shape * snd shape
  then Ok (chunks (Z.to_nat (snd shape)) (Z.to_nat (fst shape)) flat)
  else Raise ValueError.

(** [1 / np.sqrt(w[w > 0].mean())] *)
Definition weight_rms (w : Image) : num :=
  let sel := filter (fun x => gtb x zero) (flatten w) in
  div one (fsqrt (div (fsum sel) (of_Z (len sel)))).

(** the [try] block computing [bg_rms]; any failure inside it is turned
    into [AttributeError] *)
Definition weights_bg_rms (observations : list Observation)
  : result (list (list num)) :=
  mapM (fun obs_ => match weights obs_ with
                    | Some ws => Ok (map weight_rms ws)
                    | None => Raise AttributeError
                    end) observations.

(** the block [if coadd is None: ... else: ...] of [init_extended_source]:
    the detection image and its cutoff, built from the weights of the
    observations unless the caller supplies them *)
Definition detection_coadd (seds : list (list num))
    (observations : list Observation)
    (coadd : option Image) (bg_cutoff : option num) : result (Image * num) :=
  match coadd with
  | None =>
      (* which observation to use for detection and morphology *)
      bg_rms <- weights_bg_rms observations ;;
      build_sed_coadd interpolate_observation seds bg_rms observations
  | Some coadd =>
      match bg_cutoff with
      | None => Raise AttributeError
      | Some bg_cutoff => Ok (coadd, bg_cutoff)
      end
  end.

(** the block "Apply the necessary constraints" of
    [init_extended_source] *)
Definition apply_constraints (center : Z * Z) (coadd : Image)
    (symmetric monotonic : bool) (min_grad : num) : result Image :=
  let morph :=
    if symmetric
    then prox_uncentered_symmetry (map2d (fun x => mul x one) coadd) 0
           center "sdss"
    else coadd in
  if monotonic
  then (* use finite thresh to remove flat bridges *)
       reshape2 (shape2 morph)
         (prox_weighted_monotonic (shape2 morph) "flat" center min_grad
            morph 0)
  else Ok morph.

Definition init_extended_source (sky_coord : SkyCoord) (frame : Frame)
    (observations : observations_arg)
    (coadd : option Image) (bg_cutoff : option num) (thresh : num)
    (symmetric monotonic : bool) (min_grad : num)
  : result (list num * Image * Box) :=
  let observations := as_list observations in
  (* determine initial SED from peak position *)
  seds <- mapM (fun obs => get_psf_sed sky_coord obs frame) observations ;;
  sed <- (match seds with
          | [] => Raise ValueError   (* np.concatenate of nothing *)
          | _ => Ok (List.concat seds)
          end) ;;
  '(coadd, bg_cutoff) <- detection_coadd seds observations coadd bg_cutoff ;;
  (* Apply the necessary constraints *)
  let center := get_pixel frame sky_coord in
  morph <- apply_constraints center coadd symmetric monotonic min_grad ;;
  '(morph, bbox) <- trim_morphology sky_coord frame morph bg_cutoff thresh ;;
  Ok (sed, morph, bbox).

(** [np.sort] *)
Fixpoint sort_insert (x : num) (l : list num) : list num :=
  match l with
  | [] => [x]
  | y :: l' => if leb x y then x :: l else y :: sort_insert x l'
  end.

Definition np_sort (l : list num) : list num :=
  fold_right sort_insert [] l.

(** [l[k] = f(l[k])] *)
Fixpoint update_nth {A : Type} (k : nat) (f : A -> A) (l : list A) : list A :=
  match l, k with
  | [], _ => []
  | a :: l', O => f a :: l'
  | a :: l', S k' => a :: update_nth k' f l'
  end.

(** one iteration of [for k in range(1, K)]; the state is the stack of
    layers and [last_thresh] *)
Definition layer_step (morph : Image) (max_flux : num)
    (st : list Image * num) (kperc : nat * num) : list Image * num :=
  let morphs := fst st in
  let last_thresh := snd st in
  let k := fst kperc in
  let perc := snd kperc in
  let flux_thresh := div (mul perc max_flux) (of_Z 100) in
  (* morphs[k - 1][mask_] = flux_thresh - last_thresh *)
  let morphs :=
    update_nth (k - 1)
      (fun layer => zip2d (fun l m => if gtb m flux_thresh
                                      then sub flux_thresh last_thresh else l)
                          layer morph) morphs in
  (* morphs[k][mask_] = morph[mask_] - flux_thresh *)
  let morphs :=
    update_nth k
      (fun layer => zip2d (fun l m => if gtb m flux_thresh
                                      then sub m flux_thresh else l)
                          layer morph) morphs in
  (morphs, flux_thresh).

(** the layers before they are renormalised: [morphs] after the loop over
    the percentiles *)
Definition layered_morphs (morph : Image) (max_flux : num)
    (flux_percentiles : list num) : list Image :=
  let morphs :=
    morph :: repeat (map2d (fun _ => zero) morph) (List.length flux_percentiles) in
  let percentiles_ := np_sort flux_percentiles in
  fst (fold_left (layer_step morph max_flux)
                 (combine (seq 1 (List.length flux_percentiles)) percentiles_)
                 (morphs, zero)).

(** [morphs[k] /= morphs[k].max()] *)
Definition renormalize (layer : Image) : result Image :=
  mx <- amax (flatten layer) ;; Ok (map2d (fun x => div x mx) layer).

Definition init_multicomponent_source (sky_coord : SkyCoord) (frame : Frame)
    (observations : observations_arg)
    (coadd : option Image) (bg_cutoff : option num)
    (flux_percentiles : option (list num)) (thresh : num)
    (symmetric monotonic : bool) (min_grad : num)
  : result (list (list num) * list Image * Box) :=
  (* The observation that lives in the same plane as the frame *)
  obs_ref <- reference_observation (as_list observations) ;;
  let flux_percentiles :=
    match flux_percentiles with
    | None => [of_Z 25]
    | Some l => l
    end in
  (* Initialize the first component as an extended source *)
  '(sed, morph, bbox) <-
    init_extended_source sky_coord frame observations coadd bg_cutoff thresh
      symmetric monotonic min_grad ;;
  (* create a list of components from base morph by layering them on top
     of each other so that they sum up to morph *)
  max_flux <- amax (flatten morph) ;;
  let morphs := layered_morphs morph max_flux flux_percentiles in
  (* renormalize morphs: initially Smax *)
  morphs <- mapM renormalize morphs ;;
  (* optimal SEDs given the morphologies, assuming img only has that source *)
  boxed_img <- Box_extract_from_cube bbox (images obs_ref) ;;
  seds <- get_best_fit_seds linalg_inv morphs boxed_img ;;
  Ok (seds, morphs, bbox).
End Init.

(* ------------------------------------------------------------------------- *)
(** ** Parameters, constraints and components *)

Section Sources.
Context {Num : Scalar}.

Variable interpolate_observation : Observation -> Frame -> Cube.
Variable linalg_inv : list (list num) -> result (list (list num)).
Variable prox_uncentered_symmetry : Image -> Z -> Z * Z -> string -> Image.
Variable prox_weighted_monotonic :
  Z * Z -> string -> Z * Z -> num -> Image -> Z -> list num.

(** a stack of wavelet coefficients, indexed [b][level][y][x] *)
Definition Coefficients : Type := list Cube.

(** The constraint classes of [scarlet/constraint.py] are collaborators;
    only the way they are instantiated and chained is recorded. *)
#[warnings="-register-all"]
Inductive Constraint : Type :=
| PositivityConstraint
| MonotonicityConstraint (neighbor_weight : string) (min_gradient : num)
| SymmetryConstraint
| NormalizationConstraint (type : string)
| CenterOnConstraint
| L0Constraint (thresh : Coefficients)
| ConstraintChain (constraints : list Constraint).

(** the step rules used in this module: [partial(relative_step,
    factor=f)] or a constant *)
Inductive Step : Type :=
| relative_step (factor : num)
| constant_step (s : num).

(** class [Parameter] of [scarlet/parameter.py] ([Parameter.__new__]): the
    array with its metadata.  The keyword [name] is taken by [**kwargs]
    and not stored. *)
Record Param (A : Type) : Type := {
  value : A;
  prior : option unit;
  constraint : option Constraint;
  step : Step;
  converged : bool;
  std : option A;
  fixed : bool
}.
Arguments value {A} _.
Arguments constraint {A} _.
Arguments step {A} _.

Definition Parameter_new {A : Type} (array : A) (step : Step)
    (constraint : option Constraint) : Param A :=
  {| value := array; prior := None; constraint := constraint; step := step;
     converged := false; std := None; fixed := false |}.

(** [FactorizedComponent(frame, bbox, sed, morph, shift=shift)] *)
Record FactorizedComponent : Type := {
  fc_frame : Frame;
  fc_bbox : Box;
  fc_sed : Param (list num);
  fc_morph : Param Image;
  fc_shift : option (Param (list num));
  fc_pixel_center : Z * Z
}.

(** the value of the argument [monotonic]: a variant name, [None], or a
    boolean of the older interface *)
Inductive monotonic_arg : Type :=
| mono_bool (b : bool)
| mono_none
| mono_str (s : string).

(** the lines "backwards compatibility: monotonic was boolean" *)
Definition monotonic_compat (monotonic : monotonic_arg) : option string :=
  match monotonic with
  | mono_bool true => Some "angle"%string
  | mono_bool false => None
  | mono_none => None
  | mono_str s => Some s
  end.

Definition tenth : num := div (of_Z 1) (of_Z 10).
Definition hundredth : num := div (of_Z 1) (of_Z 100).

(** [Parameter(center - pixel_center, name="shift", step=1e-1)] *)
Definition shift_parameter (pixel_center : Z * Z) (shifting : bool)
  : option (Param (list num)) :=
  if shifting then
    Some (Parameter_new
            [sub (of_Z (fst pixel_center)) (of_Z (fst pixel_center));
             sub (of_Z (snd pixel_center)) (of_Z (snd pixel_center))]
            (constant_step tenth) None)
  else None.

(** *** [ExtendedSource.__init__] *)
Definition ExtendedSource (model_frame : Frame) (sky_coord : SkyCoord)
    (observations : observations_arg)
    (coadd : option Image) (bg_cutoff : option num) (thresh : num)
    (monotonic : monotonic_arg) (symmetric shifting : bool) (min_grad : num)
  : result FactorizedComponent :=
  let pixel_center := get_pixel model_frame sky_coord in
  let shift := shift_parameter pixel_center shifting in
  (* initialize from observation *)
  '(sed, morph, bbox) <-
    init_extended_source interpolate_observation prox_uncentered_symmetry
      prox_weighted_monotonic sky_coord model_frame observations coadd
      bg_cutoff thresh true true min_grad ;;
  let sed := Parameter_new sed (relative_step hundredth)
               (Some PositivityConstraint) in
  let constraints := [] in
  (* backwards compatibility: monotonic was boolean *)
  let monotonic := monotonic_compat monotonic in
  let constraints :=
    match monotonic with
    | Some neighbor_weight =>
        constraints ++ [MonotonicityConstraint neighbor_weight min_grad]
    | None => constraints
    end in
  let constraints :=
    if symmetric then constraints ++ [SymmetryConstraint] else constraints in
  let constraints :=
    constraints ++ [PositivityConstraint; NormalizationConstraint "max"] in
  let morph_constraint := ConstraintChain constraints in
  let morph := Parameter_new morph (constant_step hundredth)
                 (Some morph_constraint) in
  Ok {| fc_frame := model_frame; fc_bbox := bbox; fc_sed := sed;
        fc_morph := morph; fc_shift := shift;
        fc_pixel_center := pixel_center |}.

(** *** [MultiComponentSource.__init__] *)
Definition MultiComponentSource (model_frame : Frame) (sky_coord : SkyCoord)
    (observations : observations_arg) (thresh : num)
    (coadd : option Image) (bg_cutoff : option num)
    (flux_percentiles : option (list num))
    (symmetric : bool) (monotonic : monotonic_arg) (shifting : bool)
    (min_grad : num)
  : result (list FactorizedComponent) :=
  let pixel_center := get_pixel model_frame sky_coord in
  let shift := shift_parameter pixel_center shifting in
  (* initialize from observation *)
  '(seds, morphs, bbox) <-
    init_multicomponent_source interpolate_observation linalg_inv
      prox_uncentered_symmetry prox_weighted_monotonic sky_coord model_frame
      observations None bg_cutoff flux_percentiles thresh true true min_grad ;;
  let constraints := [] in
  (* backwards compatibility: monotonic was boolean *)
  let monotonic := monotonic_compat monotonic in
  let constraints :=
    match monotonic with
    | Some neighbor_weight =>
        constraints ++ [MonotonicityConstraint neighbor_weight min_grad]
    | None => constraints
    end in
  let constraints :=
    if symmetric then constraints ++ [SymmetryConstraint] else constraints in
  let constraints :=
    constraints ++ [PositivityConstraint; CenterOnConstraint;
                    NormalizationConstraint "max"] in
  let morph_constraint := ConstraintChain constraints in
  (* for k in range(len(seds)) *)
  mapM (fun k =>
          sed_k <- py_index seds k ;;
          morph_k <- py_index morphs k ;;
          Ok {| fc_frame := model_frame; fc_bbox := bbox;
                fc_sed := Parameter_new sed_k (relative_step tenth)
                            (Some PositivityConstraint);
                fc_morph := Parameter_new morph_k (constant_step hundredth)
                              (Some morph_constraint);
                fc_shift := shift;
                fc_pixel_center := pixel_center |})
       (zrange 0 (len seds)).

(** *** [StarletSource.__init__] *)

(** [Starlet(image)] of [scarlet/wavelet.py]: the transform object, of
    which the coefficients [(1, lvl, n1, n2)] and the per-scale norm are
    read *)
Record StarletTransform : Type := {
  coefficients : Coefficients;
  norm : list num
}.

Variable Starlet : Image -> StarletTransform.

(** [mad_wavelet(images)]: a noise estimate per channel *)
Variable mad_wavelet : Cube -> list num.

(** numpy broadcasting of a binary operation on two 1D arrays *)
Definition bcast (op : num -> num -> num) (xs ys : list num)
  : result (list num) :=
  match xs, ys with
  | _, [y] => Ok (map (fun x => op x y) xs)
  | [x], _ => Ok (map (fun y => op x y) ys)
  | _, _ => if (List.length xs =? List.length ys)%nat
            then Ok (map (fun xy => op (fst xy) (snd xy)) (combine xs ys))
            else Raise ValueError
  end.

(** [mad_wavelet(obs.images) *
     np.sqrt(np.sum(obs._diff_kernels.image**2, axis=(-2,-1)))] *)
Definition observation_noise (obs : Observation) : result (list num) :=
  bcast mul (mad_wavelet (images obs))
    (map (fun k => fsqrt (fsum (map (fun x => mul x x) (flatten k))))
         (diff_kernels obs)).

(** [thresh_array * np.array([starlet_norm])[..., np.newaxis, np.newaxis]]
    for one element of the leading axis: the scale axis is broadcast
    against the norms *)
Definition scale_levels (levels : Cube) (starlet_norm : list num)
  : result Cube :=
  match levels, starlet_norm with
  | _, [n] => Ok (map (map2d (fun t => mul t n)) levels)
  | [lv], _ => Ok (map (fun n => map2d (fun t => mul t n) lv) starlet_norm)
  | _, _ => if (List.length levels =? List.length starlet_norm)%nat
            then Ok (map (fun ln => map2d (fun t => mul t (snd ln)) (fst ln))
                         (combine levels starlet_norm))
            else Raise ValueError
  end.

(** [a[-1, :, :] = 0] on a stack of scales; no scale at all is an
    [IndexError] *)
Definition zero_last_level (levels : Cube) : result Cube :=
  match rev levels with
  | [] => Raise IndexError
  | last :: front => Ok (rev front ++ [map2d (fun _ => zero) last])
  end.

(** the threshold array of [StarletSource.__init__] *)
Definition starlet_thresh_array (morph : Coefficients) (thresh : num)
    (starlet_norm : list num) : result Coefficients :=
  (* thresh_array = np.zeros(morph.shape) + thresh *)
  let thresh_array := map (map (map2d (fun _ => add zero thresh))) morph in
  thresh_array <- mapM (fun levels => scale_levels levels starlet_norm)
                    thresh_array ;;
  (* We don't threshold the last scale *)
  mapM zero_last_level thresh_array.

(** [FunctionComponent(frame, bbox, sed, morph, self._iuwt)] *)
Record StarletComponent : Type := {
  sc_frame : Frame;
  sc_bbox : Box;
  sc_sed : Param (list num);
  sc_morph : Param Coefficients;
  sc_transform : StarletTransform;
  sc_pixel_center : Z * Z
}.

Definition StarletSource (frame : Frame) (sky_coord : SkyCoord)
    (observations : observations_arg)
    (coadd : option Image) (bg_cutoff : option num) (thresh : num)
    (starlet_thresh : num) (min_grad : num) : result StarletComponent :=
  let pixel_center := get_pixel frame sky_coord in
  (* initialize from observation *)
  '(sed, image_morph, bbox) <-
    init_extended_source interpolate_observation prox_uncentered_symmetry
      prox_weighted_monotonic sky_coord frame observations coadd bg_cutoff
      thresh true true min_grad ;;
  noise <- mapM observation_noise (as_list observations) ;;
  noise <- (match noise with
            | [] => Raise ValueError
            | _ => Ok (List.concat noise)
            end) ;;
  (* Threshold in units of noise *)
  sed_noise <- bcast mul sed noise ;;
  let thresh :=
    mul starlet_thresh (fsqrt (fsum (map (fun x => mul x x) sed_noise))) in
  (* Starlet transform of morphologies *)
  let transform := Starlet image_morph in
  (* The starlet transform is the model *)
  let morph := coefficients transform in
  (* wavelet-scale norm *)
  let starlet_norm := norm transform in
  (* One threshold per wavelet scale: thresh*norm *)
  thresh_array <- starlet_thresh_array morph thresh starlet_norm ;;
  let sed := Parameter_new sed (relative_step hundredth)
               (Some PositivityConstraint) in
  let morph_constraint :=
    ConstraintChain [L0Constraint thresh_array; PositivityConstraint] in
  let morph := Parameter_new morph (constant_step hundredth)
                 (Some morph_constraint) in
  Ok {| sc_frame := frame; sc_bbox := bbox; sc_sed := sed; sc_morph := morph;
        sc_transform := transform; sc_pixel_center := pixel_center |}.
End Sources.

Arguments value {Num A} _.
Arguments constraint {Num A} _.
Arguments step {Num A} _.

(* ------------------------------------------------------------------------- *)
(** ** The layering loop, pixel by pixel *)

Section Pixelwise.
Context {Num : Scalar}.

(** the threshold of a percentile: [perc * max_flux / 100] *)
Definition flux_threshold (max_flux perc : num) : num :=
  div (mul perc max_flux) (of_Z 100).

(** [layer_step] seen at one pixel of value [m]: the state is the column of
    the values of the layers at that pixel *)
Definition pixel_step (m max_flux : num) (st : list num * num)
    (kperc : nat * num) : list num * num :=
  let flux_thresh := flux_threshold max_flux (snd kperc) in
  (update_nth (fst kperc)
     (fun l => if gtb m flux_thresh then sub m flux_thresh else l)
     (update_nth (fst kperc - 1)
        (fun l => if gtb m flux_thresh then sub flux_thresh (snd st) else l)
        (fst st)),
   flux_thresh).

(** the column of layer values at a pixel of value [m] after the loop *)
Definition pixel_layers (max_flux : num) (flux_percentiles : list num)
    (m : num) : list num :=
  fst (fold_left (pixel_step m max_flux)
         (combine (seq 1 (List.length flux_percentiles))
                  (np_sort flux_percentiles))
         (m :: repeat zero (List.length flux_percentiles), zero)).
(** the stack of layers is the image of the morphology under a list of
    pixel functions; [layer_step] acts on those *)
Definition lift_layers (morph : Image) (phis : list (num -> num)) : list Image :=
  map (fun phi => map2d phi morph) phis.

Definition phi_step (max_flux : num) (st : list (num -> num) * num)
    (kperc : nat * num) : list (num -> num) * num :=
  let flux_thresh := flux_threshold max_flux (snd kperc) in
  (update_nth (fst kperc)
     (fun phi m => if gtb m flux_thresh then sub m flux_thresh else phi m)
     (update_nth (fst kperc - 1)
        (fun phi m => if gtb m flux_thresh then sub flux_thresh (snd st)
                      else phi m)
        (fst st)),
   flux_thresh).
End Pixelwise.

(** the sum of a list of reals *)
Definition rsum (l : list R) : R := fold_right Rplus 0%R l.


(* ------------------------------------------------------------------------- *)
(** ** Notions used to state the properties *)

Definition result_map {A B : Type} (f : A -> B) (r : result A) : result B :=
  match r with
  | Ok a => Ok (f a)
  | Raise e => Raise e
  end.

Section Statements.
Context {Num : Scalar}.

(** [np.sum(morphs, axis=0)]: the pixelwise sum of a stack of layers *)
Definition stack_sum (layers : list Image) : Image :=
  match layers with
  | [] => []
  | l0 :: rest => fold_left (zip2d add) rest l0
  end.

(** the pixel [(y, x)] of an image, for indices inside the image *)
Definition pixel_at (im : Image) (p : Z * Z) : option num :=
  match lookupZ im (fst p) with
  | Some row => lookupZ row (snd p)
  | None => None
  end.

(** what a component is initialised with: the values of its SED and
    morphology parameters and its box *)
Definition initial_state (c : FactorizedComponent)
  : list num * Image * Box :=
  (value (fc_sed c), value (fc_morph c), fc_bbox c).

(** a component without the constraint attached to its morphology *)
Definition without_morph_constraint (c : FactorizedComponent)
  : FactorizedComponent :=
  {| fc_frame := fc_frame c; fc_bbox := fc_bbox c; fc_sed := fc_sed c;
     fc_morph := Parameter_new (value (fc_morph c)) (step (fc_morph c)) None;
     fc_shift := fc_shift c; fc_pixel_center := fc_pixel_center c |}.

(** the flat list of the constraints of a chain *)
Definition chain_of (c : option Constraint) : list Constraint :=
  match c with
  | Some (ConstraintChain cs) => cs
  | Some c => [c]
  | None => []
  end.

Definition is_monotonicity (c : Constraint) : bool :=
  match c with
  | MonotonicityConstraint _ _ => true
  | _ => false
  end.

(** the inputs of [build_sed_coadd] fit together: one SED and one RMS
    vector per observation, one entry per channel of its images, and an
    observation in the frame of the model *)
Definition coadd_inputs_aligned
    (interpolate_observation : Observation -> Frame -> Cube)
    (seds bg_rmses : list (list num)) (observations : list Observation)
  : Prop :=
  (exists obs_ref, reference_observation observations = Ok obs_ref /\
     Forall2 (fun sed obs =>
                List.length sed =
                List.length (if is_Observation obs then images obs
                             else interpolate_observation obs (obs_frame obs_ref)))
             seds observations) /\
  Forall2 (fun sed bg_rms => List.length sed = List.length bg_rms)
          seds bg_rmses.
End Statements.

(** Following the spec's words: the cutoff is
    [sqrt(sum((weight * rms)^2)) / sum(sed^2 / rms^2)] with
    [weight = sed / rms^2], the sums running over all channels of all
    observations. *)
Definition spec_bg_cutoff (sed rms : list R) : R :=
  let weight := map (fun sr => fst sr / (snd sr) ^ 2)%R (combine sed rms) in
  (sqrt (fold_right Rplus 0%R
           (map (fun wr => (fst wr * snd wr) ^ 2)%R (combine weight rms)))
   / fold_right Rplus 0%R
       (map (fun sr => (fst sr) ^ 2 / (snd sr) ^ 2)%R (combine sed rms)))%R.

(* ------------------------------------------------------------------------- *)
(** ** A small scene in binary64

    One single-band observation of 3x3 pixels with a source at pixel (1, 1),
    unit inverse-variance weights and no PSF model.  The collaborators are
    replaced by the simplest functions of the right type: on this scene the
    coadd is already symmetric and monotonic, so the projections are
    identities. *)

Module Scene.
Local Open Scope float_scope.

Definition frame : @Frame float64 :=
  {| get_pixel := fun _ => (1%Z, 1%Z); frame_C := 1%Z; frame_psf := None |}.

Definition sky : @SkyCoord float64 := (1, 1).

Definition image : @Image float64 :=
  [[0.5; 1; 0.5];
   [1;   4; 1];
   [0.5; 1; 0.5]].

Definition obs : @Observation float64 :=
  {| is_Observation := true;
     obs_frame := frame;
     images := [image];
     weights := Some [[[1; 1; 1]; [1; 1; 1]; [1; 1; 1]]];
     diff_kernels := [[[1]]] |}.

Definition interpolate (o : @Observation float64) (_ : @Frame float64)
  : @Cube float64 := images o.

Definition symmetry (X : @Image float64) (_ : Z) (_ : Z * Z) (_ : string)
  : @Image float64 := X.

Definition monotonic (_ : Z * Z) (_ : string) (_ : Z * Z) (_ : float)
    (X : @Image float64) (_ : Z) : list float := flatten X.

(** the inverse of a 1x1 or 2x2 matrix *)
Definition inv (m : list (list float)) : result (list (list float)) :=
  match m with
  | [[a]] => Ok [[1 / a]]
  | [[a; b]; [c; d]] =>
      let det := a * d - b * c in
      if PrimFloat.eqb det 0 then Raise LinAlgError
      else Ok [[d / det; - b / det]; [- c / det; a / det]]
  | _ => Raise LinAlgError
  end.

Definition starlet (im : @Image float64) : @StarletTransform float64 :=
  {| coefficients := [[im; im; im]]; norm := [0.5; 0.25; 0.125] |}.

Definition mad (cube : @Cube float64) : list float := map (fun _ => 1) cube.

Definition min_grad : float := 0.25.

(** the same scene seen through a PSF whose peak is 1 in the observation and
    2 in the frame of the model *)
Definition frame_psf1 : @Frame float64 :=
  {| get_pixel := fun _ => (1%Z, 1%Z); frame_C := 1%Z;
     frame_psf := Some (@Build_PSF float64 [[[0.25; 1; 0.25]]]) |}.

Definition frame_psf2 : @Frame float64 :=
  {| get_pixel := fun _ => (1%Z, 1%Z); frame_C := 1%Z;
     frame_psf := Some (@Build_PSF float64 [[[0.5; 2; 0.5]]]) |}.

Definition obs_psf1 : @Observation float64 :=
  {| is_Observation := true;
     obs_frame := frame_psf1;
     images := [image; [[1; 1; 1]; [1; 3; 1]; [1; 1; 1]]];
     weights := None;
     diff_kernels := [] |}.

(** a crude monotonicity projection: no pixel may exceed the center pixel *)
Definition monotonic_cap (_ : Z * Z) (_ : string) (center : Z * Z) (_ : float)
    (X : @Image float64) (_ : Z) : list float :=
  match index2 X center with
  | Ok c => flatten (map2d (fun x => if PrimFloat.ltb c x then c else x) X)
  | Raise _ => flatten X
  end.

(** a coadd with a faint center next to a bright pixel *)
Definition faint_center_coadd : @Image float64 :=
  [[0; 0;    0];
   [0; 0.25; 2];
   [0; 0;    0]].

(** a coadd whose brightest pixel is not the center pixel (1, 1) *)
Definition off_center_coadd : @Image float64 :=
  [[0; 0; 0];
   [0; 1; 2];
   [0; 0; 0]].
End Scene.

(** ** Small inputs in exact arithmetic *)

Module Exact.
Definition psf (peak : R) : @PSF real := @Build_PSF real [[[peak]]].

Definition frame (p : option (@PSF real)) : @Frame real :=
  @Build_Frame real (fun _ => (0, 0)) 1 p.

Definition obs (im : @Cube real) (p : option (@PSF real)) : @Observation real :=
  @Build_Observation real true (frame p) im None [].

Definition sky : @SkyCoord real := (0%R, 0%R).

Definition interpolate (o : @Observation real) (_ : @Frame real)
  : @Cube real := images o.
End Exact.

(* ------------------------------------------------------------------------- *)
(** ** [PointSource.__init__] *)

Section Point.
Context {Num : Scalar}.

(** [model_frame.shape]: the shape [(C, Ny, Nx)] of the model, and
    [psf.shape]: the declared shape of a PSF model; both are attributes of
    collaborators *)
Variable frame_shape : Frame -> Z * Z * Z.
Variable psf_shape : PSF -> list Z.

(** [FunctionComponent(model_frame, bbox, sed, center, self._psf_wrapper)] *)
Record PointComponent : Type := {
  pc_frame : Frame;
  pc_bbox : Box;
  pc_sed : Param (list num);
  pc_center : Param (list num)
}.

Definition PointSource (model_frame : Frame) (sky_coord : SkyCoord)
    (observations : observations_arg) : result PointComponent :=
  let '(C, Ny, Nx) := frame_shape model_frame in
  (* self.center, an array of floats *)
  let pixel := get_pixel model_frame sky_coord in
  (* determine initial SED from peak position *)
  seds <- mapM (fun obs => get_psf_sed sky_coord obs model_frame)
            (as_list observations) ;;
  sed <- (match seds with
          | [] => Raise ValueError   (* np.concatenate of nothing *)
          | _ => Ok (List.concat seds)
          end) ;;
  (* set up parameters *)
  let sed := Parameter_new sed (relative_step hundredth)
               (Some PositivityConstraint) in
  let center := Parameter_new [of_Z (fst pixel); of_Z (snd pixel)]
                  (constant_step tenth) None in
  (* define bbox; rounding the float center gives the pixel back *)
  let pixel_center := pixel in
  psf <- (match frame_psf model_frame with
          | Some psf => Ok psf
          | None => Raise AttributeError   (* None has no attribute shape *)
          end) ;;
  height <- py_index (psf_shape psf) 1 ;;
  let bottom := fst pixel_center - height / 2 in
  let top := fst pixel_center + height / 2 in
  width <- py_index (psf_shape psf) 2 ;;
  let left := snd pixel_center - width / 2 in
  let right := snd pixel_center + width / 2 in
  let bbox := Box_from_bounds [(0, C); (bottom, top); (left, right)] in
  Ok {| pc_frame := model_frame; pc_bbox := bbox; pc_sed := sed;
        pc_center := center |}.
End Point.

(* ------------------------------------------------------------------------- *)
(** ** Step sizes of [scarlet/parameter.py] *)

Section Steps.
Context {Num : Scalar}.

(** [X.mean(axis=0)] of a 1D array *)
Definition mean (X : list num) : num := div (fsum X) (of_Z (len X)).

(** [relative_step = lambda X, it, factor: factor*X.mean(axis=0)] on a 1D
    array, such as an SED *)
Definition relative_step_1d (X : list num) (it : Z) (factor : num) : num :=
  mul factor (mean X).

(** [default_step = partial(relative_step, factor=0.1)] *)
Definition default_step (X : list num) (it : Z) : num :=
  relative_step_1d X it tenth.
End Steps.

(* ------------------------------------------------------------------------- *)
(** ** More notions used to state properties *)

(** the squared residual [||d - a * m||^2] of fitting the data [d] by the
    morphology [m] with amplitude [a] *)
Definition residual (m d : list R) (a : R) : R :=
  rsum (map (fun md => (snd md - a * fst md) ^ 2)%R (combine m d)).

(** [sum(sed^2 / rms^2)]: the squared signal-to-noise ratio of the channels *)
Definition snr2 (sed rms : list R) : R :=
  rsum (map (fun sr => (fst sr) ^ 2 / (snd sr) ^ 2)%R (combine sed rms)).

(** the number of channels of a list of observations *)
Definition total_channels {Num : Scalar} (observations : list Observation) : nat :=
  list_sum (map (fun obs => List.length (images obs)) observations).

(** an observation stripped of its weights, and an argument [observations]
    changed element by element *)
Definition without_weights {Num : Scalar} (obs : Observation) : Observation :=
  {| is_Observation := is_Observation obs; obs_frame := obs_frame obs;
     images := images obs; weights := None;
     diff_kernels := diff_kernels obs |}.

Definition map_observations {Num : Scalar} (f : Observation -> Observation)
    (observations : observations_arg) : observations_arg :=
  match observations with
  | one_observation obs => one_observation (f obs)
  | observation_list l => observation_list (map f l)
  end.

(** every image of the stack has [H] rows of [W] pixels *)
Definition cube_shape {Num : Scalar} (H W : Z) (cube : Cube) : Prop :=
  Forall (fun im => len im = H /\ Forall (fun row => len row = W) im) cube.


(** the shape of an image: its rows with the pixel values forgotten *)
Definition image_shape {A : Type} (im : list (list A)) : list (list unit) :=
  map2d (fun _ => tt) im.

(* ------------------------------------------------------------------------- *)
(** * Properties *)

(** ** The error monad *)

Lemma bind_Ok {A B : Type} (m : result A) (k : A -> result B) (b : B) :
  bind m k = Ok b -> exists a, m = Ok a /\ k a = Ok b.
Proof. destruct m as [a|e]; simpl; [eauto|discriminate]. Qed.

Lemma mapM_Ok_In {A B : Type} (f : A -> result B) (l : list A) (l' : list B) :
  mapM f l = Ok l' -> forall y, In y l' -> exists x, In x l /\ f x = Ok y.
Proof.
  revert l'. induction l as [|a l IH]; simpl; intros l' H y Hy.
  - injection H as <-. destruct Hy.
  - apply bind_Ok in H as [b [Hb H]]. apply bind_Ok in H as [bs [Hbs H]].
    injection H as <-. destruct Hy as [<-|Hy]; [eauto|].
    destruct (IH bs Hbs y Hy) as [x [Hx Hf]]. eauto.
Qed.

Lemma mapM_Ok_length {A B : Type} (f : A -> result B) (l : list A) (l' : list B) :
  mapM f l = Ok l' -> List.length l' = List.length l.
Proof.
  revert l'. induction l as [|a l IH]; simpl; intros l' H.
  - now injection H as <-.
  - apply bind_Ok in H as [b [Hb H]]. apply bind_Ok in H as [bs [Hbs H]].
    injection H as <-. simpl. f_equal. auto.
Qed.

Lemma mapM_ext {A B : Type} (f g : A -> result B) (l : list A) :
  (forall a, In a l -> f a = g a) -> mapM f l = mapM g l.
Proof.
  induction l as [|a l IH]; simpl; intros H; [reflexivity|].
  rewrite (H a), IH by auto. reflexivity.
Qed.

Lemma result_map_mapM {A B C : Type} (g : B -> C) (f : A -> result B) (l : list A) :
  result_map (map g) (mapM f l) = mapM (fun a => result_map g (f a)) l.
Proof.
  induction l as [|a l IH]; simpl; [reflexivity|].
  destruct (f a) as [b|e]; simpl; [|reflexivity].
  rewrite <- IH. now destruct (mapM f l).
Qed.

(** ** Python indexing *)

Lemma py_index_map {A B : Type} (f : A -> B) (l : list A) (i : Z) :
  py_index (map f l) i =
  match py_index l i with Ok a => Ok (f a) | Raise e => Raise e end.
Proof.
  unfold py_index, len. rewrite length_map.
  destruct ((_ <? 0) || _); [reflexivity|].
  rewrite nth_error_map. now destruct (nth_error l _).
Qed.

Lemma index2_map2d {A B : Type} (f : A -> B) (m : list (list A)) (p : Z * Z) :
  index2 (map2d f m) p =
  match index2 m p with Ok a => Ok (f a) | Raise e => Raise e end.
Proof.
  unfold index2, map2d. rewrite py_index_map.
  destruct (py_index m (fst p)) as [row|e]; simpl; [|reflexivity].
  apply py_index_map.
Qed.

Lemma py_index_raises {A : Type} (l : list A) (i : Z) (e : exn) :
  py_index l i = Raise e -> e = IndexError.
Proof.
  unfold py_index. destruct (_ || _); [congruence|].
  destruct (nth_error _ _); congruence.
Qed.

Lemma index2_raises {A : Type} (m : list (list A)) (p : Z * Z) (e : exn) :
  index2 m p = Raise e -> e = IndexError.
Proof.
  unfold index2. destruct (py_index m (fst p)) eqn:E; simpl.
  - apply py_index_raises.
  - intros [= <-]. eapply py_index_raises; eauto.
Qed.

Lemma py_index_last {A : Type} (l : list A) (a : A) :
  py_index (l ++ [a]) (-1) = Ok a.
Proof.
  unfold py_index, len. rewrite length_app. simpl List.length.
  replace (-1 <? 0) with true by reflexivity.
  destruct (Z.ltb_spec (-1 + Z.of_nat (List.length l + 1)) 0); [lia|].
  destruct (Z.leb_spec (Z.of_nat (List.length l + 1))
              (-1 + Z.of_nat (List.length l + 1))); [lia|].
  simpl orb. cbv iota.
  replace (Z.to_nat (-1 + Z.of_nat (List.length l + 1))) with (List.length l) by lia.
  rewrite nth_error_app2 by lia. rewrite Nat.sub_diag. reflexivity.
Qed.

(** ** The bounding box of [trim_morphology] *)

Lemma grow_boxsize_spec (fuel : nat) (b size : Z) :
  0 < b -> size <= b + Z.of_nat fuel ->
  exists n : nat,
    grow_boxsize fuel b size = b * 2 ^ Z.of_nat n /\
    size <= grow_boxsize fuel b size /\
    (n = O \/ b * 2 ^ (Z.of_nat n - 1) < size).
Proof.
  revert b. induction fuel as [|fuel IH]; intros b Hb Hsz.
  - exists O. simpl. split; [lia|]. split; [lia|]. now left.
  - simpl. destruct (Z.ltb_spec b size) as [Hlt|Hge].
    + destruct (IH (b * 2)) as [n [Heq [Hle Hmin]]]; [lia|lia|].
      exists (S n). rewrite Heq in *.
      rewrite Nat2Z.inj_succ, Z.pow_succ_r by lia.
      split; [lia|]. split; [lia|]. right.
      replace (Z.succ (Z.of_nat n) - 1) with (Z.of_nat n) by lia.
      destruct Hmin as [->|Hmin]; [simpl; lia|].
      destruct n as [|n]; [simpl; lia|].
      replace (Z.of_nat (S n)) with (Z.succ (Z.of_nat (S n) - 1)) by lia.
      rewrite Z.pow_succ_r by lia.
      replace (Z.succ (Z.of_nat (S n) - 1) - 1) with (Z.of_nat (S n) - 1) in Hmin by lia.
      lia.
    + exists O. split; [simpl; lia|]. split; [lia|]. now left.
Qed.

Section TrimFacts.
Context {Num : Scalar}.

Lemma Box_from_data_bounds (X : Image) (v : num) :
  exists a b, bounds (Box_from_data X v) = [a; b].
Proof.
  unfold Box_from_data. destruct (where_gt X v) as [|[y x] sel]; simpl; eauto.
Qed.

(** the last lines of [trim_morphology], from "define bbox and trim to
    bbox" on *)
Lemma trim_box_of_boxsize (c : Z * Z) (C : Z) (n : nat) :
  let boxsize := 16 * 2 ^ Z.of_nat n in
  let bottom := fst c - boxsize / 2 in
  let top := fst c + boxsize / 2 in
  let left := snd c - boxsize / 2 in
  let right := snd c + boxsize / 2 in
  top - bottom = boxsize /\ right - left = boxsize /\
  bottom <= fst c < top /\ left <= snd c < right.
Proof.
  intros boxsize bottom top left right.
  assert (Hp : 0 < 2 ^ Z.of_nat n) by (apply Z.pow_pos_nonneg; lia).
  assert (Hh : boxsize / 2 = 8 * 2 ^ Z.of_nat n).
  { unfold boxsize. replace (16 * 2 ^ Z.of_nat n) with (8 * 2 ^ Z.of_nat n * 2) by lia.
    apply Z.div_mul. lia. }
  unfold bottom, top, left, right. rewrite Hh. unfold boxsize. lia.
Qed.

(** C2.  Whenever [trim_morphology] returns, the spatial sides of the 3D box
    it returns have length [16 * 2^n] for some natural number [n], the same
    for both axes, and the box contains the center pixel.  It returns on
    every input except when indexing the center pixel raises [IndexError]
    (a center outside the array, in the branch with flux above the
    threshold). *)
Theorem trim_morphology_box (sky : SkyCoord) (frame : Frame) (morph : Image)
    (bg_cutoff thresh : num) :
  match trim_morphology sky frame morph bg_cutoff thresh with
  | Ok (_, bbox) =>
      exists (n : nat) (bottom top left right : Z),
        bounds bbox = [(0, frame_C frame); (bottom, top); (left, right)] /\
        top - bottom = 16 * 2 ^ Z.of_nat n /\
        right - left = 16 * 2 ^ Z.of_nat n /\
        bottom <= fst (get_pixel frame sky) < top /\
        left <= snd (get_pixel frame sky) < right
  | Raise e =>
      e = IndexError /\ index2 morph (get_pixel frame sky) = Raise IndexError
  end.
Proof.
  unfold trim_morphology.
  set (c := get_pixel frame sky).
  assert (Hfin : forall (m : Image) (n : nat),
    match (let boxsize := 16 * 2 ^ Z.of_nat n in
           m' <- Box_extract_from
                   (Box_from_bounds [(fst c - boxsize / 2, fst c + boxsize / 2);
                                     (snd c - boxsize / 2, snd c + boxsize / 2)]) m ;;
           Ok (m', Box_from_bounds [(0, frame_C frame);
                                    (fst c - boxsize / 2, fst c + boxsize / 2);
                                    (snd c - boxsize / 2, snd c + boxsize / 2)]))
    with
    | Ok (_, bbox) =>
      exists (n : nat) (bottom top left right : Z),
        bounds bbox = [(0, frame_C frame); (bottom, top); (left, right)] /\
        top - bottom = 16 * 2 ^ Z.of_nat n /\
        right - left = 16 * 2 ^ Z.of_nat n /\
        bottom <= fst c < top /\ left <= snd c < right
    | Raise e => e = IndexError /\ index2 morph c = Raise IndexError
    end).
  { intros m n. cbn -[Z.pow Z.div Z.mul].
    exists n. do 4 eexists. split; [reflexivity|].
    apply (trim_box_of_boxsize c (frame_C frame) n). }
  destruct (0 <? mask_sum _).
  - rewrite index2_map2d.
    destruct (index2 morph c) as [v|e] eqn:Hc; simpl.
    + set (morph2 := map2d _ (map2d _ morph)).
      destruct (Box_contains _ _).
      * destruct (Box_from_data_bounds morph2 zero) as [[a0 a1] [[b0 b1] Hb]].
        unfold Box_start, Box_stop. rewrite Hb.
        cbn [map fst snd].
        change (py_index [a0; b0] (-2)) with (Ok a0).
        change (py_index [a1; b1] 0) with (Ok a1).
        change (py_index [a0; b0] (-1)) with (Ok b0).
        change (py_index [a1; b1] 1) with (Ok b1).
        cbn [bind].
        match goal with
        | |- context [grow_boxsize (Z.to_nat ?s) 16 ?s] =>
            destruct (grow_boxsize_spec (Z.to_nat s) 16 s) as [n [Hn _]];
            [lia|lia|rewrite Hn]
        end.
        apply (Hfin morph2 n).
      * apply (Hfin morph2 O).
    + split; [|f_equal]; eapply index2_raises; eauto.
  - apply (Hfin morph O).
Qed.
End TrimFacts.

Example grow_boxsize_40 : grow_boxsize (Z.to_nat 40) 16 40 = 64.
Proof. reflexivity. Qed.

(** the box of the scene: 16 pixels around the center (1, 1) *)
Example trim_morphology_scene :
  result_map snd
    (trim_morphology (Num := float64) Scene.sky Scene.frame Scene.image
       0.25%float 1%float)
  = Ok (Box_from_bounds [(0, 1); (-7, 9); (-7, 9)]).
Proof. vm_compute. reflexivity. Qed.

(* ------------------------------------------------------------------------- *)
(** ** The source classes *)

Section SourceFacts.
Context {Num : Scalar}.
Variable interpolate_observation : Observation -> Frame -> Cube.
Variable linalg_inv : list (list num) -> result (list (list num)).
Variable prox_uncentered_symmetry : Image -> Z -> Z * Z -> string -> Image.
Variable prox_weighted_monotonic :
  Z * Z -> string -> Z * Z -> num -> Image -> Z -> list num.
Variable Starlet : Image -> StarletTransform.
Variable mad_wavelet : Cube -> list num.

(** C8.  In the constraint chain that [ExtendedSource.__init__] attaches to
    the morphology, [monotonic=True] gives a [MonotonicityConstraint] with
    [neighbor_weight="angle"], [monotonic=False] (as well as [None]) gives no
    monotonicity constraint, and a string is used as [neighbor_weight]
    unchanged. *)
Theorem ExtendedSource_monotonic_constraint
    (model_frame : Frame) (sky_coord : SkyCoord)
    (observations : observations_arg) (coadd : option Image)
    (bg_cutoff : option num) (thresh : num) (monotonic : monotonic_arg)
    (symmetric shifting : bool) (min_grad : num)
    (src : FactorizedComponent) :
  ExtendedSource interpolate_observation prox_uncentered_symmetry
    prox_weighted_monotonic model_frame sky_coord observations coadd bg_cutoff thresh
    monotonic symmetric shifting min_grad = Ok src ->
  constraint (fc_morph src) =
  Some (ConstraintChain
          (match monotonic with
           | mono_bool true => [MonotonicityConstraint "angle" min_grad]
           | mono_bool false => []
           | mono_none => []
           | mono_str variant => [MonotonicityConstraint variant min_grad]
           end
           ++ (if symmetric then [SymmetryConstraint] else [])
           ++ [PositivityConstraint; NormalizationConstraint "max"])).
Proof.
  unfold ExtendedSource.
  destruct (init_extended_source _ _ _ _ _ _ _ _ _ _ _ _) as [[[sed morph] bbox]|e];
    simpl; [|discriminate].
  intros [= <-]. destruct monotonic as [[|]| |variant], symmetric; reflexivity.
Qed.

(** C10.  [ExtendedSource.__init__] and [MultiComponentSource.__init__] call
    the initializer with [symmetric=True] and [monotonic=True] whatever their
    own arguments [symmetric] and [monotonic] are: the initial SED,
    morphology and box are those of the initializer called with both flags
    set, and two constructions that differ only in these two arguments
    differ only in the constraint attached to the morphology. *)
Theorem sources_initialised_symmetric_monotonic
    (model_frame : Frame) (sky_coord : SkyCoord)
    (observations : observations_arg) (coadd : option Image)
    (bg_cutoff : option num) (flux_percentiles : option (list num))
    (thresh : num) (shifting : bool) (min_grad : num)
    (monotonic monotonic' : monotonic_arg) (symmetric symmetric' : bool) :
  (result_map initial_state
     (ExtendedSource interpolate_observation prox_uncentered_symmetry
        prox_weighted_monotonic model_frame sky_coord observations coadd
        bg_cutoff thresh monotonic symmetric shifting min_grad)
   = init_extended_source interpolate_observation prox_uncentered_symmetry
       prox_weighted_monotonic sky_coord model_frame observations coadd
       bg_cutoff thresh true true min_grad)
  /\
  (result_map without_morph_constraint
     (ExtendedSource interpolate_observation prox_uncentered_symmetry
        prox_weighted_monotonic model_frame sky_coord observations coadd
        bg_cutoff thresh monotonic symmetric shifting min_grad)
   = result_map without_morph_constraint
       (ExtendedSource interpolate_observation prox_uncentered_symmetry
          prox_weighted_monotonic model_frame sky_coord observations coadd
          bg_cutoff thresh monotonic' symmetric' shifting min_grad))
  /\
  (result_map (map initial_state)
     (MultiComponentSource interpolate_observation linalg_inv
        prox_uncentered_symmetry prox_weighted_monotonic model_frame sky_coord
        observations thresh coadd bg_cutoff flux_percentiles symmetric
        monotonic shifting min_grad)
   = ('(seds, morphs, bbox) <-
        init_multicomponent_source interpolate_observation linalg_inv
          prox_uncentered_symmetry prox_weighted_monotonic sky_coord
          model_frame observations None bg_cutoff flux_percentiles thresh
          true true min_grad ;;
      mapM (fun k => sed_k <- py_index seds k ;;
                     morph_k <- py_index morphs k ;;
                     Ok (sed_k, morph_k, bbox))
           (zrange 0 (len seds))))
  /\
  (result_map (map without_morph_constraint)
     (MultiComponentSource interpolate_observation linalg_inv
        prox_uncentered_symmetry prox_weighted_monotonic model_frame sky_coord
        observations thresh coadd bg_cutoff flux_percentiles symmetric
        monotonic shifting min_grad)
   = result_map (map without_morph_constraint)
       (MultiComponentSource interpolate_observation linalg_inv
          prox_uncentered_symmetry prox_weighted_monotonic model_frame
          sky_coord observations thresh coadd bg_cutoff flux_percentiles
          symmetric' monotonic' shifting min_grad)).
Proof.
  repeat split.
  - unfold ExtendedSource.
    destruct (init_extended_source _ _ _ _ _ _ _ _ _ _ _ _)
      as [[[sed morph] bbox]|e]; reflexivity.
  - unfold ExtendedSource.
    destruct (init_extended_source _ _ _ _ _ _ _ _ _ _ _ _)
      as [[[sed morph] bbox]|e]; reflexivity.
  - unfold MultiComponentSource.
    destruct (init_multicomponent_source _ _ _ _ _ _ _ _ _ _ _ _ _ _)
      as [[[seds morphs] bbox]|e]; [|reflexivity].
    cbn [bind]. rewrite result_map_mapM. apply mapM_ext. intros k _.
    destruct (py_index seds k); [|reflexivity].
    destruct (py_index morphs k); reflexivity.
  - unfold MultiComponentSource.
    destruct (init_multicomponent_source _ _ _ _ _ _ _ _ _ _ _ _ _ _)
      as [[[seds morphs] bbox]|e]; [|reflexivity].
    cbn [bind]. rewrite !result_map_mapM. apply mapM_ext. intros k _.
    destruct (py_index seds k); [|reflexivity].
    destruct (py_index morphs k); reflexivity.
Qed.

End SourceFacts.

(** *** Runs on the scene *)

Lemma ExtendedSource_monotonic_constraint_witness :
  exists src,
    ExtendedSource Scene.interpolate Scene.symmetry Scene.monotonic
      Scene.frame Scene.sky (one_observation Scene.obs) None None
      0.5%float (mono_bool true) false false Scene.min_grad = Ok src /\
    constraint (fc_morph src) =
      Some (ConstraintChain
              [MonotonicityConstraint (Num := float64) "angle" Scene.min_grad;
               PositivityConstraint; NormalizationConstraint "max"]).
Proof.
  destruct (ExtendedSource Scene.interpolate Scene.symmetry Scene.monotonic
              Scene.frame Scene.sky (one_observation Scene.obs) None None
              0.5%float (mono_bool true) false false Scene.min_grad)
    as [src|e] eqn:E.
  - exists src. split; [reflexivity|].
    exact (ExtendedSource_monotonic_constraint _ _ _ _ _ _ _ _ _ _ _ _ _ _ E).
  - vm_compute in E. discriminate E.
Defined.



(* ------------------------------------------------------------------------- *)
(** ** The SED estimator *)

Lemma mapM_Forall2 {A B : Type} (f : A -> result B) (l : list A) (l' : list B) :
  mapM f l = Ok l' <-> Forall2 (fun a b => f a = Ok b) l l'.
Proof.
  revert l'. induction l as [|a l IH]; simpl; intros l'.
  - split.
    + intros [= <-]. constructor.
    + intros H. inversion H. reflexivity.
  - split.
    + intros H. apply bind_Ok in H as [b [Hb H]].
      apply bind_Ok in H as [bs [Hbs H]]. injection H as <-.
      constructor; [assumption|]. now apply IH.
    + intros H. inversion H as [|? b ? bs Hb Hbs]; subst.
      rewrite Hb. simpl. apply IH in Hbs. rewrite Hbs. reflexivity.
Qed.

Section SEDFacts.
Context {Num : Scalar}.


End SEDFacts.


(** the same scenario in binary64, on two channels *)
Example get_psf_sed_binary64 :
  get_pixel_sed Scene.sky Scene.obs_psf1 = Ok [4; 3]%float /\
  get_psf_sed Scene.sky Scene.obs_psf1 Scene.frame_psf2 = Ok [8; 6]%float.
Proof. split; vm_compute; reflexivity. Qed.

(* ------------------------------------------------------------------------- *)
(** ** The coadd builder *)

Lemma mapM_total {A B : Type} (f : A -> result B) (l : list A) :
  (forall a, In a l -> exists b, f a = Ok b) -> exists l', mapM f l = Ok l'.
Proof.
  induction l as [|a l IH]; simpl; intros H; [eauto|].
  destruct (H a) as [b Hb]; [auto|]. rewrite Hb.
  destruct IH as [bs Hbs]; [auto|]. rewrite Hbs. simpl. eauto.
Qed.

Lemma foldM_total {A B : Type} (f : B -> A -> result B) (l : list A) :
  (forall x b, In x l -> exists b', f b x = Ok b') ->
  forall b, exists b', foldM f l b = Ok b'.
Proof.
  induction l as [|x l IH]; simpl; intros H b; [eauto|].
  destruct (H x b) as [b' Hb]; [auto|]. rewrite Hb. cbn [bind].
  apply IH. auto.
Qed.

Lemma mapM_Raise {A B : Type} (f : A -> result B) (l : list A) (e : exn) :
  mapM f l = Raise e -> exists x, In x l /\ f x = Raise e.
Proof.
  induction l as [|a l IH]; simpl; [discriminate|].
  destruct (f a) as [b|e'] eqn:Ha; cbn [bind].
  - destruct (mapM f l) as [bs|e'']; cbn [bind]; [discriminate|].
    intros [= <-]. destruct IH as [x [Hx Hf]]; eauto.
  - intros [= <-]. eauto.
Qed.

Lemma foldM_Raise {A B : Type} (f : B -> A -> result B) (l : list A) (b : B)
    (e : exn) :
  foldM f l b = Raise e -> exists x b', In x l /\ f b' x = Raise e.
Proof.
  revert b. induction l as [|a l IH]; simpl; intros b; [discriminate|].
  destruct (f b a) as [b'|e'] eqn:Ha; cbn [bind].
  - intros H. destruct (IH _ H) as (x & b'' & Hx & Hf). eauto.
  - intros [= <-]. eauto.
Qed.

Lemma foldM_not_ok {A B : Type} (f : B -> A -> result B) (l : list A) (a : A) :
  In a l -> (forall b, is_ok (f b a) = false) ->
  forall b, is_ok (foldM f l b) = false.
Proof.
  induction l as [|x l IH]; simpl; intros Hin Ha b; [destruct Hin|].
  destruct Hin as [->|Hin].
  - specialize (Ha b). destruct (f b a); [discriminate|reflexivity].
  - destruct (f b x); [|reflexivity]. simpl. now apply IH.
Qed.

Lemma foldM_raises {A B : Type} (f : B -> A -> result B) (l : list A) (a : A)
    (e : exn) :
  In a l -> (forall b, f b a = Raise e) ->
  (forall x b, In x l -> f b x = Raise e \/ exists b', f b x = Ok b') ->
  forall b, foldM f l b = Raise e.
Proof.
  induction l as [|x l IH]; simpl; intros Hin Ha Hall b; [destruct Hin|].
  destruct Hin as [->|Hin].
  - now rewrite Ha.
  - destruct (Hall x b) as [Hx|[b' Hx]]; [auto| |]; rewrite Hx; [reflexivity|].
    simpl. apply IH; auto.
Qed.

Lemma py_index_nth {A : Type} (l : list A) (j : Z) (a : A) :
  0 <= j -> nth_error l (Z.to_nat j) = Some a -> py_index l j = Ok a.
Proof.
  intros Hj Hn. unfold py_index, len.
  assert (Hlt : (Z.to_nat j < List.length l)%nat)
    by (apply nth_error_Some; congruence).
  destruct (Z.ltb_spec j 0); [lia|].
  destruct (Z.ltb_spec j 0); [lia|].
  destruct (Z.leb_spec (Z.of_nat (List.length l)) j); [lia|].
  simpl. now rewrite Hn.
Qed.

Lemma py_index_in_range {A : Type} (l : list A) (j : Z) :
  0 <= j < len l -> exists a, py_index l j = Ok a /\ nth_error l (Z.to_nat j) = Some a.
Proof.
  intros Hj. unfold len in Hj.
  destruct (nth_error l (Z.to_nat j)) as [a|] eqn:Hn.
  - exists a. split; [apply py_index_nth; [lia|assumption]|reflexivity].
  - apply nth_error_None in Hn. lia.
Qed.

Lemma py_index_nonneg_Ok {A : Type} (l : list A) (j : Z) (a : A) :
  0 <= j -> py_index l j = Ok a -> nth_error l (Z.to_nat j) = Some a.
Proof.
  intros Hj. unfold py_index.
  destruct (Z.ltb_spec j 0); [lia|].
  destruct (_ || _); [discriminate|].
  destruct (nth_error l (Z.to_nat j)); [congruence|discriminate].
Qed.

Lemma In_combine_seq {A : Type} (f : nat -> Z) (l : list A) (s : nat) (j : Z) (a : A) :
  In (j, a) (combine (map f (seq s (List.length l))) l) <->
  exists k, j = f (s + k)%nat /\ nth_error l k = Some a.
Proof.
  revert s. induction l as [|x l IH]; intros s; simpl.
  - split; [intros []|]. intros [[|k] [_ H]]; discriminate.
  - split.
    + intros [[= <- <-]|H].
      * exists O. now rewrite Nat.add_0_r.
      * apply IH in H as [k [-> Hk]]. exists (S k).
        now rewrite Nat.add_succ_r.
    + intros [[|k] [-> Hk]].
      * left. rewrite Nat.add_0_r. simpl in Hk. congruence.
      * right. apply IH. exists k. now rewrite Nat.add_succ_r.
Qed.

Lemma In_enumerate {A : Type} (l : list A) (j : Z) (a : A) :
  In (j, a) (enumerate l) <-> 0 <= j /\ nth_error l (Z.to_nat j) = Some a.
Proof.
  unfold enumerate, zrange, len.
  rewrite Z.sub_0_r, Nat2Z.id, In_combine_seq. split.
  - intros [k [-> Hk]]. simpl. rewrite Nat2Z.id. split; [lia|assumption].
  - intros [Hj Hn]. exists (Z.to_nat j). split; [simpl; lia|assumption].
Qed.

Lemma Forall2_nth_error {A B : Type} (P : A -> B -> Prop) (l1 : list A) (l2 : list B) :
  Forall2 P l1 l2 -> forall k b, nth_error l2 k = Some b ->
  exists a, nth_error l1 k = Some a /\ P a b.
Proof.
  induction 1 as [|a b l1 l2 Hab H IH]; intros k y Hk.
  - destruct k; discriminate.
  - destruct k as [|k]; simpl in *.
    + injection Hk as <-. eauto.
    + eauto.
Qed.

Section CoaddFacts.
Context {Num : Scalar}.
Variable interpolate_observation : Observation -> Frame -> Cube.

Lemma positive_channels_range (sed : list num) (c : Z) :
  In c (positive_channels sed) -> 0 <= c < len sed.
Proof.
  unfold positive_channels. intros H.
  apply in_map_iff in H as [[c' v] [<- H]].
  apply filter_In in H as [H _]. apply In_enumerate in H as [Hc Hn].
  simpl. unfold len. split; [assumption|].
  assert ((Z.to_nat c' < List.length sed)%nat)
    by (apply nth_error_Some; congruence). lia.
Qed.

(** an iteration whose RMS vector has a non-positive entry *)
Lemma coadd_step_bad_rms (obs_ref : Observation) (seds bg_rmses : list (list num))
    (acc : coadd_acc) (i : Z) (obs : Observation) (bg_rms : list num) (r : num) :
  py_index bg_rmses i = Ok bg_rms -> In r bg_rms -> leb r zero = true ->
  match py_index seds i with
  | Ok _ => coadd_step interpolate_observation obs_ref seds bg_rmses acc (i, obs)
            = Raise ValueError
  | Raise e => coadd_step interpolate_observation obs_ref seds bg_rmses acc (i, obs)
               = Raise e
  end.
Proof.
  intros Hrms Hin Hr. unfold coadd_step. cbn [fst snd].
  destruct (py_index seds i) as [sed|e]; [|reflexivity].
  cbn [bind]. rewrite Hrms. cbn [bind].
  replace (existsb _ bg_rms) with true; [reflexivity|].
  symmetry. apply existsb_exists. eauto.
Qed.

(** an iteration on aligned inputs whose RMS vector passes the check *)
Lemma coadd_step_returns (obs_ref : Observation) (seds bg_rmses : list (list num))
    (acc : coadd_acc) (i : Z) (obs : Observation) (sed bg_rms : list num) :
  py_index seds i = Ok sed -> py_index bg_rmses i = Ok bg_rms ->
  List.length sed = List.length bg_rms ->
  List.length sed =
    List.length (if is_Observation obs then images obs
                 else interpolate_observation obs (obs_frame obs_ref)) ->
  existsb (fun r => leb r zero) bg_rms = false ->
  exists acc',
    coadd_step interpolate_observation obs_ref seds bg_rmses acc (i, obs) = Ok acc'.
Proof.
  intros Hsed Hrms Hlen Himg Hex. unfold coadd_step. cbn [fst snd].
  rewrite Hsed. cbn [bind]. rewrite Hrms. cbn [bind]. rewrite Hex.
  assert (Hs : forall c, In c (positive_channels sed) ->
                         exists s, py_index sed c = Ok s).
  { intros c Hc. apply positive_channels_range in Hc.
    destruct (py_index_in_range sed c Hc) as [s [Hs _]]. eauto. }
  assert (Hr : forall c, In c (positive_channels sed) ->
                         exists r, py_index bg_rms c = Ok r).
  { intros c Hc. apply positive_channels_range in Hc.
    destruct (py_index_in_range bg_rms c) as [r [Hr _]]; [|eauto].
    unfold len in *. lia. }
  assert (Hi : exists imgs,
    (if is_Observation obs
     then mapM (fun c => py_index (images obs) c) (positive_channels sed)
     else mapM (fun c => py_index
                 (interpolate_observation obs (obs_frame obs_ref)) c)
               (positive_channels sed)) = Ok imgs).
  { destruct (is_Observation obs); apply mapM_total; intros c Hc;
      apply positive_channels_range in Hc;
      match goal with
      | |- exists _, py_index ?l _ = _ =>
          destruct (py_index_in_range l c) as [im [Him _]];
          [unfold len in *; lia|eauto]
      end. }
  destruct Hi as [imgs ->]. cbn [bind].
  destruct (mapM_total (fun c => py_index bg_rms c) (positive_channels sed) Hr)
    as [rmss ->]. cbn [bind].
  destruct (mapM_total
              (fun c => s <- py_index sed c ;; r <- py_index bg_rms c ;;
                        Ok (div s (mul r r))) (positive_channels sed))
    as [ws ->].
  { intros c Hc. destruct (Hs c Hc) as [s ->], (Hr c Hc) as [r ->].
    simpl. eauto. }
  cbn [bind].
  destruct (mapM_total
              (fun c => s <- py_index sed c ;; r <- py_index bg_rms c ;;
                        Ok (div (mul s s) (mul r r))) (positive_channels sed))
    as [jac ->].
  { intros c Hc. destruct (Hs c Hc) as [s ->], (Hr c Hc) as [r ->].
    simpl. eauto. }
  cbn [bind]. eauto.
Qed.

(** on aligned inputs the entries of the three lists at an index of the
    enumeration exist and fit together *)
Lemma aligned_at (obs_ref : Observation) (seds bg_rmses : list (list num))
    (observations : list Observation) (j : Z) (o : Observation) :
  Forall2 (fun sed obs =>
             List.length sed =
             List.length (if is_Observation obs then images obs
                          else interpolate_observation obs (obs_frame obs_ref)))
          seds observations ->
  Forall2 (fun sed bg_rms => List.length sed = List.length bg_rms)
          seds bg_rmses ->
  In (j, o) (enumerate observations) ->
  exists sed bg_rms,
    py_index seds j = Ok sed /\ py_index bg_rmses j = Ok bg_rms /\
    In bg_rms bg_rmses /\
    List.length sed = List.length bg_rms /\
    List.length sed =
      List.length (if is_Observation o then images o
                   else interpolate_observation o (obs_frame obs_ref)).
Proof.
  intros Himgs Hlens Hjo. apply In_enumerate in Hjo as [Hj Ho].
  destruct (Forall2_nth_error _ _ _ Himgs _ _ Ho) as [sed [Hsed Himg]].
  assert (Hrm : exists rms, nth_error bg_rmses (Z.to_nat j) = Some rms /\
                            List.length sed = List.length rms).
  { clear - Hlens Hsed. revert Hsed. generalize (Z.to_nat j) as k.
    induction Hlens as [|a b l1 l2 Hab H IH]; intros k Hk.
    - destruct k; discriminate.
    - destruct k as [|k]; simpl in *.
      + injection Hk as <-. eauto.
      + eauto. }
  destruct Hrm as [rms [Hrm Hlen]].
  exists sed, rms. repeat split; auto using py_index_nth.
  eapply nth_error_In; eauto.
Qed.
(** an iteration on aligned inputs either rejects the RMS vector or
    succeeds *)
Lemma coadd_step_aligned (obs_ref : Observation) (seds bg_rmses : list (list num))
    (acc : coadd_acc) (i : Z) (obs : Observation) (sed bg_rms : list num) :
  py_index seds i = Ok sed -> py_index bg_rmses i = Ok bg_rms ->
  List.length sed = List.length bg_rms ->
  List.length sed =
    List.length (if is_Observation obs then images obs
                 else interpolate_observation obs (obs_frame obs_ref)) ->
  coadd_step interpolate_observation obs_ref seds bg_rmses acc (i, obs)
    = Raise ValueError \/
  exists acc',
    coadd_step interpolate_observation obs_ref seds bg_rmses acc (i, obs) = Ok acc'.
Proof.
  intros Hsed Hrms Hlen Himg.
  destruct (existsb (fun r => leb r zero) bg_rms) eqn:Hex.
  - left. unfold coadd_step. cbn [fst snd]. rewrite Hsed. cbn [bind].
    rewrite Hrms. cbn [bind]. now rewrite Hex.
  - right. eapply coadd_step_returns; eauto.
Qed.

(** an iteration raises nothing but the [ValueError] of the RMS check and
    the [IndexError] of a failed lookup *)
Lemma coadd_step_exn (obs_ref : Observation) (seds bg_rmses : list (list num))
    (acc : coadd_acc) (iobs : Z * Observation) (e : exn) :
  coadd_step interpolate_observation obs_ref seds bg_rmses acc iobs = Raise e ->
  e = ValueError \/ e = IndexError.
Proof.
  unfold coadd_step.
  destruct (py_index seds (fst iobs)) as [sed|e1] eqn:E1; cbn [bind].
  2:{ intros [= <-]. right. eapply py_index_raises; eauto. }
  destruct (py_index bg_rmses (fst iobs)) as [bg_rms|e2] eqn:E2; cbn [bind].
  2:{ intros [= <-]. right. eapply py_index_raises; eauto. }
  destruct (existsb _ bg_rms); [intros [= <-]; now left|].
  assert (Hidx : forall (A : Type) (l : list A) cs e',
            mapM (fun c => py_index l c) cs = Raise e' -> e' = IndexError).
  { intros A l cs e' H. apply mapM_Raise in H as [x [_ H]].
    eapply py_index_raises; eauto. }
  assert (Hpair : forall (g : num -> num -> num) cs e',
            mapM (fun c => s <- py_index sed c ;; r <- py_index bg_rms c ;;
                           Ok (g s r)) cs = Raise e' -> e' = IndexError).
  { intros g cs e' H. apply mapM_Raise in H as [x [_ H]].
    destruct (py_index sed x) eqn:Es; cbn [bind] in H.
    - destruct (py_index bg_rms x) eqn:Er; cbn [bind] in H; [discriminate|].
      injection H as <-. eapply py_index_raises; eauto.
    - injection H as <-. eapply py_index_raises; eauto. }
  match goal with
  | |- (imgs <- ?m ;; _) = _ -> _ =>
      destruct m as [imgs|e3] eqn:E3; cbn [bind]
  end.
  2:{ intros [= <-]. right. destruct (is_Observation (snd iobs));
        eapply Hidx; eauto. }
  match goal with
  | |- (rmss <- ?m ;; _) = _ -> _ =>
      destruct m as [rmss|e4] eqn:E4; cbn [bind]
  end.
  2:{ intros [= <-]. right. eapply Hidx; eauto. }
  match goal with
  | |- (ws <- ?m ;; _) = _ -> _ =>
      destruct m as [ws|e5] eqn:E5; cbn [bind]
  end.
  2:{ intros [= <-]. right.
      eapply (Hpair (fun s r => div s (mul r r))); eauto. }
  match goal with
  | |- (jac <- ?m ;; _) = _ -> _ =>
      destruct m as [jac|e6] eqn:E6; cbn [bind]
  end.
  2:{ intros [= <-]. right.
      eapply (Hpair (fun s r => div (mul s s) (mul r r))); eauto. }
  discriminate.
Qed.
(** C4.  When the background RMS vector of some observation has an entry
    that is zero or negative, [build_sed_coadd] raises and never returns a
    coadd.  On inputs that fit together (one SED and one RMS vector per
    observation, one entry per channel, a reference observation present) the
    exception is the [ValueError] of the RMS check; on other inputs a lookup
    can fail with [IndexError] before the check is reached. *)
Theorem build_sed_coadd_rejects_nonpositive_rms
    (seds bg_rmses : list (list num)) (observations : list Observation)
    (i : Z) (bg_rms : list num) (r : num) :
  0 <= i < len observations ->
  py_index bg_rmses i = Ok bg_rms -> In r bg_rms -> leb r zero = true ->
  (exists e, build_sed_coadd interpolate_observation seds bg_rmses observations
             = Raise e /\ (e = ValueError \/ e = IndexError)) /\
  (coadd_inputs_aligned interpolate_observation seds bg_rmses observations ->
   build_sed_coadd interpolate_observation seds bg_rmses observations
   = Raise ValueError).
Proof.
  intros Hi Hrms Hin Hr.
  destruct (py_index_in_range observations i Hi) as [obs [_ Hobs]].
  assert (Hel : In (i, obs) (enumerate observations))
    by (apply In_enumerate; split; [lia|assumption]).
  split.
  - unfold build_sed_coadd.
    destruct (reference_observation observations) as [obs_ref|e] eqn:Href;
      cbn [bind].
    + assert (Hfold : forall b,
        is_ok (foldM (coadd_step interpolate_observation obs_ref seds bg_rmses)
                 (enumerate observations) b) = false).
      { apply (foldM_not_ok _ _ (i, obs) Hel). intros acc0.
        pose proof (coadd_step_bad_rms obs_ref seds bg_rmses acc0 i obs bg_rms r
                      Hrms Hin Hr) as Hs.
        destruct (py_index seds i); rewrite Hs; reflexivity. }
      match goal with
      | |- context [foldM ?f ?l ?b] =>
          specialize (Hfold b); destruct (foldM f l b) as [acc|e] eqn:Ef;
          [discriminate Hfold|cbn [bind]]
      end.
      exists e. split; [reflexivity|].
      apply foldM_Raise in Ef as (x & b' & _ & Hx).
      eapply coadd_step_exn; eauto.
    + exists e. split; [reflexivity|]. right.
      unfold reference_observation in Href.
      destruct (find is_Observation observations); congruence.
  - intros [[obs_ref [Href Himgs]] Hlens].
    unfold build_sed_coadd. rewrite Href. cbn [bind].
    rewrite (foldM_raises _ _ (i, obs) ValueError Hel); [reflexivity| |].
    + intros acc0.
      destruct (Forall2_nth_error _ _ _ Himgs _ _ Hobs) as [sed [Hsed _]].
      pose proof (coadd_step_bad_rms obs_ref seds bg_rmses acc0 i obs bg_rms r
                    Hrms Hin Hr) as Hs.
      rewrite (py_index_nth seds i sed) in Hs by (lia || assumption).
      exact Hs.
    + intros [j o] acc0 Hjo.
      destruct (aligned_at obs_ref seds bg_rmses observations j o Himgs Hlens Hjo)
        as (sed & rms & Hsed & Hrm & _ & Hlen & Himg).
      eapply coadd_step_aligned; eauto.
Qed.
End CoaddFacts.

Lemma build_sed_coadd_rejects_nonpositive_rms_witness :
  build_sed_coadd (Num := float64) Scene.interpolate [[4%float]] [[0%float]]
    [Scene.obs] = Raise ValueError.
Proof.
  apply (proj2 (build_sed_coadd_rejects_nonpositive_rms (Num := float64)
                  Scene.interpolate [[4%float]] [[0%float]] [Scene.obs]
                  0 [0%float] 0%float
                  ltac:(vm_compute; split; congruence)
                  ltac:(reflexivity)
                  ltac:(left; reflexivity)
                  ltac:(reflexivity))).
  split.
  - exists Scene.obs. split; [reflexivity|].
    constructor; [reflexivity|constructor].
  - constructor; [reflexivity|constructor].
Defined.

(** the coadd of the scene: the image divided by 4, with cutoff 0.25 *)
Example build_sed_coadd_scene :
  build_sed_coadd (Num := float64) Scene.interpolate [[4%float]] [[1%float]]
    [Scene.obs]
  = Ok ([[0.125; 0.25; 0.125]; [0.25; 1; 0.25]; [0.125; 0.25; 0.125]]%float,
        0.25%float).
Proof. vm_compute. reflexivity. Qed.

Example build_sed_coadd_negative_rms :
  build_sed_coadd (Num := float64) Scene.interpolate [[4%float]] [[(-1)%float]]
    [Scene.obs] = Raise ValueError.
Proof. vm_compute. reflexivity. Qed.

(** no observation of type [Observation]: the lookup of the reference
    observation fails before the RMS vectors are looked at *)
Example build_sed_coadd_no_reference :
  build_sed_coadd (Num := float64) Scene.interpolate [[4%float]] [[0%float]]
    [@Build_Observation float64 false Scene.frame [Scene.image] None []]
  = Raise IndexError.
Proof. vm_compute. reflexivity. Qed.

(** a zero RMS entry, and yet no [ValueError]: without an observation of
    type [Observation] the lookup of the reference observation fails
    first, and without an SED for the observation the lookup [seds[i]]
    does; both raise [IndexError] before the RMS vectors are looked at *)
Lemma build_sed_coadd_nonpositive_rms_index_error :
  @leb float64 0%float (@zero float64) = true /\
  build_sed_coadd (Num := float64) Scene.interpolate [[4%float]] [[0%float]]
    [@Build_Observation float64 false Scene.frame [Scene.image] None []]
  = Raise IndexError /\
  build_sed_coadd (Num := float64) Scene.interpolate [] [[0%float]]
    [Scene.obs]
  = Raise IndexError.
Proof. vm_compute. repeat split. Qed.

(** *** Indices *)

Lemma mapM_seq {B : Type} (g : Z -> result B) (h : nat -> B) (n s : nat) :
  (forall k, (s <= k < s + n)%nat -> g (Z.of_nat k) = Ok (h k)) ->
  mapM g (map Z.of_nat (seq s n)) = Ok (map h (seq s n)).
Proof.
  revert s. induction n as [|n IH]; intros s H; simpl; [reflexivity|].
  rewrite H by lia. cbn [bind]. rewrite IH; [reflexivity|].
  intros k Hk. apply H. lia.
Qed.

Lemma zrange_0 (n : Z) : zrange 0 n = map Z.of_nat (seq 0 (Z.to_nat n)).
Proof. unfold zrange. rewrite Z.sub_0_r. apply map_ext. intros k. lia. Qed.

Lemma map_nth_seq {A B : Type} (f : A -> B) (d : A) (l : list A) :
  map (fun k => f (nth k l d)) (seq 0 (List.length l)) = map f l.
Proof.
  induction l as [|a l IH]; simpl; [reflexivity|].
  f_equal. rewrite <- seq_shift, map_map. exact IH.
Qed.

Lemma map_nth_seq_combine {A B C : Type} (f : A -> B -> C) (da : A) (db : B)
    (la : list A) (lb : list B) :
  List.length la = List.length lb ->
  map (fun k => f (nth k la da) (nth k lb db)) (seq 0 (List.length la))
  = map (fun ab => f (fst ab) (snd ab)) (combine la lb).
Proof.
  revert lb. induction la as [|a la IH]; intros [|b lb] Hlen; try discriminate;
    simpl; [reflexivity|].
  f_equal. rewrite <- seq_shift, map_map. apply IH. now injection Hlen.
Qed.

Lemma py_index_nth_default {A : Type} (l : list A) (k : nat) (d : A) :
  (k < List.length l)%nat -> py_index l (Z.of_nat k) = Ok (nth k l d).
Proof.
  intros Hk. apply py_index_nth; [lia|]. rewrite Nat2Z.id.
  now apply nth_error_nth'.
Qed.

Lemma combine_app_same {A B : Type} (a a' : list A) (b b' : list B) :
  List.length a = List.length b ->
  combine (a ++ a') (b ++ b') = combine a b ++ combine a' b'.
Proof.
  revert b. induction a as [|x a IH]; intros [|y b] H; try discriminate;
    simpl; [reflexivity|]. f_equal. apply IH. now injection H.
Qed.

Lemma py_index_app_length {A : Type} (l1 l2 : list A) (a : A) :
  py_index (l1 ++ a :: l2) (Z.of_nat (List.length l1)) = Ok a.
Proof.
  apply py_index_nth; [lia|]. rewrite Nat2Z.id.
  rewrite nth_error_app2 by lia. now rewrite Nat.sub_diag.
Qed.

(** *** Sums of reals *)

Lemma fold_left_Rplus (l : list R) (a : R) :
  fold_left Rplus l a = (a + fold_right Rplus 0 l)%R.
Proof.
  revert a. induction l as [|x l IH]; intros a; simpl; [lra|].
  rewrite IH. lra.
Qed.

Lemma fsum_real (l : list R) : fsum (Num := real) l = fold_right Rplus 0%R l.
Proof.
  unfold fsum. cbn [add zero real]. rewrite fold_left_Rplus. lra.
Qed.

Lemma sum_positive (l : list R) :
  l <> [] -> Forall (fun x => 0 < x)%R l -> (0 < fold_right Rplus 0 l)%R.
Proof.
  intros Hne Hpos. destruct l as [|x l]; [congruence|]. clear Hne.
  inversion Hpos as [|? ? Hx Hl]; subst. simpl.
  assert (0 <= fold_right Rplus 0 l)%R; [|lra].
  clear - Hl. induction Hl as [|y l Hy Hl IH]; simpl; lra.
Qed.

Lemma filter_all {A : Type} (p : A -> bool) (l : list A) :
  (forall a, In a l -> p a = true) -> filter p l = l.
Proof.
  induction l as [|a l IH]; simpl; intros H; [reflexivity|].
  rewrite H by auto. f_equal. auto.
Qed.

Lemma map_fst_combine_le {A B : Type} (a : list A) (b : list B) :
  List.length a = List.length b -> map fst (combine a b) = a.
Proof.
  revert b. induction a as [|x a IH]; intros [|y b] H; try discriminate;
    simpl; [reflexivity|]. f_equal. apply IH. now injection H.
Qed.

Lemma Rgtb_true (x y : R) : (y < x)%R -> Rgtb x y = true.
Proof. intros H. unfold Rgtb. destruct (Rlt_dec y x); [reflexivity|lra]. Qed.

Lemma Rgtb_false (x y : R) : (x <= y)%R -> Rgtb x y = false.
Proof. intros H. unfold Rgtb. destruct (Rlt_dec y x); [lra|reflexivity]. Qed.

Lemma Rleb_true (x y : R) : (x <= y)%R -> Rleb x y = true.
Proof. intros H. unfold Rleb. destruct (Rle_dec x y); [reflexivity|lra]. Qed.

Lemma Rleb_false (x y : R) : (y < x)%R -> Rleb x y = false.
Proof. intros H. unfold Rleb. destruct (Rle_dec x y); [lra|reflexivity]. Qed.

Section CutoffFacts.
Variable interpolate_observation : @Observation real -> @Frame real -> @Cube real.

Lemma positive_channels_all (sed : list R) :
  Forall (fun s => 0 < s)%R sed ->
  positive_channels (Num := real) sed = zrange 0 (len sed).
Proof.
  intros Hpos. unfold positive_channels. rewrite filter_all.
  - unfold enumerate. apply map_fst_combine_le.
    unfold zrange, len. rewrite length_map, length_seq.
    change (@num real) with R. lia.
  - intros [c v] Hin. cbn [snd gtb zero real].
    apply Rgtb_true. rewrite Forall_forall in Hpos. apply Hpos.
    unfold enumerate in Hin. eapply in_combine_r; eauto.
Qed.

Lemma coadd_step_positive (obs_ref : @Observation real)
    (seds bg_rmses : list (list R)) (acc acc' : @coadd_acc real) (i : Z)
    (obs : @Observation real) (sed bg_rms : list R) :
  py_index seds i = Ok sed -> py_index bg_rmses i = Ok bg_rms ->
  List.length sed = List.length bg_rms ->
  Forall (fun s => 0 < s)%R sed -> Forall (fun r => 0 < r)%R bg_rms ->
  coadd_step interpolate_observation obs_ref seds bg_rmses acc (i, obs)
    = Ok acc' ->
  positive_bgrms acc' = positive_bgrms acc ++ bg_rms /\
  coadd_weights acc' =
    coadd_weights acc ++
    map (fun sr => fst sr / (snd sr * snd sr))%R (combine sed bg_rms) /\
  jacobian_args acc' =
    jacobian_args acc ++
    map (fun sr => fst sr * fst sr / (snd sr * snd sr))%R (combine sed bg_rms).
Proof.
  intros Hsed Hrms Hlen Hps Hpr. unfold coadd_step. cbn [fst snd].
  change (@num real) with R in *.
  rewrite Hsed. cbn [bind]. rewrite Hrms. cbn [bind].
  replace (existsb _ bg_rms) with false.
  2:{ symmetry. apply not_true_is_false. intros H.
      apply existsb_exists in H as [r [Hin Hr]].
      rewrite Forall_forall in Hpr. specialize (Hpr r Hin).
      cbn [leb zero real] in Hr. rewrite Rleb_false in Hr by assumption.
      discriminate. }
  rewrite positive_channels_all by assumption.
  rewrite zrange_0. unfold len. rewrite Nat2Z.id.
  intros H. apply bind_Ok in H as [imgs [_ H]].
  rewrite (mapM_seq (fun c => py_index bg_rms c) (fun k => nth k bg_rms 0%R)) in H.
  2:{ intros k Hk. apply py_index_nth_default. lia. }
  cbn [bind] in H.
  rewrite (mapM_seq _ (fun k => (nth k sed 0 / (nth k bg_rms 0 * nth k bg_rms 0))%R)) in H.
  2:{ intros k Hk. rewrite (py_index_nth_default sed k 0%R) by lia.
      rewrite (py_index_nth_default bg_rms k 0%R) by lia. reflexivity. }
  cbn [bind] in H.
  rewrite (mapM_seq _ (fun k => (nth k sed 0 * nth k sed 0
                                 / (nth k bg_rms 0 * nth k bg_rms 0))%R)) in H.
  2:{ intros k Hk. rewrite (py_index_nth_default sed k 0%R) by lia.
      rewrite (py_index_nth_default bg_rms k 0%R) by lia. reflexivity. }
  cbn [bind] in H. injection H as <-.
  cbn [positive_bgrms coadd_weights jacobian_args].
  rewrite Hlen at 1.
  rewrite (map_nth_seq (fun x => x) 0%R bg_rms), map_id.
  rewrite (map_nth_seq_combine (fun s r => s / (r * r))%R 0%R 0%R sed bg_rms Hlen).
  rewrite (map_nth_seq_combine (fun s r => s * s / (r * r))%R 0%R 0%R sed bg_rms Hlen).
  auto.
Qed.

Lemma coadd_fold_positive (obs_ref : @Observation real)
    (observations : list (@Observation real)) :
  forall (seds2 rms2 seds1 rms1 : list (list R)) (acc acc' : @coadd_acc real),
  List.length seds1 = List.length rms1 ->
  List.length seds2 = List.length observations ->
  Forall2 (fun sed bg_rms => List.length sed = List.length bg_rms) seds2 rms2 ->
  Forall (Forall (fun s => 0 < s)%R) seds2 ->
  Forall (Forall (fun r => 0 < r)%R) rms2 ->
  foldM (coadd_step interpolate_observation obs_ref (seds1 ++ seds2)
           (rms1 ++ rms2))
        (combine (map Z.of_nat (seq (List.length seds1) (List.length observations)))
                 observations) acc = Ok acc' ->
  positive_bgrms acc' = positive_bgrms acc ++ List.concat rms2 /\
  coadd_weights acc' =
    coadd_weights acc ++
    map (fun sr => fst sr / (snd sr * snd sr))%R
        (combine (List.concat seds2) (List.concat rms2)) /\
  jacobian_args acc' =
    jacobian_args acc ++
    map (fun sr => fst sr * fst sr / (snd sr * snd sr))%R
        (combine (List.concat seds2) (List.concat rms2)).
Proof.
  induction observations as [|obs observations IH];
    intros seds2 rms2 seds1 rms1 acc acc' Hl1 Hl2 Hal Hps Hpr H.
  - destruct seds2; [|discriminate]. inversion Hal; subst.
    simpl in H. injection H as <-. simpl. rewrite !app_nil_r. auto.
  - destruct seds2 as [|sed seds2]; [discriminate|].
    inversion Hal as [|? bg_rms ? rms2' Hlen Hal']; subst.
    inversion Hps as [|? ? Hps1 Hps2]; subst.
    inversion Hpr as [|? ? Hpr1 Hpr2]; subst.
    cbn [List.length seq map combine foldM] in H.
    apply bind_Ok in H as [acc1 [Hstep H]].
    apply (coadd_step_positive obs_ref _ _ acc acc1 _ obs sed bg_rms) in Hstep;
      try assumption.
    2:{ apply py_index_app_length. }
    2:{ rewrite Hl1. apply py_index_app_length. }
    destruct Hstep as (Hb & Hw & Hj).
    replace (seds1 ++ sed :: seds2) with ((seds1 ++ [sed]) ++ seds2) in H
      by (rewrite <- app_assoc; reflexivity).
    replace (rms1 ++ bg_rms :: rms2') with ((rms1 ++ [bg_rms]) ++ rms2') in H
      by (rewrite <- app_assoc; reflexivity).
    replace (S (List.length seds1)) with (List.length (seds1 ++ [sed])) in H
      by (rewrite length_app; simpl; lia).
    apply IH in H; try assumption.
    2:{ rewrite !length_app. simpl. lia. }
    2:{ simpl in Hl2. lia. }
    destruct H as (Hb' & Hw' & Hj').
    cbn [List.concat]. rewrite combine_app_same by assumption.
    rewrite map_app. rewrite Hb', Hw', Hj', Hb, Hw, Hj.
    rewrite !map_app, <- !app_assoc. auto.
Qed.

Lemma Forall2_length_concat (a b : list (list R)) :
  Forall2 (fun x y => List.length x = List.length y) a b ->
  List.length (List.concat a) = List.length (List.concat b).
Proof.
  induction 1 as [|x y a b Hxy H IH]; simpl; [reflexivity|].
  rewrite !length_app. lia.
Qed.

Lemma Forall_concat (P : R -> Prop) (l : list (list R)) :
  Forall (Forall P) l -> Forall P (List.concat l).
Proof.
  induction 1 as [|x l Hx H IH]; simpl; [constructor|].
  apply Forall_app. auto.
Qed.

Lemma Forall_map_combine (f : R * R -> R) (a b : list R) :
  Forall (fun x => 0 < x)%R a -> Forall (fun x => 0 < x)%R b ->
  (forall x y, 0 < x -> 0 < y -> 0 < f (x, y))%R ->
  Forall (fun x => 0 < x)%R (map f (combine a b)).
Proof.
  intros Ha Hb Hf. rewrite Forall_forall in *. intros z Hz.
  apply in_map_iff in Hz as [[x y] [<- Hxy]].
  apply Hf; [apply Ha; eapply in_combine_l|apply Hb; eapply in_combine_r]; eauto.
Qed.

(** the value of the cutoff when the call returns *)
Lemma build_sed_coadd_cutoff_value
    (seds bg_rmses : list (list R)) (observations : list (@Observation real))
    (detect : @Image real) (bg_cutoff : R) :
  coadd_inputs_aligned interpolate_observation seds bg_rmses observations ->
  Forall (Forall (fun s => 0 < s)%R) seds ->
  Forall (Forall (fun r => 0 < r)%R) bg_rmses ->
  List.concat seds <> [] ->
  build_sed_coadd interpolate_observation seds bg_rmses observations
    = Ok (detect, bg_cutoff) ->
  bg_cutoff = spec_bg_cutoff (List.concat seds) (List.concat bg_rmses) /\
  (0 < bg_cutoff)%R.
Proof.
  intros [[obs_ref0 [_ Himgs]] Hlens] Hps Hpr Hne H.
  unfold build_sed_coadd in H.
  apply bind_Ok in H as [obs_ref [_ H]].
  apply bind_Ok in H as [acc [Hfold H]].
  apply bind_Ok in H as [weighted [_ H]].
  injection H as _ <-.
  unfold enumerate in Hfold. rewrite zrange_0 in Hfold. unfold len in Hfold.
  rewrite Nat2Z.id in Hfold.
  apply (coadd_fold_positive obs_ref observations seds bg_rmses [] []) in Hfold;
    try assumption; [|reflexivity|eapply Forall2_length; eauto].
  cbn [positive_bgrms coadd_weights jacobian_args app] in Hfold.
  destruct Hfold as (-> & -> & ->).
  pose proof (Forall2_length_concat _ _ Hlens) as Hlen.
  pose proof (Forall_concat _ _ Hps) as Hs.
  pose proof (Forall_concat _ _ Hpr) as Hr.
  set (allsed := List.concat seds) in *.
  set (allrms := List.concat bg_rmses) in *.
  cbn [div fsqrt mul real]. rewrite !fsum_real.
  assert (Hw : map (fun sr : R * R => (fst sr / (snd sr * snd sr))%R) (combine allsed allrms)
               = map (fun sr : R * R => (fst sr / snd sr ^ 2)%R) (combine allsed allrms)).
  { apply map_ext. intros [s r]. simpl. unfold Rdiv. do 2 f_equal. ring. }
  assert (Hq : map (fun wr : R * R => (fst wr * fst wr * (snd wr * snd wr))%R)
                   (combine (map (fun sr : R * R => (fst sr / snd sr ^ 2)%R)
                                 (combine allsed allrms)) allrms)
               = map (fun wr : R * R => ((fst wr * snd wr) ^ 2)%R)
                   (combine (map (fun sr : R * R => (fst sr / snd sr ^ 2)%R)
                                 (combine allsed allrms)) allrms)).
  { apply map_ext. intros [w r]. simpl. ring. }
  assert (Hj : map (fun sr : R * R => (fst sr * fst sr / (snd sr * snd sr))%R)
                   (combine allsed allrms)
               = map (fun sr : R * R => (fst sr ^ 2 / snd sr ^ 2)%R) (combine allsed allrms)).
  { apply map_ext. intros [s r]. simpl. unfold Rdiv. f_equal; [ring|].
    f_equal. ring. }
  rewrite Hw, Hq, Hj. split; [reflexivity|].
  assert (Hwpos : Forall (fun x => 0 < x)%R
                    (map (fun sr : R * R => (fst sr / snd sr ^ 2)%R) (combine allsed allrms))).
  { apply Forall_map_combine; try assumption. intros x y Hx Hy. simpl.
    apply Rdiv_lt_0_compat; [assumption|]. nra. }
  assert (Hcne : forall (A B : Type) (a : list A) (b : list B),
            List.length a = List.length b -> a <> [] -> combine a b <> []).
  { intros A B [|x a] [|y b]; simpl; congruence. }
  apply Rdiv_lt_0_compat.
  - apply sqrt_lt_R0. apply sum_positive.
    + intros Hnil. apply map_eq_nil in Hnil. revert Hnil. apply Hcne.
      * rewrite length_map, length_combine. lia.
      * intros Hnil. apply map_eq_nil in Hnil. revert Hnil. now apply Hcne.
    + apply Forall_map_combine; try assumption. intros x y Hx Hy. simpl.
      assert (0 < x * y)%R by (apply Rmult_lt_0_compat; assumption). nra.
  - apply sum_positive.
    + intros Hnil. apply map_eq_nil in Hnil. revert Hnil. now apply Hcne.
    + apply Forall_map_combine; try assumption. intros x y Hx Hy. simpl.
      apply Rdiv_lt_0_compat; nra.
Qed.
(** C5.  In exact arithmetic, when all SED entries and all background RMS
    entries are strictly positive (inputs that fit together, at least one
    channel), the cutoff returned by [build_sed_coadd] is
    [sqrt(sum((weight * rms)^2)) / sum(sed^2 / rms^2)] with
    [weight = sed / rms^2], and it is strictly positive.  The call returns
    unless the channel images have different shapes and cannot be summed. *)
Theorem build_sed_coadd_cutoff
    (seds bg_rmses : list (list R)) (observations : list (@Observation real)) :
  coadd_inputs_aligned interpolate_observation seds bg_rmses observations ->
  Forall (Forall (fun s => 0 < s)%R) seds ->
  Forall (Forall (fun r => 0 < r)%R) bg_rmses ->
  List.concat seds <> [] ->
  match build_sed_coadd interpolate_observation seds bg_rmses observations with
  | Ok (_, bg_cutoff) =>
      bg_cutoff = spec_bg_cutoff (List.concat seds) (List.concat bg_rmses) /\
      (0 < bg_cutoff)%R
  | Raise e =>
      e = ValueError /\
      exists obs_ref acc,
        reference_observation observations = Ok obs_ref /\
        foldM (coadd_step interpolate_observation obs_ref seds bg_rmses)
          (enumerate observations)
          {| positive_img := []; positive_bgrms := [];
             coadd_weights := []; jacobian_args := [] |} = Ok acc /\
        einsum_weighted (coadd_weights acc) (positive_img acc)
        = Raise ValueError
  end.
Proof.
  intros Hal Hps Hpr Hne.
  destruct (build_sed_coadd interpolate_observation seds bg_rmses observations)
    as [[detect bg_cutoff]|e] eqn:E.
  - eapply build_sed_coadd_cutoff_value; eauto.
  - destruct Hal as [[obs_ref [Href Himgs]] Hlens].
    unfold build_sed_coadd in E. rewrite Href in E. cbn [bind] in E.
    destruct (foldM_total
                (coadd_step interpolate_observation obs_ref seds bg_rmses)
                (enumerate observations)) with
      (b := {| positive_img := []; positive_bgrms := [];
               coadd_weights := []; jacobian_args := [] |} : @coadd_acc real)
      as [acc Hfold].
    { intros [j o] acc0 Hjo.
      destruct (aligned_at interpolate_observation obs_ref seds bg_rmses
                  observations j o Himgs Hlens Hjo)
        as (sed & rms & Hsed & Hrm & Hin & Hlen & Himg).
      eapply coadd_step_returns; eauto.
      apply not_true_is_false. intros Hex.
      apply existsb_exists in Hex as [r [Hr Hle]].
      rewrite Forall_forall in Hpr. specialize (Hpr rms Hin).
      rewrite Forall_forall in Hpr. specialize (Hpr r Hr).
      cbn [leb zero real] in Hle. rewrite Rleb_false in Hle by assumption.
      discriminate. }
    change (@num real) with R in *. rewrite Hfold in E. cbn [bind] in E.
    destruct (einsum_weighted (coadd_weights acc) (positive_img acc))
      as [weighted|e'] eqn:Ee; [discriminate|].
    cbn [bind] in E. injection E as <-.
    assert (e' = ValueError) as ->.
    { unfold einsum_weighted in Ee.
      destruct (combine _ _) as [|[w im] rest]; [discriminate|].
      destruct (forallb _ rest); congruence. }
    split; [reflexivity|]. exists obs_ref, acc. auto.
Qed.
End CutoffFacts.

Lemma build_sed_coadd_cutoff_witness :
  exists detect bg_cutoff,
    build_sed_coadd (Num := real) Exact.interpolate [[2%R]] [[1%R]]
      [Exact.obs [[[5%R]]] None] = Ok (detect, bg_cutoff) /\
    bg_cutoff = spec_bg_cutoff [2%R] [1%R] /\ (0 < bg_cutoff)%R.
Proof.
  assert (Hrun : exists detect bg_cutoff,
            build_sed_coadd (Num := real) Exact.interpolate [[2%R]] [[1%R]]
              [Exact.obs [[[5%R]]] None] = Ok (detect, bg_cutoff)).
  { unfold build_sed_coadd, coadd_step, positive_channels. simpl.
    rewrite (Rleb_false 1 0) by lra. simpl.
    rewrite (Rgtb_true 2 0) by lra.
    simpl. eauto. }
  destruct Hrun as (detect & bg_cutoff & Hrun).
  exists detect, bg_cutoff. split; [assumption|].
  pose proof (build_sed_coadd_cutoff Exact.interpolate [[2%R]] [[1%R]]
                [Exact.obs [[[5%R]]] None]) as H.
  rewrite Hrun in H. apply H.
  - split.
    + exists (Exact.obs [[[5%R]]] None). split; [reflexivity|].
      constructor; [reflexivity|constructor].
    + constructor; [reflexivity|constructor].
  - repeat constructor. lra.
  - repeat constructor. lra.
  - discriminate.
Defined.

(** strictly positive SED and RMS, and yet no positive cutoff: in binary64
    the square of the SED entry [2^-600] underflows to zero, the
    normalisation is zero and the cutoff is [0 / 0], NaN *)
Lemma build_sed_coadd_cutoff_underflow :
  @gtb float64 0x1p-600%float (@zero float64) = true /\
  @gtb float64 1%float (@zero float64) = true /\
  exists (detect : @Image float64) (bg_cutoff : float),
    build_sed_coadd (Num := float64) Scene.interpolate [[0x1p-600%float]]
      [[1%float]] [Scene.obs] = Ok (detect, bg_cutoff) /\
    PrimFloat.is_nan bg_cutoff = true /\
    @gtb float64 bg_cutoff (@zero float64) = false.
Proof.
  split; [vm_compute; reflexivity|]. split; [vm_compute; reflexivity|].
  destruct (build_sed_coadd (Num := float64) Scene.interpolate
              [[0x1p-600%float]] [[1%float]] [Scene.obs])
    as [[detect bg_cutoff]|e] eqn:E.
  - exists detect, bg_cutoff. split; [reflexivity|].
    vm_compute in E. injection E as _ <-. split; vm_compute; reflexivity.
  - vm_compute in E. discriminate E.
Qed.

(* ------------------------------------------------------------------------- *)
(** ** The multi-component splitter *)

Lemma update_nth_map {A B : Type} (h : A -> B) (f : A -> A) (g : B -> B)
    (k : nat) (l : list A) :
  (forall a, g (h a) = h (f a)) ->
  update_nth k g (map h l) = map h (update_nth k f l).
Proof.
  intros H. revert k. induction l as [|a l IH]; intros [|k]; simpl;
    try reflexivity.
  - now rewrite H.
  - now rewrite IH.
Qed.

Lemma update_nth_length {A : Type} (f : A -> A) (k : nat) (l : list A) :
  List.length (update_nth k f l) = List.length l.
Proof.
  revert k. induction l as [|a l IH]; intros [|k]; simpl; auto.
Qed.

Lemma nth_update_nth {A : Type} (f : A -> A) (k i : nat) (l : list A) (d : A) :
  (k < List.length l)%nat ->
  nth i (update_nth k f l) d = if (i =? k)%nat then f (nth k l d) else nth i l d.
Proof.
  revert k i. induction l as [|a l IH]; intros [|k] [|i] Hk; simpl in *;
    try lia; try reflexivity.
  apply IH. lia.
Qed.

Section LayerFacts.
Context {Num : Scalar}.

Lemma zip2d_map2d_self (f : num -> num -> num) (phi : num -> num) (morph : Image) :
  zip2d f (map2d phi morph) morph = map2d (fun m => f (phi m) m) morph.
Proof.
  unfold zip2d, map2d. induction morph as [|row morph IH]; simpl; [reflexivity|].
  f_equal; [|exact IH]. clear IH.
  induction row as [|x row IH]; simpl; [reflexivity|]. now f_equal.
Qed.

Lemma zip2d_map2d_both (f : num -> num -> num) (phi psi : num -> num)
    (morph : Image) :
  zip2d f (map2d phi morph) (map2d psi morph)
  = map2d (fun m => f (phi m) (psi m)) morph.
Proof.
  unfold zip2d, map2d. induction morph as [|row morph IH]; simpl; [reflexivity|].
  f_equal; [|exact IH]. clear IH.
  induction row as [|x row IH]; simpl; [reflexivity|]. now f_equal.
Qed.

Lemma map2d_id (morph : Image) : map2d (fun m => m) morph = morph.
Proof. unfold map2d. rewrite (map_ext _ (fun r => r)); [apply map_id|].
  intros r. apply map_id. Qed.

Lemma layer_step_lift (morph : Image) (max_flux : num)
    (phis : list (num -> num)) (last : num) (kperc : nat * num) :
  layer_step morph max_flux (lift_layers morph phis, last) kperc
  = (lift_layers morph (fst (phi_step max_flux (phis, last) kperc)),
     snd (phi_step max_flux (phis, last) kperc)).
Proof.
  unfold layer_step, phi_step, lift_layers, flux_threshold. cbn [fst snd].
  set (t := div (mul (snd kperc) max_flux) (of_Z 100)).
  f_equal.
  rewrite (update_nth_map (fun phi => map2d phi morph)
             (fun phi m => if gtb m t then sub t last else phi m))
    by (intros phi; apply zip2d_map2d_self).
  rewrite (update_nth_map (fun phi => map2d phi morph)
             (fun phi m => if gtb m t then sub m t else phi m))
    by (intros phi; apply zip2d_map2d_self).
  reflexivity.
Qed.

Lemma layer_fold_lift (morph : Image) (max_flux : num)
    (steps : list (nat * num)) (phis : list (num -> num)) (last : num) :
  fst (fold_left (layer_step morph max_flux) steps (lift_layers morph phis, last))
  = lift_layers morph (fst (fold_left (phi_step max_flux) steps (phis, last))).
Proof.
  revert phis last. induction steps as [|kperc steps IH]; intros phis last;
    simpl; [reflexivity|].
  rewrite layer_step_lift, IH.
  now destruct (phi_step max_flux (phis, last) kperc).
Qed.

Lemma phi_fold_pixel (m max_flux : num) (steps : list (nat * num))
    (phis : list (num -> num)) (last : num) :
  map (fun phi => phi m) (fst (fold_left (phi_step max_flux) steps (phis, last)))
  = fst (fold_left (pixel_step m max_flux) steps
           (map (fun phi => phi m) phis, last)).
Proof.
  revert phis last. induction steps as [|kperc steps IH]; intros phis last;
    simpl; [reflexivity|].
  destruct (phi_step max_flux (phis, last) kperc) as [phis' last'] eqn:E.
  rewrite IH. f_equal. f_equal.
  unfold phi_step in E. cbn [fst snd] in E. injection E as <- <-.
  unfold pixel_step. cbn [fst snd]. f_equal.
  set (t := flux_threshold max_flux (snd kperc)).
  rewrite <- (update_nth_map (fun phi : num -> num => phi m)
                (fun phi m => if gtb m t then sub m t else phi m)
                (fun l => if gtb m t then sub m t else l))
    by reflexivity.
  rewrite <- (update_nth_map (fun phi : num -> num => phi m)
                (fun phi m => if gtb m t then sub t last else phi m)
                (fun l => if gtb m t then sub t last else l))
    by reflexivity.
  reflexivity.
Qed.

Lemma stack_sum_lift (morph : Image) (phi0 : num -> num)
    (phis : list (num -> num)) :
  stack_sum (lift_layers morph (phi0 :: phis))
  = map2d (fun m => fold_left add (map (fun phi => phi m) phis) (phi0 m)) morph.
Proof.
  unfold stack_sum, lift_layers. cbn [map].
  revert phi0. induction phis as [|phi phis IH]; intros phi0; simpl;
    [reflexivity|].
  rewrite zip2d_map2d_both. apply IH.
Qed.

Lemma layered_morphs_pixelwise (morph : Image) (max_flux : num)
    (flux_percentiles : list num) :
  exists phi0 phis,
    layered_morphs morph max_flux flux_percentiles
      = lift_layers morph (phi0 :: phis) /\
    forall m, phi0 m :: map (fun phi => phi m) phis
              = pixel_layers max_flux flux_percentiles m.
Proof.
  unfold layered_morphs, pixel_layers.
  set (steps := combine _ _).
  set (n := List.length flux_percentiles).
  assert (Hinit : morph :: repeat (map2d (fun _ => zero) morph) n
                  = lift_layers morph ((fun m => m) :: repeat (fun _ => zero) n)).
  { unfold lift_layers. cbn [map]. now rewrite map2d_id, map_repeat. }
  rewrite Hinit, layer_fold_lift.
  destruct (fst (fold_left (phi_step max_flux) steps
                   ((fun m => m) :: repeat (fun _ => zero) n, zero)))
    as [|phi0 phis] eqn:E.
  - exfalso.
    assert (Hlen : forall steps phis last,
      List.length (fst (fold_left (phi_step max_flux) steps (phis, last)))
      = List.length phis).
    { clear. induction steps as [|kp steps IH]; intros phis last; simpl;
        [reflexivity|].
      unfold phi_step at 2. cbn [fst snd]. rewrite IH.
      now rewrite !update_nth_length. }
    specialize (Hlen steps ((fun m => m) :: repeat (fun _ => zero) n) zero).
    rewrite E in Hlen. discriminate.
  - exists phi0, phis. split; [reflexivity|]. intros m.
    change (phi0 m :: map (fun phi => phi m) phis)
      with (map (fun phi : num -> num => phi m) (phi0 :: phis)).
    rewrite <- E, phi_fold_pixel. cbn [map]. now rewrite map_repeat.
Qed.
End LayerFacts.

(** *** [np.sort] sorts *)

Lemma sort_insert_HdRel (a x : R) (l : list R) :
  (a <= x)%R -> HdRel Rle a l -> HdRel Rle a (sort_insert (Num := real) x l).
Proof.
  intros Hax Hl. destruct l as [|y l]; simpl; [now constructor|].
  cbn [leb real]. unfold Rleb. destruct (Rle_dec x y); constructor;
    [assumption|]. now inversion Hl.
Qed.

Lemma sort_insert_sorted (x : R) (l : list R) :
  Sorted Rle l -> Sorted Rle (sort_insert (Num := real) x l).
Proof.
  induction 1 as [|y l Hs IH Hhd]; simpl.
  - repeat constructor.
  - cbn [leb real]. unfold Rleb. destruct (Rle_dec x y) as [Hxy|Hxy].
    + constructor; [now constructor|now constructor].
    + constructor; [assumption|]. apply sort_insert_HdRel; [lra|assumption].
Qed.

Lemma np_sort_sorted (l : list R) : Sorted Rle (np_sort (Num := real) l).
Proof.
  unfold np_sort. induction l as [|x l IH]; simpl; [constructor|].
  now apply sort_insert_sorted.
Qed.

Lemma sort_insert_length {Num : Scalar} (x : num) (l : list num) :
  List.length (sort_insert x l) = S (List.length l).
Proof.
  induction l as [|y l IH]; simpl; [reflexivity|].
  destruct (leb x y); simpl; [reflexivity|]. now rewrite IH.
Qed.

Lemma np_sort_length {Num : Scalar} (l : list num) :
  List.length (np_sort l) = List.length l.
Proof.
  unfold np_sort. induction l as [|x l IH]; simpl; [reflexivity|].
  now rewrite sort_insert_length, IH.
Qed.

Lemma thresholds_sorted (max_flux : R) (percs : list R) :
  (0 <= max_flux)%R -> Sorted Rle percs ->
  Sorted Rle (map (flux_threshold (Num := real) max_flux) percs).
Proof.
  intros Hmax. induction 1 as [|p l Hs IH Hhd]; simpl; constructor;
    [assumption|].
  destruct Hhd as [|q l' Hpq]; simpl; constructor.
  unfold flux_threshold. cbn [div mul of_Z real]. nra.
Qed.

(** *** The column of layer values at one pixel *)

Lemma rsum_update_nth (f : R -> R) (k : nat) (l : list R) :
  (k < List.length l)%nat ->
  rsum (update_nth k f l) = (rsum l - nth k l 0 + f (nth k l 0))%R.
Proof.
  revert k. induction l as [|a l IH]; intros [|k] Hk; simpl in *; try lia.
  - lra.
  - rewrite IH by lia. lra.
Qed.

Lemma update_nth_same {A : Type} (k : nat) (l : list A) :
  update_nth k (fun a => a) l = l.
Proof.
  revert k. induction l as [|a l IH]; intros [|k]; simpl; try reflexivity.
  now rewrite IH.
Qed.

Lemma pixel_fold_sum (m max_flux : R) :
  forall (percs : list R) (j : nat) (col : list R) (last : R),
  Sorted Rle (map (flux_threshold (Num := real) max_flux) percs) ->
  (j + List.length percs < List.length col)%nat ->
  (forall i, (j < i)%nat -> nth i col 0%R = 0%R) ->
  (nth j col 0%R = (m - last)%R \/
   (nth j col 0%R = 0%R /\ (m <= last)%R /\
    HdRel Rle last (map (flux_threshold (Num := real) max_flux) percs))) ->
  rsum (fst (fold_left (pixel_step (Num := real) m max_flux)
               (combine (seq (S j) (List.length percs)) percs) (col, last)))
  = rsum col.
Proof.
  induction percs as [|perc percs IH]; intros j col last Hs Hlen Hzero Hj;
    [reflexivity|].
  cbn [List.length seq combine fold_left map] in *.
  inversion Hs as [|? ? Hs' Hhd]; subst.
  set (t := flux_threshold (Num := real) max_flux perc) in *.
  unfold pixel_step at 2. cbn [fst snd]. fold t.
  replace (S j - 1)%nat with j by lia.
  cbn [gtb sub real].
  destruct (Rlt_dec t m) as [Hmt|Hmt].
  - rewrite (Rgtb_true m t) by assumption.
    assert (Hcol : nth j col 0%R = (m - last)%R).
    { destruct Hj as [Hj|(_ & Hml & Hl)]; [assumption|].
      inversion Hl; subst. lra. }
    rewrite IH; try assumption.
    + rewrite rsum_update_nth by (rewrite update_nth_length; lia).
      rewrite nth_update_nth by lia.
      replace (S j =? j)%nat with false by (symmetry; apply Nat.eqb_neq; lia).
      rewrite rsum_update_nth by lia.
      rewrite Hcol, (Hzero (S j)) by lia. lra.
    + rewrite !update_nth_length. lia.
    + intros i Hi. rewrite nth_update_nth by (rewrite update_nth_length; lia).
      replace (i =? S j)%nat with false by (symmetry; apply Nat.eqb_neq; lia).
      rewrite nth_update_nth by lia.
      replace (i =? j)%nat with false by (symmetry; apply Nat.eqb_neq; lia).
      apply Hzero. lia.
    + left. rewrite nth_update_nth by (rewrite update_nth_length; lia).
      now rewrite Nat.eqb_refl.
  - rewrite (Rgtb_false m t) by lra.
    rewrite !update_nth_same.
    rewrite IH; try assumption; [reflexivity|lia| |].
    + intros i Hi. apply Hzero. lia.
    + right. split; [apply Hzero; lia|]. split; [lra|assumption].
Qed.

Lemma pixel_layers_sum (max_flux : R) (percs : list R) (m : R) :
  (0 <= max_flux)%R ->
  rsum (pixel_layers (Num := real) max_flux percs m) = m.
Proof.
  intros Hmax. unfold pixel_layers.
  rewrite <- (np_sort_length (Num := real) percs) at 1.
  rewrite (pixel_fold_sum m max_flux (np_sort (Num := real) percs) 0).
  - cbn [rsum fold_right zero real].
    assert (H : forall n, fold_right Rplus 0%R (repeat 0%R n) = 0%R).
    { induction n as [|n IH]; simpl; [reflexivity|]. rewrite IH. lra. }
    rewrite H. lra.
  - apply thresholds_sorted; [assumption|apply np_sort_sorted].
  - pose proof (np_sort_length (Num := real) percs) as Hl.
    cbn [num real] in *. simpl. rewrite repeat_length. lia.
  - intros [|i] Hi; [lia|]. simpl. apply nth_repeat.
  - left. cbn [nth zero real]. lra.
Qed.

(** the loop keeps the number of layers *)
Lemma layered_morphs_length {Num : Scalar} (morph : Image) (max_flux : num)
    (flux_percentiles : list num) :
  List.length (layered_morphs morph max_flux flux_percentiles)
  = S (List.length flux_percentiles).
Proof.
  unfold layered_morphs.
  assert (H : forall steps morphs last,
    List.length (fst (fold_left (layer_step morph max_flux) steps (morphs, last)))
    = List.length morphs).
  { induction steps as [|kp steps IH]; intros morphs last; simpl;
      [reflexivity|].
    unfold layer_step at 2. cbn [fst snd]. rewrite IH.
    now rewrite !update_nth_length. }
  rewrite H. simpl. now rewrite repeat_length.
Qed.

Lemma map2d_ext {A B : Type} (f g : A -> B) (m : list (list A)) :
  (forall a, f a = g a) -> map2d f m = map2d g m.
Proof.
  intros H. unfold map2d. apply map_ext. intros row. now apply map_ext.
Qed.

Section LayersOfSource.
Context {Num : Scalar}.
Variable interpolate_observation : Observation -> Frame -> Cube.
Variable linalg_inv : list (list num) -> result (list (list num)).
Variable prox_uncentered_symmetry : Image -> Z -> Z * Z -> string -> Image.
Variable prox_weighted_monotonic :
  Z * Z -> string -> Z * Z -> num -> Image -> Z -> list num.

(** the layers [init_multicomponent_source] returns are the layers of the
    loop, each divided by its own maximum *)
Lemma init_multicomponent_source_layers
    (sky_coord : SkyCoord) (frame : Frame) (observations : observations_arg)
    (coadd : option Image) (bg_cutoff : option num)
    (flux_percentiles : option (list num)) (thresh : num)
    (symmetric monotonic : bool) (min_grad : num)
    (seds : list (list num)) (morphs : list Image) (bbox : Box) :
  init_multicomponent_source interpolate_observation linalg_inv
    prox_uncentered_symmetry prox_weighted_monotonic sky_coord frame
    observations coadd bg_cutoff flux_percentiles thresh symmetric monotonic
    min_grad = Ok (seds, morphs, bbox) ->
  exists sed morph max_flux,
    init_extended_source interpolate_observation prox_uncentered_symmetry
      prox_weighted_monotonic sky_coord frame observations coadd bg_cutoff
      thresh symmetric monotonic min_grad = Ok (sed, morph, bbox) /\
    amax (flatten morph) = Ok max_flux /\
    mapM renormalize
      (layered_morphs morph max_flux
         (match flux_percentiles with None => [of_Z 25] | Some l => l end))
    = Ok morphs.
Proof.
  unfold init_multicomponent_source. intros H.
  apply bind_Ok in H as [obs_ref [_ H]].
  apply bind_Ok in H as [[[sed morph] bbox'] [Hext H]].
  apply bind_Ok in H as [max_flux [Hmax H]].
  apply bind_Ok in H as [morphs' [Hren H]].
  apply bind_Ok in H as [boxed [_ H]].
  apply bind_Ok in H as [seds' [_ H]].
  injection H as <- <- <-. exists sed, morph, max_flux. auto.
Qed.
End LayersOfSource.

Section LayerSum.
Variable interpolate_observation : @Observation real -> @Frame real -> @Cube real.
Variable linalg_inv : list (list R) -> result (list (list R)).
Variable prox_uncentered_symmetry :
  @Image real -> Z -> Z * Z -> string -> @Image real.
Variable prox_weighted_monotonic :
  Z * Z -> string -> Z * Z -> R -> @Image real -> Z -> list R.

(** C1, as amended.  The loop of [init_multicomponent_source] builds
    [K = len(flux_percentiles) + 1] layers which, in exact arithmetic, sum to
    the single morphology before they are renormalised, provided its maximum
    is not negative.  The layers that are returned are these layers, each
    divided by its own maximum. *)
Theorem layers_sum_before_renormalization
    (sky_coord : @SkyCoord real) (frame : @Frame real)
    (observations : @observations_arg real)
    (coadd : option (@Image real)) (bg_cutoff : option R)
    (flux_percentiles : option (list R)) (thresh : R)
    (symmetric monotonic : bool) (min_grad : R)
    (morph0 : @Image real) (max_flux0 : R) (percentiles : list R) :
  List.length (layered_morphs (Num := real) morph0 max_flux0 percentiles)
  = S (List.length percentiles)
  /\
  ((0 <= max_flux0)%R ->
   stack_sum (Num := real) (layered_morphs morph0 max_flux0 percentiles)
   = morph0)
  /\
  match init_multicomponent_source (Num := real) interpolate_observation
          linalg_inv prox_uncentered_symmetry prox_weighted_monotonic
          sky_coord frame observations coadd bg_cutoff flux_percentiles
          thresh symmetric monotonic min_grad
  with
  | Ok (_, morphs, bbox) =>
      exists sed morph max_flux,
        init_extended_source (Num := real) interpolate_observation
          prox_uncentered_symmetry prox_weighted_monotonic sky_coord frame
          observations coadd bg_cutoff thresh symmetric monotonic min_grad
        = Ok (sed, morph, bbox) /\
        amax (Num := real) (flatten morph) = Ok max_flux /\
        mapM (renormalize (Num := real))
          (layered_morphs morph max_flux
             (match flux_percentiles with
              | None => [25%R]
              | Some l => l
              end)) = Ok morphs
  | Raise _ => True
  end.
Proof.
  split; [exact (layered_morphs_length (Num := real) morph0 max_flux0 percentiles)|].
  split.
  - intros Hmax.
    destruct (layered_morphs_pixelwise (Num := real) morph0 max_flux0 percentiles)
      as (phi0 & phis & -> & Hcol).
    rewrite stack_sum_lift. rewrite <- (map2d_id (Num := real) morph0) at 2.
    apply map2d_ext. intros m. cbn [add real].
    rewrite fold_left_Rplus.
    pose proof (pixel_layers_sum max_flux0 percentiles m Hmax) as Hsum.
    rewrite <- Hcol in Hsum. exact Hsum.
  - destruct (init_multicomponent_source _ _ _ _ _ _ _ _ _ _ _ _ _ _)
      as [[[seds morphs] bbox]|e] eqn:E; [|exact I].
    destruct (init_multicomponent_source_layers _ _ _ _ _ _ _ _ _ _ _ _ _ _ _ _ _ E)
      as (sed & morph & max_flux & H1 & H2 & H3).
    exists sed, morph, max_flux. auto.
Qed.
End LayerSum.

Lemma layers_sum_before_renormalization_witness :
  stack_sum (Num := real)
    (layered_morphs (Num := real) [[4; 1]; [0; 2]]%R 4%R [25; 50]%R)
  = [[4; 1]; [0; 2]]%R.
Proof.
  apply (proj1 (proj2 (layers_sum_before_renormalization Exact.interpolate
                  (fun _ => Raise LinAlgError) (fun X _ _ _ => X)
                  (fun _ _ _ _ X _ => flatten X) Exact.sky (Exact.frame None)
                  (observation_list []) None None None 1%R true true 0%R
                  [[4; 1]; [0; 2]]%R 4%R [25; 50]%R))).
  lra.
Defined.

(** the run on the scene, in binary64: at the center pixel of the box the
    two returned layers sum to 2 where the single morphology is 1, and next
    to it to 1 where it is 0.25 *)
Lemma multicomponent_layers_do_not_sum :
  match init_multicomponent_source (Num := float64) Scene.interpolate
          Scene.inv Scene.symmetry Scene.monotonic Scene.sky Scene.frame
          (one_observation Scene.obs) None None None 0.5%float true true
          Scene.min_grad,
        init_extended_source (Num := float64) Scene.interpolate
          Scene.symmetry Scene.monotonic Scene.sky Scene.frame
          (one_observation Scene.obs) None None 0.5%float true true
          Scene.min_grad
  with
  | Ok (_, morphs, _), Ok (_, morph, _) =>
      List.length morphs = 2%nat /\
      index2 morph (8, 8) = Ok 1%float /\
      index2 (stack_sum morphs) (8, 8) = Ok 2%float /\
      index2 morph (8, 9) = Ok 0.25%float /\
      index2 (stack_sum morphs) (8, 9) = Ok 1%float /\
      stack_sum morphs <> morph
  | _, _ => False
  end.
Proof.
  vm_compute. repeat split.
  intros H.
  apply (f_equal (fun m : list (list float) =>
                    match index2 m (8, 8) with
                    | Ok v => PrimFloat.ltb 1 v
                    | Raise _ => false
                    end)) in H.
  vm_compute in H. discriminate H.
Qed.

(** percentile 25 on a morphology of maximum 4: layer 0 is capped at 1
    where the morphology exceeds 1, layer 1 holds the remainder *)
Example layered_morphs_binary64 :
  layered_morphs (Num := float64) [[4; 1; 2]]%float 4%float [25%float]
  = [[[1; 1; 1]]; [[3; 0; 1]]]%float.
Proof. vm_compute. reflexivity. Qed.

(* ------------------------------------------------------------------------- *)
(** ** The peak of the extended-source morphology *)

Lemma map2d_map2d {A B C : Type} (f : A -> B) (g : B -> C) (m : list (list A)) :
  map2d g (map2d f m) = map2d (fun a => g (f a)) m.
Proof.
  unfold map2d. rewrite map_map. apply map_ext. intros row. apply map_map.
Qed.

Lemma lookupZ_map {A B : Type} (f : A -> B) (l : list A) (i : Z) :
  lookupZ (map f l) i = option_map f (lookupZ l i).
Proof.
  unfold lookupZ. destruct (i <? 0); [reflexivity|]. apply nth_error_map.
Qed.

Lemma lookupZ_py_index {A : Type} (l : list A) (i : Z) (a : A) :
  lookupZ l i = Some a -> py_index l i = Ok a /\ In a l.
Proof.
  unfold lookupZ. destruct (Z.ltb_spec i 0); [discriminate|]. intros Hn.
  split; [now apply py_index_nth|]. eapply nth_error_In; eauto.
Qed.

Lemma py_index_In {A : Type} (l : list A) (i : Z) (a : A) :
  py_index l i = Ok a -> In a l.
Proof.
  unfold py_index. destruct (_ || _); [discriminate|].
  destruct (nth_error l _) eqn:E; [|discriminate].
  intros [= <-]. eapply nth_error_In; eauto.
Qed.

Lemma index2_In {A : Type} (m : list (list A)) (p : Z * Z) (a : A) :
  index2 m p = Ok a -> In a (flatten m).
Proof.
  unfold index2, flatten. intros H. apply bind_Ok in H as [row [Hrow Ha]].
  apply in_concat. exists row. split; eapply py_index_In; eauto.
Qed.

Lemma py_index_zrange_map {A : Type} (F : Z -> A) (lo hi k : Z) :
  0 <= k < hi - lo -> py_index (map F (zrange lo hi)) k = Ok (F (lo + k)).
Proof.
  intros Hk. apply py_index_nth; [lia|].
  unfold zrange. rewrite map_map, nth_error_map.
  rewrite nth_error_seq.
  destruct (Nat.ltb_spec (Z.to_nat k) (Z.to_nat (hi - lo))); [|lia].
  simpl. do 2 f_equal. lia.
Qed.

Section TrimPeak.
Context {Num : Scalar}.

Lemma pixel_at_index2 (im : Image) (p : Z * Z) (v : num) :
  pixel_at im p = Some v -> index2 im p = Ok v.
Proof.
  unfold pixel_at, index2. destruct (lookupZ im (fst p)) as [row|] eqn:Hr;
    [|discriminate].
  intros Hv. apply lookupZ_py_index in Hr as [-> _]. cbn [bind].
  now apply lookupZ_py_index in Hv as [-> _].
Qed.

Lemma pixel_or_zero_map2d (f : num -> num) (im : Image) (p : Z * Z) (v : num) :
  pixel_at im p = Some v ->
  pixel_or_zero (map2d f im) (fst p) (snd p) = f v.
Proof.
  unfold pixel_at, pixel_or_zero, map2d. rewrite lookupZ_map.
  destruct (lookupZ im (fst p)) as [row|]; [|discriminate]. cbn [option_map].
  rewrite lookupZ_map. now intros ->.
Qed.

Lemma pixel_or_zero_cases (im : Image) (y x : Z) :
  pixel_or_zero im y x = zero \/ In (pixel_or_zero im y x) (flatten im).
Proof.
  unfold pixel_or_zero, flatten.
  destruct (lookupZ im y) as [row|] eqn:Hr; [|now left].
  destruct (lookupZ row x) as [v|] eqn:Hv; [|now left].
  right. apply in_concat. exists row.
  apply lookupZ_py_index in Hr as [_ Hr]. apply lookupZ_py_index in Hv as [_ Hv].
  auto.
Qed.

Lemma extract2_center (im : Image) (c : Z * Z) (h : Z) :
  0 < h ->
  index2 (extract2 (fst c - h, fst c + h) (snd c - h, snd c + h) im) (h, h)
  = Ok (pixel_or_zero im (fst c) (snd c)).
Proof.
  intros Hh. unfold index2, extract2. cbn [fst snd].
  rewrite py_index_zrange_map by lia. cbn [bind].
  rewrite py_index_zrange_map by lia. do 2 f_equal; lia.
Qed.

Lemma extract2_entries (im : Image) (ys xs : Z * Z) (a : num) :
  In a (flatten (extract2 ys xs im)) -> a = zero \/ In a (flatten im).
Proof.
  unfold extract2, flatten at 1. intros H.
  apply in_concat in H as [row [Hrow Ha]].
  apply in_map_iff in Hrow as [y [<- _]].
  apply in_map_iff in Ha as [x [<- _]].
  apply pixel_or_zero_cases.
Qed.

Lemma mask_sum_positive (f : num -> bool) (im : Image) (v : num) :
  In v (flatten im) -> f v = true -> 0 < mask_sum (map2d f im).
Proof.
  intros Hin Hf. unfold mask_sum, len.
  assert (Hin' : In true (filter (fun b : bool => b) (flatten (map2d f im)))).
  { apply filter_In. split; [|reflexivity].
    unfold flatten, map2d in *. rewrite <- Hf.
    apply in_concat in Hin as [row [Hrow Hv]].
    apply in_concat. exists (map f row). split; now apply in_map. }
  destruct (filter _ _); [destruct Hin'|]. simpl. lia.
Qed.

(** what [trim_morphology] returns in the branch with flux above the
    threshold *)
Lemma trim_morphology_normalised (sky : SkyCoord) (frame : Frame)
    (morph : Image) (bg_cutoff thresh v : num) :
  let c := get_pixel frame sky in
  let cut := mul bg_cutoff thresh in
  0 < mask_sum (map2d (fun x => gtb x cut) morph) ->
  index2 morph c = Ok v ->
  exists n : nat,
    trim_morphology sky frame morph bg_cutoff thresh
    = Ok (extract2 (fst c - 8 * 2 ^ Z.of_nat n, fst c + 8 * 2 ^ Z.of_nat n)
                   (snd c - 8 * 2 ^ Z.of_nat n, snd c + 8 * 2 ^ Z.of_nat n)
            (map2d (fun x => div (if gtb x cut then x else zero)
                                 (if gtb v cut then v else zero)) morph),
          Box_from_bounds
            [(0, frame_C frame);
             (fst c - 8 * 2 ^ Z.of_nat n, fst c + 8 * 2 ^ Z.of_nat n);
             (snd c - 8 * 2 ^ Z.of_nat n, snd c + 8 * 2 ^ Z.of_nat n)]).
Proof.
  intros c cut Hmask Hc. unfold trim_morphology. fold c. fold cut.
  assert (Hhalf : forall n : nat, 16 * 2 ^ Z.of_nat n / 2 = 8 * 2 ^ Z.of_nat n).
  { intros n. replace (16 * 2 ^ Z.of_nat n) with (8 * 2 ^ Z.of_nat n * 2) by lia.
    apply Z.div_mul. lia. }
  destruct (Z.ltb_spec 0 (mask_sum (map2d (fun x => gtb x cut) morph))); [|lia].
  rewrite index2_map2d, Hc. cbn [bind]. rewrite map2d_map2d.
  set (morph2 := map2d _ morph).
  destruct (Box_contains _ _).
  - destruct (Box_from_data_bounds morph2 zero) as [[a0 a1] [[b0 b1] Hb]].
    unfold Box_start, Box_stop. rewrite Hb. cbn [map fst snd].
    change (py_index [a0; b0] (-2)) with (Ok a0).
    change (py_index [a1; b1] 0) with (Ok a1).
    change (py_index [a0; b0] (-1)) with (Ok b0).
    change (py_index [a1; b1] 1) with (Ok b1).
    cbn [bind].
    match goal with
    | |- context [grow_boxsize (Z.to_nat ?s) 16 ?s] =>
        destruct (grow_boxsize_spec (Z.to_nat s) 16 s) as [n [Hn _]];
        [lia|lia|rewrite Hn]
    end.
    exists n. rewrite Hhalf. reflexivity.
  - exists O. cbn [bind]. change (16 / 2) with (8 * 2 ^ Z.of_nat 0). reflexivity.
Qed.
End TrimPeak.

Lemma fold_left_Rmax_one (l : list R) (a : R) :
  (a <= 1)%R -> Forall (fun x => x <= 1)%R l -> a = 1%R \/ In 1%R l ->
  fold_left Rmax l a = 1%R.
Proof.
  revert a. induction l as [|x l IH]; intros a Ha Hl H1; simpl.
  - destruct H1 as [H1|[]]. exact H1.
  - inversion Hl as [|? ? Hx Hl']; subst. apply IH; [|assumption|].
    + now apply Rmax_lub.
    + destruct H1 as [->|[->|Hin]].
      * left. apply Rmax_left. assumption.
      * left. apply Rmax_right. assumption.
      * now right.
Qed.

Lemma amax_one (l : list R) :
  Forall (fun x => x <= 1)%R l -> In 1%R l -> amax (Num := real) l = Ok 1%R.
Proof.
  intros Hl Hin. destruct l as [|a l]; [destruct Hin|].
  unfold amax. cbn [fmax real]. f_equal.
  inversion Hl; subst. apply fold_left_Rmax_one; assumption.
Qed.

(** [trim_morphology] on a morphology that is largest at the center pixel *)
Lemma trim_morphology_peak (sky : @SkyCoord real) (frame : @Frame real)
    (morph : @Image real) (bg_cutoff thresh v : R) :
  let c := get_pixel frame sky in
  pixel_at (Num := real) morph c = Some v ->
  (bg_cutoff * thresh < v)%R -> (0 < v)%R ->
  (forall x, In x (flatten morph) -> x <= v)%R ->
  exists (m : @Image real) (n : nat),
    trim_morphology (Num := real) sky frame morph bg_cutoff thresh
    = Ok (m, Box_from_bounds
               [(0, frame_C frame);
                (fst c - 8 * 2 ^ Z.of_nat n, fst c + 8 * 2 ^ Z.of_nat n);
                (snd c - 8 * 2 ^ Z.of_nat n, snd c + 8 * 2 ^ Z.of_nat n)]) /\
    index2 m (8 * 2 ^ Z.of_nat n, 8 * 2 ^ Z.of_nat n) = Ok 1%R /\
    amax (Num := real) (flatten m) = Ok 1%R.
Proof.
  intros c Hv Hcut Hpos Hmax.
  pose proof (pixel_at_index2 morph c v Hv) as Hidx.
  assert (Hin : In v (flatten morph)) by (eapply index2_In; eauto).
  destruct (trim_morphology_normalised (Num := real) sky frame morph bg_cutoff
              thresh v) as [n Htrim].
  { apply (mask_sum_positive (Num := real) _ morph v Hin).
    cbn [gtb mul real]. now apply Rgtb_true. }
  { exact Hidx. }
  fold c in Htrim. cbn [gtb mul div zero real] in Htrim.
  rewrite (Rgtb_true v (bg_cutoff * thresh)) in Htrim by assumption.
  set (h := fun x : R => ((if Rgtb x (bg_cutoff * thresh) then x else 0) / v)%R)
    in Htrim.
  assert (Hhv : h v = 1%R).
  { unfold h. rewrite Rgtb_true by assumption. field. lra. }
  assert (Hhle : forall x, In x (flatten morph) -> (h x <= 1)%R).
  { intros x Hx. unfold h. specialize (Hmax x Hx).
    destruct (Rgtb x (bg_cutoff * thresh)).
    - apply (Rmult_le_reg_r v); [assumption|]. unfold Rdiv.
      rewrite Rmult_assoc, Rinv_l by lra. lra.
    - unfold Rdiv. rewrite Rmult_0_l. lra. }
  assert (Hp : 0 < 8 * 2 ^ Z.of_nat n).
  { assert (0 < 2 ^ Z.of_nat n) by (apply Z.pow_pos_nonneg; lia). lia. }
  eexists. exists n. split; [exact Htrim|].
  assert (Hcenter :
    index2 (extract2 (Num := real)
                     (fst c - 8 * 2 ^ Z.of_nat n, fst c + 8 * 2 ^ Z.of_nat n)
                     (snd c - 8 * 2 ^ Z.of_nat n, snd c + 8 * 2 ^ Z.of_nat n)
              (map2d h morph))
           (8 * 2 ^ Z.of_nat n, 8 * 2 ^ Z.of_nat n) = Ok 1%R).
  { rewrite (extract2_center (Num := real)) by assumption.
    f_equal. rewrite <- Hhv.
    exact (pixel_or_zero_map2d (Num := real) h morph c v Hv). }
  split; [exact Hcenter|].
  apply amax_one.
  - apply Forall_forall. intros a Ha.
    apply (extract2_entries (Num := real)) in Ha as [->|Ha].
    + cbn [zero real]. lra.
    + unfold flatten, map2d in Ha. apply in_concat in Ha as [row [Hrow Ha]].
      apply in_map_iff in Hrow as [row0 [<- Hrow0]].
      apply in_map_iff in Ha as [x [<- Hx]].
      apply Hhle. unfold flatten. apply in_concat. eauto.
  - eapply index2_In; eauto.
Qed.

Section ExtendedPeak.
Variable interpolate_observation : @Observation real -> @Frame real -> @Cube real.
Variable prox_uncentered_symmetry :
  @Image real -> Z -> Z * Z -> string -> @Image real.
Variable prox_weighted_monotonic :
  Z * Z -> string -> Z * Z -> R -> @Image real -> Z -> list R.

(** C3, as amended.  In exact arithmetic: when the morphology that
    [init_extended_source] hands to [trim_morphology] (the coadd after the
    projections that were asked for) is largest at the center pixel, and its
    value there is positive and above [bg_cutoff * thresh], the morphology
    that is returned is 1 at the center pixel and its maximum is 1. *)
Theorem init_extended_source_peak
    (sky_coord : @SkyCoord real) (frame : @Frame real)
    (observations : @observations_arg real)
    (coadd0 : option (@Image real)) (bg_cutoff0 : option R) (thresh : R)
    (symmetric monotonic : bool) (min_grad : R)
    (seds : list (list R)) (coadd morph : @Image real) (bg_cutoff v : R) :
  let center := get_pixel frame sky_coord in
  mapM (fun obs => get_psf_sed (Num := real) sky_coord obs frame)
       (as_list observations) = Ok seds ->
  seds <> [] ->
  detection_coadd (Num := real) interpolate_observation seds
    (as_list observations) coadd0 bg_cutoff0 = Ok (coadd, bg_cutoff) ->
  apply_constraints (Num := real) prox_uncentered_symmetry
    prox_weighted_monotonic center coadd symmetric monotonic min_grad
    = Ok morph ->
  pixel_at (Num := real) morph center = Some v ->
  (bg_cutoff * thresh < v)%R -> (0 < v)%R ->
  (forall x, In x (flatten morph) -> x <= v)%R ->
  exists (m : @Image real) (n : nat),
    init_extended_source (Num := real) interpolate_observation
      prox_uncentered_symmetry prox_weighted_monotonic sky_coord frame
      observations coadd0 bg_cutoff0 thresh symmetric monotonic min_grad
    = Ok (List.concat seds, m,
          Box_from_bounds
            [(0, frame_C frame);
             (fst center - 8 * 2 ^ Z.of_nat n, fst center + 8 * 2 ^ Z.of_nat n);
             (snd center - 8 * 2 ^ Z.of_nat n, snd center + 8 * 2 ^ Z.of_nat n)])
    /\
    (* the center pixel, in the coordinates of the box *)
    index2 m (8 * 2 ^ Z.of_nat n, 8 * 2 ^ Z.of_nat n) = Ok 1%R /\
    amax (Num := real) (flatten m) = Ok 1%R.
Proof.
  intros center Hseds Hne Hcoadd Hproj Hv Hcut Hpos Hmax.
  destruct (trim_morphology_peak sky_coord frame morph bg_cutoff thresh v
              Hv Hcut Hpos Hmax) as (m & n & Htrim & Hc & Hm).
  exists m, n. split; [|auto].
  unfold init_extended_source. rewrite Hseds. cbn [bind].
  destruct seds as [|s seds']; [congruence|]. cbn [bind].
  rewrite Hcoadd. cbn [bind]. fold center. rewrite Hproj. cbn [bind].
  rewrite Htrim. reflexivity.
Qed.
End ExtendedPeak.

Lemma init_extended_source_peak_witness :
  exists (m : @Image real) (n : nat),
    init_extended_source (Num := real) Exact.interpolate
      (fun X _ _ _ => X) (fun _ _ _ _ X _ => flatten X) Exact.sky
      (Exact.frame None) (one_observation (Exact.obs [[[5%R]]] None))
      (Some [[3%R]]) (Some 1%R) 2%R false false 0%R
    = Ok ([5%R], m,
          Box_from_bounds
            [(0, 1); (0 - 8 * 2 ^ Z.of_nat n, 0 + 8 * 2 ^ Z.of_nat n);
             (0 - 8 * 2 ^ Z.of_nat n, 0 + 8 * 2 ^ Z.of_nat n)]) /\
    index2 m (8 * 2 ^ Z.of_nat n, 8 * 2 ^ Z.of_nat n) = Ok 1%R /\
    amax (Num := real) (flatten m) = Ok 1%R.
Proof.
  apply (init_extended_source_peak Exact.interpolate
           (fun X _ _ _ => X) (fun _ _ _ _ X _ => flatten X) Exact.sky
           (Exact.frame None) (one_observation (Exact.obs [[[5%R]]] None))
           (Some [[3%R]]) (Some 1%R) 2%R false false 0%R
           [[5%R]] [[3%R]] [[3%R]] 1%R 3%R).
  - reflexivity.
  - discriminate.
  - reflexivity.
  - reflexivity.
  - reflexivity.
  - lra.
  - lra.
  - intros x [<-|[]]. lra.
Defined.

(** in binary64: a coadd with flux above the threshold and positive flux at
    the center pixel (1, 1), whose brightest pixel lies next to the center;
    the returned morphology is 1 at the center and its maximum is 2 *)
Lemma extended_source_peak_off_center :
  existsb (fun x => @gtb float64 x (0.5 * 1)%float)
          (flatten Scene.off_center_coadd) = true /\
  index2 Scene.off_center_coadd (1, 1) = Ok 1%float /\
  match init_extended_source (Num := float64) Scene.interpolate
          Scene.symmetry Scene.monotonic Scene.sky Scene.frame
          (one_observation Scene.obs) (Some Scene.off_center_coadd)
          (Some 0.5%float) 1%float false false Scene.min_grad
  with
  | Ok (_, morph, _) =>
      index2 morph (8, 8) = Ok 1%float /\
      amax (Num := float64) (flatten morph) = Ok 2%float
  | Raise _ => False
  end.
Proof. vm_compute. repeat split. Qed.

(** with the projections on: once no pixel may exceed the faint center,
    nothing is left above the threshold, and the morphology is returned as
    it is, without normalisation *)
Example extended_source_no_flux_after_projection :
  match init_extended_source (Num := float64) Scene.interpolate
          Scene.symmetry Scene.monotonic_cap Scene.sky Scene.frame
          (one_observation Scene.obs) (Some Scene.faint_center_coadd)
          (Some 0.5%float) 1%float true true Scene.min_grad
  with
  | Ok (_, morph, _) =>
      index2 morph (8, 8) = Ok 0.25%float /\
      amax (Num := float64) (flatten morph) = Ok 0.25%float
  | Raise _ => False
  end.
Proof. vm_compute. repeat split. Qed.

(* ------------------------------------------------------------------------- *)
(** * Further properties of the initialisers *)

Lemma flatten_map2d {A B : Type} (f : A -> B) (m : list (list A)) :
  flatten (map2d f m) = map f (flatten m).
Proof. unfold flatten, map2d. now rewrite concat_map. Qed.

Lemma zrange_length (lo hi : Z) : List.length (zrange lo hi) = Z.to_nat (hi - lo).
Proof. unfold zrange. now rewrite length_map, length_seq. Qed.

Section TrimMore.
Context {Num : Scalar}.

Lemma mask_sum_zero (f : num -> bool) (im : Image) :
  (forall x, In x (flatten im) -> f x = false) -> mask_sum (map2d f im) = 0.
Proof.
  intros H. unfold mask_sum. rewrite flatten_map2d.
  replace (filter (fun b : bool => b) (map f (flatten im))) with (@nil bool);
    [reflexivity|].
  symmetry. induction (flatten im) as [|x l IH]; simpl; [reflexivity|].
  rewrite (H x) by (now left). apply IH. intros y Hy. apply H. now right.
Qed.

Lemma extract2_shape (ys xs : Z * Z) (im : Image) :
  List.length (extract2 ys xs im) = Z.to_nat (snd ys - fst ys) /\
  Forall (fun row => List.length row = Z.to_nat (snd xs - fst xs))
         (extract2 ys xs im).
Proof.
  unfold extract2. split.
  - now rewrite length_map, zrange_length.
  - apply Forall_forall. intros row Hrow.
    apply in_map_iff in Hrow as [y [<- _]].
    now rewrite length_map, zrange_length.
Qed.

(** every result of [trim_morphology] is the part of an image inside a box
    of half side [8 * 2^n] around the center *)
Lemma trim_morphology_result (sky : SkyCoord) (frame : Frame) (morph : Image)
    (bg_cutoff thresh : num) (m : Image) (bbox : Box) :
  trim_morphology sky frame morph bg_cutoff thresh = Ok (m, bbox) ->
  let c := get_pixel frame sky in
  exists (n : nat) (morph' : Image),
    m = extract2 (fst c - 8 * 2 ^ Z.of_nat n, fst c + 8 * 2 ^ Z.of_nat n)
                 (snd c - 8 * 2 ^ Z.of_nat n, snd c + 8 * 2 ^ Z.of_nat n) morph' /\
    bbox = Box_from_bounds
             [(0, frame_C frame);
              (fst c - 8 * 2 ^ Z.of_nat n, fst c + 8 * 2 ^ Z.of_nat n);
              (snd c - 8 * 2 ^ Z.of_nat n, snd c + 8 * 2 ^ Z.of_nat n)].
Proof.
  intros H c.
  destruct (Z.ltb_spec 0 (mask_sum (map2d (fun x => gtb x (mul bg_cutoff thresh))
                                      morph))) as [Hpos|Hzero].
  - destruct (index2 morph c) as [v|e] eqn:Hc.
    + destruct (trim_morphology_normalised sky frame morph bg_cutoff thresh v
                  Hpos Hc) as [n Hn].
      rewrite Hn in H. injection H as <- <-.
      exists n. eexists. split; reflexivity.
    + exfalso. unfold trim_morphology in H. fold c in H.
      destruct (0 <? mask_sum _) eqn:E; [|lia].
      rewrite index2_map2d, Hc in H. discriminate.
  - unfold trim_morphology in H. fold c in H.
    destruct (Z.ltb_spec 0 (mask_sum (map2d (fun x => gtb x (mul bg_cutoff thresh))
                                        morph))); [lia|].
    cbn [bind Box_extract_from Box_from_bounds bounds] in H.
    injection H as <- <-. exists O, morph. split; reflexivity.
Qed.
End TrimMore.

Section TrimTheorems.
Context {Num : Scalar}.

(** X7.  Whenever [trim_morphology] returns, the morphology it returns is a
    square image whose side is 16 times a power of two, and the box
    returned with it has exactly that shape in every channel of the frame:
    array and box agree. *)
Theorem trim_morphology_shape (sky : SkyCoord) (frame : Frame) (morph : Image)
    (bg_cutoff thresh : num) (m : Image) (bbox : Box) :
  trim_morphology sky frame morph bg_cutoff thresh = Ok (m, bbox) ->
  exists n : nat,
    len m = 16 * 2 ^ Z.of_nat n /\
    Forall (fun row => len row = 16 * 2 ^ Z.of_nat n) m /\
    Box_shape bbox = [frame_C frame; 16 * 2 ^ Z.of_nat n; 16 * 2 ^ Z.of_nat n].
Proof.
  intros H. apply trim_morphology_result in H as (n & morph' & -> & ->).
  exists n.
  assert (Hp : 0 < 2 ^ Z.of_nat n) by (apply Z.pow_pos_nonneg; lia).
  set (c := get_pixel frame sky).
  destruct (extract2_shape (fst c - 8 * 2 ^ Z.of_nat n, fst c + 8 * 2 ^ Z.of_nat n)
              (snd c - 8 * 2 ^ Z.of_nat n, snd c + 8 * 2 ^ Z.of_nat n) morph')
    as [Hrows Hcols].
  cbn [fst snd] in *. clearbody c.
  set (p := 2 ^ Z.of_nat n) in *. clearbody p. repeat split.
  - unfold len. rewrite Hrows. lia.
  - eapply Forall_impl; [|exact Hcols]. intros row Hrow. cbn beta in Hrow.
    unfold len. rewrite Hrow. lia.
  - unfold Box_shape, Box_from_bounds. cbn [bounds map fst snd].
    f_equal; [lia|]. f_equal; [lia|]. f_equal; lia.
Qed.

(** X8.  When no pixel is above [bg_cutoff * thresh], [trim_morphology] does
    not raise: it returns the default box of 16 pixels around the center
    and the morphology cut out as it is, neither thresholded nor
    normalised. *)
Theorem trim_morphology_no_flux (sky : SkyCoord) (frame : Frame)
    (morph : Image) (bg_cutoff thresh : num) :
  (forall x, In x (flatten morph) -> gtb x (mul bg_cutoff thresh) = false) ->
  let c := get_pixel frame sky in
  trim_morphology sky frame morph bg_cutoff thresh
  = Ok (extract2 (fst c - 8, fst c + 8) (snd c - 8, snd c + 8) morph,
        Box_from_bounds
          [(0, frame_C frame); (fst c - 8, fst c + 8); (snd c - 8, snd c + 8)]).
Proof.
  intros H c. unfold trim_morphology. fold c.
  rewrite (mask_sum_zero (fun x => gtb x (mul bg_cutoff thresh)) morph H).
  reflexivity.
Qed.

(** X9.  When the tight box of the pixels that survive the threshold contains
    the center, the box returned by [trim_morphology] covers that tight
    box, and it is the smallest box of half side [8 * 2^n] around the
    center that does: the box of half that size does not cover it
    (unless the box has the default size). *)
Theorem trim_morphology_covers_flux (sky : SkyCoord) (frame : Frame)
    (morph : Image) (bg_cutoff thresh v : num) :
  let c := get_pixel frame sky in
  let cut := mul bg_cutoff thresh in
  let normalised :=
    map2d (fun x => div (if gtb x cut then x else zero)
                        (if gtb v cut then v else zero)) morph in
  0 < mask_sum (map2d (fun x => gtb x cut) morph) ->
  index2 morph c = Ok v ->
  Box_contains (Box_from_data normalised zero) [fst c; snd c] = true ->
  exists (n : nat) (m : Image) (y0 y1 x0 x1 : Z),
    let h := 8 * 2 ^ Z.of_nat n in
    bounds (Box_from_data normalised zero) = [(y0, y1); (x0, x1)] /\
    trim_morphology sky frame morph bg_cutoff thresh
    = Ok (m, Box_from_bounds
               [(0, frame_C frame); (fst c - h, fst c + h);
                (snd c - h, snd c + h)]) /\
    (fst c - h <= y0 /\ y1 <= fst c + h /\
     snd c - h <= x0 /\ x1 <= snd c + h) /\
    (n = O \/
     ~ (fst c - h / 2 <= y0 /\ y1 <= fst c + h / 2 /\
        snd c - h / 2 <= x0 /\ x1 <= snd c + h / 2)).
Proof.
  intros c cut normalised Hmask Hc Hcont.
  assert (Hhalf : forall n : nat, 16 * 2 ^ Z.of_nat n / 2 = 8 * 2 ^ Z.of_nat n).
  { intros n. replace (16 * 2 ^ Z.of_nat n) with (8 * 2 ^ Z.of_nat n * 2) by lia.
    apply Z.div_mul. lia. }
  destruct (Box_from_data_bounds normalised zero) as [[y0 y1] [[x0 x1] Hb]].
  unfold trim_morphology. fold c. fold cut.
  destruct (Z.ltb_spec 0 (mask_sum (map2d (fun x => gtb x cut) morph))); [|lia].
  rewrite index2_map2d, Hc. cbn [bind]. rewrite map2d_map2d. fold normalised.
  rewrite Hcont. unfold Box_start, Box_stop. rewrite Hb. cbn [map fst snd].
  change (py_index [y0; x0] (-2)) with (Ok y0).
  change (py_index [y1; x1] 0) with (Ok y1).
  change (py_index [y0; x0] (-1)) with (Ok x0).
  change (py_index [y1; x1] 1) with (Ok x1).
  cbn [bind].
  set (size := 2 * Z.max (Z.max (fst c - y0) (y1 - fst c))
                         (Z.max (snd c - x0) (x1 - snd c))).
  destruct (grow_boxsize_spec (Z.to_nat size) 16 size) as [n [Hn [Hle Hmin]]];
    [lia|lia|].
  rewrite Hn in *. rewrite Hhalf.
  exists n. eexists. exists y0, y1, x0, x1. cbn zeta.
  split; [reflexivity|]. split; [reflexivity|].
  assert (Hp : 0 < 2 ^ Z.of_nat n) by (apply Z.pow_pos_nonneg; lia).
  split; [unfold size in Hle; lia|].
  destruct Hmin as [->|Hmin]; [now left|].
  destruct n as [|n]; [now left|]. right.
  replace (Z.of_nat (S n)) with (Z.succ (Z.of_nat n)) in * by lia.
  replace (Z.succ (Z.of_nat n) - 1) with (Z.of_nat n) in Hmin by lia.
  rewrite Z.pow_succ_r by lia.
  replace (8 * (2 * 2 ^ Z.of_nat n) / 2) with (8 * 2 ^ Z.of_nat n).
  2:{ replace (8 * (2 * 2 ^ Z.of_nat n)) with (8 * 2 ^ Z.of_nat n * 2) by lia.
      symmetry. apply Z.div_mul. lia. }
  unfold size in Hmin. lia.
Qed.
End TrimTheorems.

Lemma trim_morphology_shape_witness :
  exists n : nat,
    result_map (fun mb => (len (fst mb), Box_shape (snd mb)))
      (trim_morphology (Num := float64) Scene.sky Scene.frame Scene.image
         0.25%float 1%float)
    = Ok (16 * 2 ^ Z.of_nat n, [1; 16 * 2 ^ Z.of_nat n; 16 * 2 ^ Z.of_nat n]).
Proof.
  destruct (trim_morphology (Num := float64) Scene.sky Scene.frame Scene.image
              0.25%float 1%float) as [[m bbox]|e] eqn:E.
  - destruct (trim_morphology_shape _ _ _ _ _ _ _ E) as (n & Hm & _ & Hb).
    exists n. cbn [result_map fst snd]. rewrite Hm, Hb. reflexivity.
  - vm_compute in E. discriminate E.
Defined.

Lemma trim_morphology_no_flux_witness :
  trim_morphology (Num := float64) Scene.sky Scene.frame Scene.image
    8%float 1%float
  = Ok (extract2 (Num := float64) (1 - 8, 1 + 8) (1 - 8, 1 + 8) Scene.image,
        Box_from_bounds [(0, 1); (1 - 8, 1 + 8); (1 - 8, 1 + 8)]).
Proof.
  apply (trim_morphology_no_flux (Num := float64) Scene.sky Scene.frame
           Scene.image 8%float 1%float).
  intros x Hx. vm_compute in Hx.
  repeat (destruct Hx as [<-|Hx]; [vm_compute; reflexivity|]).
  destruct Hx.
Defined.

Lemma trim_morphology_covers_flux_witness :
  exists (n : nat) (m : @Image float64) (y0 y1 x0 x1 : Z),
    trim_morphology (Num := float64) Scene.sky Scene.frame Scene.image
      0.25%float 1%float
    = Ok (m, Box_from_bounds
               [(0, 1); (1 - 8 * 2 ^ Z.of_nat n, 1 + 8 * 2 ^ Z.of_nat n);
                (1 - 8 * 2 ^ Z.of_nat n, 1 + 8 * 2 ^ Z.of_nat n)]) /\
    1 - 8 * 2 ^ Z.of_nat n <= y0 /\ y1 <= 1 + 8 * 2 ^ Z.of_nat n /\
    1 - 8 * 2 ^ Z.of_nat n <= x0 /\ x1 <= 1 + 8 * 2 ^ Z.of_nat n.
Proof.
  destruct (trim_morphology_covers_flux (Num := float64) Scene.sky Scene.frame
              Scene.image 0.25%float 1%float 4%float)
    as (n & m & y0 & y1 & x0 & x1 & _ & Ht & Hc & _).
  - vm_compute. reflexivity.
  - vm_compute. reflexivity.
  - vm_compute. reflexivity.
  - exists n, m, y0, y1, x0, x1. split; [exact Ht|exact Hc].
Defined.

(* ------------------------------------------------------------------------- *)
(** ** The SED of a source: lengths and errors *)

Lemma length_concat_list_sum {A : Type} (l : list (list A)) :
  List.length (List.concat l) = list_sum (map (@List.length A) l).
Proof.
  induction l as [|x l IH]; simpl; [reflexivity|].
  now rewrite length_app, IH.
Qed.

Section SEDLengths.
Context {Num : Scalar}.

Lemma bcast_left_length (op : num -> num -> num) (xs ys zs : list num) :
  bcast_left op xs ys = Ok zs -> List.length zs = List.length xs.
Proof.
  unfold bcast_left. destruct ys as [|y [|y' ys]].
  - destruct (Nat.eqb_spec (List.length xs) (List.length (@nil num)));
      [|discriminate].
    intros [= <-]. rewrite length_map, length_combine. lia.
  - intros [= <-]. now rewrite length_map.
  - destruct (Nat.eqb_spec (List.length xs) (List.length (y :: y' :: ys)));
      [|discriminate].
    intros [= <-]. rewrite length_map, length_combine. lia.
Qed.

Lemma bcast_left_mismatch (op : num -> num -> num) (xs ys : list num) :
  List.length ys <> 1%nat -> List.length ys <> List.length xs ->
  bcast_left op xs ys = Raise ValueError.
Proof.
  intros H1 Hne. unfold bcast_left. destruct ys as [|y [|y' ys]].
  - destruct (Nat.eqb_spec (List.length xs) (List.length (@nil num)));
      [congruence|reflexivity].
  - now elim H1.
  - destruct (Nat.eqb_spec (List.length xs) (List.length (y :: y' :: ys)));
      [congruence|reflexivity].
Qed.

Lemma get_pixel_sed_length (sky_coord : SkyCoord) (observation : Observation)
    (sed : list num) :
  get_pixel_sed sky_coord observation = Ok sed ->
  List.length sed = List.length (images observation).
Proof. unfold get_pixel_sed. apply mapM_Ok_length. Qed.

Lemma get_psf_sed_length (sky_coord : SkyCoord) (observation : Observation)
    (frame : Frame) (sed : list num) :
  get_psf_sed sky_coord observation frame = Ok sed ->
  List.length sed = List.length (images observation).
Proof.
  unfold get_psf_sed. intros H.
  apply bind_Ok in H as [sed0 [H0 H]]. apply get_pixel_sed_length in H0.
  apply bind_Ok in H as [sed1 [H1 H]].
  assert (Hlen1 : List.length sed1 = List.length sed0).
  { destruct (frame_psf (obs_frame observation)) as [psf|].
    - apply bind_Ok in H1 as [peaks [_ H1]]. eapply bcast_left_length; eauto.
    - now injection H1 as <-. }
  destruct (frame_psf frame) as [psf|].
  - apply bind_Ok in H as [peak [_ H]]. injection H as <-.
    rewrite length_map. congruence.
  - injection H as <-. congruence.
Qed.

Lemma seds_total_channels (sky_coord : SkyCoord) (frame : Frame)
    (observations : list Observation) (seds : list (list num)) :
  mapM (fun obs => get_psf_sed sky_coord obs frame) observations = Ok seds ->
  List.length (List.concat seds) = total_channels observations.
Proof.
  revert seds. induction observations as [|obs l IH]; intros seds H.
  - injection H as <-. reflexivity.
  - cbn [mapM] in H. apply bind_Ok in H as [sed [Hsed H]].
    apply bind_Ok in H as [rest [Hrest H]]. injection H as <-.
    unfold total_channels in *. cbn [List.concat map list_sum].
    rewrite length_app, (IH rest Hrest).
    now rewrite (get_psf_sed_length _ _ _ _ Hsed).
Qed.

Variable interpolate_observation : Observation -> Frame -> Cube.
Variable prox_uncentered_symmetry : Image -> Z -> Z * Z -> string -> Image.
Variable prox_weighted_monotonic :
  Z * Z -> string -> Z * Z -> num -> Image -> Z -> list num.

(** X11.  The SED returned by [init_extended_source] has one entry per channel
    of every observation, in the order of the observations; there is at
    least one observation. *)
Theorem init_extended_source_sed_length
    (sky_coord : SkyCoord) (frame : Frame) (observations : observations_arg)
    (coadd : option Image) (bg_cutoff : option num) (thresh : num)
    (symmetric monotonic : bool) (min_grad : num)
    (sed : list num) (morph : Image) (bbox : Box) :
  init_extended_source interpolate_observation prox_uncentered_symmetry
    prox_weighted_monotonic sky_coord frame observations coadd bg_cutoff
    thresh symmetric monotonic min_grad = Ok (sed, morph, bbox) ->
  as_list observations <> [] /\
  List.length sed = total_channels (as_list observations).
Proof.
  unfold init_extended_source. intros H.
  apply bind_Ok in H as [seds [Hseds H]].
  apply bind_Ok in H as [sed' [Hsed H]].
  apply bind_Ok in H as [[coadd' cut] [_ H]].
  apply bind_Ok in H as [morph' [_ H]].
  apply bind_Ok in H as [[m b] [_ H]]. injection H as <- _ _.
  split.
  - intros Hnil. rewrite Hnil in Hseds. injection Hseds as <-. discriminate.
  - destruct seds as [|s0 seds]; [discriminate|]. injection Hsed as <-.
    exact (seds_total_channels _ _ _ _ Hseds).
Qed.

(** X3.  A PSF model of the observation whose number of channels is neither one
    nor the number of channels of the images cannot be divided out of the
    SED: [get_psf_sed] raises [ValueError]. *)
Theorem get_psf_sed_channel_mismatch
    (sky_coord : SkyCoord) (observation : Observation) (frame : Frame)
    (sed : list num) (psf : PSF) (peaks : list num) :
  get_pixel_sed sky_coord observation = Ok sed ->
  frame_psf (obs_frame observation) = Some psf ->
  psf_peaks psf = Ok peaks ->
  List.length (psf_image psf) <> 1%nat ->
  List.length (psf_image psf) <> List.length (images observation) ->
  get_psf_sed sky_coord observation frame = Raise ValueError.
Proof.
  intros Hsed Hpsf Hpeaks H1 Hne. unfold get_psf_sed.
  rewrite Hsed, Hpsf. cbn [bind]. rewrite Hpeaks. cbn [bind].
  pose proof (get_pixel_sed_length _ _ _ Hsed) as Hl.
  unfold psf_peaks in Hpeaks. apply mapM_Ok_length in Hpeaks.
  rewrite bcast_left_mismatch; [reflexivity| |].
  - now rewrite Hpeaks.
  - now rewrite Hpeaks, Hl.
Qed.

(** X12.  Without a cutoff a caller's coadd is refused: once the SEDs are read,
    [init_extended_source] raises [AttributeError]. *)
Theorem init_extended_source_requires_bg_cutoff
    (sky_coord : SkyCoord) (frame : Frame) (observations : observations_arg)
    (coadd : Image) (thresh : num) (symmetric monotonic : bool)
    (min_grad : num) (seds : list (list num)) :
  mapM (fun obs => get_psf_sed sky_coord obs frame) (as_list observations)
    = Ok seds ->
  as_list observations <> [] ->
  init_extended_source interpolate_observation prox_uncentered_symmetry
    prox_weighted_monotonic sky_coord frame observations (Some coadd) None
    thresh symmetric monotonic min_grad = Raise AttributeError.
Proof.
  intros Hseds Hne. unfold init_extended_source. rewrite Hseds. cbn [bind].
  destruct seds as [|s0 seds].
  - apply mapM_Ok_length in Hseds. destruct (as_list observations);
      [now elim Hne|discriminate].
  - reflexivity.
Qed.

(** X13.  Without a coadd the weights of every observation are needed: if one
    observation has none, [init_extended_source] raises [AttributeError],
    whatever cutoff is passed. *)
Theorem init_extended_source_requires_weights
    (sky_coord : SkyCoord) (frame : Frame) (observations : observations_arg)
    (bg_cutoff : option num) (thresh : num) (symmetric monotonic : bool)
    (min_grad : num) (seds : list (list num)) (obs : Observation) :
  mapM (fun obs => get_psf_sed sky_coord obs frame) (as_list observations)
    = Ok seds ->
  In obs (as_list observations) -> weights obs = None ->
  init_extended_source interpolate_observation prox_uncentered_symmetry
    prox_weighted_monotonic sky_coord frame observations None bg_cutoff
    thresh symmetric monotonic min_grad = Raise AttributeError.
Proof.
  intros Hseds Hin Hw. unfold init_extended_source. rewrite Hseds. cbn [bind].
  destruct seds as [|s0 seds].
  - apply mapM_Ok_length in Hseds. destruct (as_list observations);
      [destruct Hin|discriminate].
  - cbn [bind detection_coadd].
    assert (Hrms : weights_bg_rms (as_list observations) = Raise AttributeError).
    { unfold weights_bg_rms. clear Hseds.
      induction (as_list observations) as [|o l IH]; [destruct Hin|].
      cbn [mapM]. destruct Hin as [->|Hin].
      - rewrite Hw. reflexivity.
      - destruct (weights o); [|reflexivity]. cbn [bind].
        rewrite (IH Hin). reflexivity. }
    rewrite Hrms. reflexivity.
Qed.
End SEDLengths.

Lemma init_extended_source_sed_length_witness :
  exists sed morph bbox,
    init_extended_source (Num := float64) Scene.interpolate Scene.symmetry
      Scene.monotonic Scene.sky Scene.frame
      (observation_list [Scene.obs; Scene.obs]) None None 1%float true true
      Scene.min_grad = Ok (sed, morph, bbox) /\
    List.length sed = 2%nat.
Proof.
  destruct (init_extended_source (Num := float64) Scene.interpolate
              Scene.symmetry Scene.monotonic Scene.sky Scene.frame
              (observation_list [Scene.obs; Scene.obs]) None None 1%float
              true true Scene.min_grad) as [[[sed morph] bbox]|e] eqn:E.
  - exists sed, morph, bbox. split; [reflexivity|].
    exact (proj2 (init_extended_source_sed_length _ _ _ _ _ _ _ _ _ _ _ _ _ _ _ E)).
  - vm_compute in E. discriminate E.
Defined.

Lemma get_psf_sed_channel_mismatch_witness :
  get_psf_sed (Num := float64) Scene.sky
    (@Build_Observation float64 true
       (@Build_Frame float64 (fun _ => (1, 1)) 2
          (Some (@Build_PSF float64
                   [[[1%float]]; [[1%float]]; [[1%float]]])))
       [Scene.image; Scene.image] None [])
    Scene.frame
  = Raise ValueError.
Proof.
  eapply (get_psf_sed_channel_mismatch (Num := float64)).
  - vm_compute. reflexivity.
  - reflexivity.
  - vm_compute. reflexivity.
  - cbn. lia.
  - cbn. lia.
Defined.

Lemma init_extended_source_requires_bg_cutoff_witness :
  init_extended_source (Num := float64) Scene.interpolate Scene.symmetry
    Scene.monotonic Scene.sky Scene.frame (one_observation Scene.obs)
    (Some Scene.image) None 1%float true true Scene.min_grad
  = Raise AttributeError.
Proof.
  eapply (init_extended_source_requires_bg_cutoff (Num := float64)).
  - vm_compute. reflexivity.
  - discriminate.
Defined.

Lemma init_extended_source_requires_weights_witness :
  init_extended_source (Num := float64) Scene.interpolate Scene.symmetry
    Scene.monotonic Scene.sky Scene.frame
    (observation_list [Scene.obs; Scene.obs_psf1])
    None (Some 1%float) 1%float true true Scene.min_grad
  = Raise AttributeError.
Proof.
  eapply (init_extended_source_requires_weights (Num := float64))
    with (obs := Scene.obs_psf1).
  - vm_compute. reflexivity.
  - right. left. reflexivity.
  - reflexivity.
Defined.

(* ------------------------------------------------------------------------- *)
(** ** The coadd of a source without positive flux *)

Lemma filter_none {A : Type} (p : A -> bool) (l : list A) :
  (forall a, In a l -> p a = false) -> filter p l = [].
Proof.
  induction l as [|a l IH]; simpl; intros H; [reflexivity|].
  rewrite (H a) by auto. apply IH. auto.
Qed.

Lemma foldM_fixed {A B : Type} (f : B -> A -> result B) (l : list A) (b : B) :
  (forall a, In a l -> f b a = Ok b) -> foldM f l b = Ok b.
Proof.
  induction l as [|a l IH]; simpl; intros H; [reflexivity|].
  rewrite (H a) by auto. cbn [bind]. apply IH. auto.
Qed.

Section NoFlux.
Context {Num : Scalar}.
Variable interpolate_observation : Observation -> Frame -> Cube.

Lemma positive_channels_none (sed : list num) :
  Forall (fun s => gtb s zero = false) sed -> positive_channels sed = [].
Proof.
  intros H. unfold positive_channels. rewrite filter_none; [reflexivity|].
  intros [c v] Hin. cbn [snd]. rewrite Forall_forall in H. apply H.
  unfold enumerate in Hin. eapply in_combine_r; eauto.
Qed.

(** with no positive entry in any SED and a valid RMS everywhere, the loop
    of [build_sed_coadd] collects nothing, and the cutoff is the quotient
    of two empty sums *)
Lemma build_sed_coadd_no_positive_sed
    (seds bg_rmses : list (list num)) (observations : list Observation)
    (obs_ref : Observation) :
  reference_observation observations = Ok obs_ref ->
  List.length seds = List.length observations ->
  List.length bg_rmses = List.length observations ->
  Forall (Forall (fun s => gtb s zero = false)) seds ->
  Forall (Forall (fun r => leb r zero = false)) bg_rmses ->
  build_sed_coadd interpolate_observation seds bg_rmses observations
  = Ok ([], div (fsqrt zero) zero).
Proof.
  intros Href Hls Hlr Hs Hr. unfold build_sed_coadd. rewrite Href.
  cbn [bind]. rewrite foldM_fixed; [reflexivity|].
  intros [i obs] Hin. apply In_enumerate in Hin as [Hi Hn].
  assert (Hlt : (Z.to_nat i < List.length observations)%nat)
    by (apply nth_error_Some; congruence).
  destruct (py_index_in_range seds i) as (sed & Hsed & Hsn);
    [unfold len; lia|].
  destruct (py_index_in_range bg_rmses i) as (rms & Hrms & Hrn);
    [unfold len; lia|].
  unfold coadd_step. cbn [fst snd]. rewrite Hsed, Hrms. cbn [bind].
  apply nth_error_In in Hsn, Hrn.
  rewrite Forall_forall in Hs, Hr.
  replace (existsb (fun r => leb r zero) rms) with false.
  2:{ symmetry. apply not_true_is_false. intros Hex.
      apply existsb_exists in Hex as [r [Hin Hle]].
      specialize (Hr rms Hrn). rewrite Forall_forall in Hr.
      rewrite (Hr r Hin) in Hle. discriminate. }
  rewrite (positive_channels_none sed (Hs sed Hsn)).
  destruct (is_Observation obs); reflexivity.
Qed.
End NoFlux.

(** X4.  In binary64, when no channel of any observation has a positive SED
    entry (and every RMS is valid), [build_sed_coadd] returns, and the
    cutoff it returns is NaN. *)
Theorem build_sed_coadd_nan_cutoff
    (interpolate_observation :
       @Observation float64 -> @Frame float64 -> @Cube float64)
    (seds bg_rmses : list (list float))
    (observations : list (@Observation float64))
    (obs_ref : @Observation float64) :
  reference_observation observations = Ok obs_ref ->
  List.length seds = List.length observations ->
  List.length bg_rmses = List.length observations ->
  Forall (Forall (fun s => @gtb float64 s (@zero float64) = false)) seds ->
  Forall (Forall (fun r => @leb float64 r (@zero float64) = false)) bg_rmses ->
  exists detect bg_cutoff,
    build_sed_coadd (Num := float64) interpolate_observation seds bg_rmses
      observations = Ok (detect, bg_cutoff) /\
    PrimFloat.is_nan bg_cutoff = true.
Proof.
  intros Href Hls Hlr Hs Hr.
  exists [], (@div float64 (@fsqrt float64 (@zero float64)) (@zero float64)).
  split; [|vm_compute; reflexivity].
  eapply (build_sed_coadd_no_positive_sed (Num := float64)); eauto.
Qed.

Lemma build_sed_coadd_nan_cutoff_witness :
  exists detect bg_cutoff,
    build_sed_coadd (Num := float64) Scene.interpolate [[(-1)%float]]
      [[1%float]] [Scene.obs] = Ok (detect, bg_cutoff) /\
    PrimFloat.is_nan bg_cutoff = true.
Proof.
  apply (build_sed_coadd_nan_cutoff Scene.interpolate [[(-1)%float]]
           [[1%float]] [Scene.obs] Scene.obs).
  - reflexivity.
  - reflexivity.
  - reflexivity.
  - repeat constructor.
  - repeat constructor.
Defined.

(* ------------------------------------------------------------------------- *)
(** ** A NaN cutoff in [trim_morphology] *)

Lemma SFeqb_refl_nan (s : SpecFloat.spec_float) :
  SpecFloat.SFeqb s s = false -> s = SpecFloat.S754_nan.
Proof.
  destruct s as [sg|sg| |sg m e]; unfold SpecFloat.SFeqb; simpl;
    try reflexivity.
  - destruct sg; discriminate.
  - destruct sg; simpl; discriminate.
  - destruct sg; simpl; rewrite Z.compare_refl; rewrite ?Pos.compare_refl;
      simpl; try discriminate.
    all: rewrite Pos.compare_refl; simpl; discriminate.
Qed.

Lemma is_nan_spec (c : float) :
  PrimFloat.is_nan c = true -> FloatOps.Prim2SF c = SpecFloat.S754_nan.
Proof.
  unfold PrimFloat.is_nan. rewrite FloatAxioms.eqb_spec. intros H.
  apply SFeqb_refl_nan. now apply negb_true_iff in H.
Qed.

(** nothing is greater than a multiple of NaN *)
Lemma gtb_nan_multiple (c t x : float) :
  PrimFloat.is_nan c = true -> @gtb float64 x (@mul float64 c t) = false.
Proof.
  intros H. cbn [gtb mul float64].
  rewrite FloatAxioms.ltb_spec, FloatAxioms.mul_spec, (is_nan_spec c H).
  reflexivity.
Qed.

(** X10.  In binary64 a NaN cutoff passes no pixel: [trim_morphology] takes the
    branch "no flux above threshold" and returns the default box of 16
    pixels around the center, with the morphology cut out as it is. *)
Theorem trim_morphology_nan_cutoff
    (sky : @SkyCoord float64) (frame : @Frame float64)
    (morph : @Image float64) (bg_cutoff thresh : float) :
  PrimFloat.is_nan bg_cutoff = true ->
  let c := get_pixel frame sky in
  trim_morphology (Num := float64) sky frame morph bg_cutoff thresh
  = Ok (extract2 (fst c - 8, fst c + 8) (snd c - 8, snd c + 8) morph,
        Box_from_bounds
          [(0, frame_C frame); (fst c - 8, fst c + 8); (snd c - 8, snd c + 8)]).
Proof.
  intros Hnan c. unfold trim_morphology. fold c.
  rewrite (mask_sum_zero (Num := float64)
             (fun x => @gtb float64 x (@mul float64 bg_cutoff thresh)) morph).
  - reflexivity.
  - intros x _. now apply gtb_nan_multiple.
Qed.

Lemma trim_morphology_nan_cutoff_witness :
  trim_morphology (Num := float64) Scene.sky Scene.frame Scene.image
    PrimFloat.nan 1%float
  = Ok (extract2 (Num := float64) (1 - 8, 1 + 8) (1 - 8, 1 + 8) Scene.image,
        Box_from_bounds [(0, 1); (1 - 8, 1 + 8); (1 - 8, 1 + 8)]).
Proof.
  apply (trim_morphology_nan_cutoff Scene.sky Scene.frame Scene.image
           PrimFloat.nan 1%float).
  reflexivity.
Defined.

(* ------------------------------------------------------------------------- *)
(** ** The cutoff of the coadd in closed form *)

Lemma combine_map_combine {A B C : Type} (f : A * B -> C) (a : list A)
    (b : list B) :
  combine (map f (combine a b)) b
  = map (fun ab => (f ab, snd ab)) (combine a b).
Proof.
  revert b. induction a as [|x a IH]; intros [|y b]; simpl; try reflexivity.
  f_equal. apply IH.
Qed.

Lemma spec_bg_cutoff_inverse_snr (sed rms : list R) :
  Forall (fun r => 0 < r)%R rms -> (0 < snr2 sed rms)%R ->
  spec_bg_cutoff sed rms = (/ sqrt (snr2 sed rms))%R.
Proof.
  intros Hr Hpos. unfold spec_bg_cutoff. cbv zeta.
  rewrite combine_map_combine, map_map. cbn [fst snd].
  fold (rsum (map (fun sr : R * R => (fst sr ^ 2 / snd sr ^ 2)%R)
                  (combine sed rms))).
  fold (snr2 sed rms).
  replace (map (fun x : R * R => ((fst x / snd x ^ 2 * snd x) ^ 2)%R)
               (combine sed rms))
    with (map (fun sr : R * R => (fst sr ^ 2 / snd sr ^ 2)%R) (combine sed rms)).
  - fold (rsum (map (fun sr : R * R => (fst sr ^ 2 / snd sr ^ 2)%R)
                    (combine sed rms))).
    fold (snr2 sed rms).
    set (S := snr2 sed rms) in *.
    assert (Hs : (0 < sqrt S)%R) by now apply sqrt_lt_R0.
    assert (Hsq : (sqrt S * sqrt S = S)%R) by (apply sqrt_sqrt; lra).
    rewrite <- Hsq at 2. field. lra.
  - apply map_ext_in. intros [s r] Hin. cbn [fst snd].
    apply in_combine_r in Hin. rewrite Forall_forall in Hr.
    specialize (Hr r Hin). field. lra.
Qed.

Section CutoffClosedForm.
Variable interpolate_observation : @Observation real -> @Frame real -> @Cube real.

(** X5.  In exact arithmetic, with positive SEDs and positive RMS everywhere,
    the cutoff returned by [build_sed_coadd] is the inverse of the total
    signal-to-noise ratio of the channels:
    [1 / sqrt(sum(sed^2 / rms^2))].  It does not depend on the images. *)
Theorem build_sed_coadd_cutoff_inverse_snr
    (seds bg_rmses : list (list R)) (observations : list (@Observation real))
    (detect : @Image real) (bg_cutoff : R) :
  coadd_inputs_aligned interpolate_observation seds bg_rmses observations ->
  Forall (Forall (fun s => 0 < s)%R) seds ->
  Forall (Forall (fun r => 0 < r)%R) bg_rmses ->
  List.concat seds <> [] ->
  build_sed_coadd interpolate_observation seds bg_rmses observations
    = Ok (detect, bg_cutoff) ->
  bg_cutoff
  = (/ sqrt (snr2 (List.concat seds) (List.concat bg_rmses)))%R.
Proof.
  intros Hal Hps Hpr Hne H.
  destruct (build_sed_coadd_cutoff_value interpolate_observation seds bg_rmses
              observations detect bg_cutoff Hal Hps Hpr Hne H) as [-> _].
  pose proof (Forall_concat _ _ Hps) as Hs.
  pose proof (Forall_concat _ _ Hpr) as Hr.
  destruct Hal as [_ Hlens].
  pose proof (Forall2_length_concat _ _ Hlens) as Hlen.
  apply spec_bg_cutoff_inverse_snr; [assumption|].
  unfold snr2, rsum. apply sum_positive.
  - intros Hnil. apply map_eq_nil in Hnil.
    destruct (List.concat seds) as [|s l]; [now elim Hne|].
    destruct (List.concat bg_rmses); discriminate.
  - apply Forall_map_combine; try assumption.
    intros x y Hx Hy. cbn [fst snd]. apply Rdiv_lt_0_compat; nra.
Qed.
End CutoffClosedForm.

Lemma build_sed_coadd_cutoff_inverse_snr_witness :
  exists detect bg_cutoff,
    build_sed_coadd (Num := real) Exact.interpolate [[2%R]] [[1%R]]
      [Exact.obs [[[5%R]]] None] = Ok (detect, bg_cutoff) /\
    bg_cutoff = (/ sqrt (snr2 [2%R] [1%R]))%R.
Proof.
  assert (Hrun : exists detect bg_cutoff,
            build_sed_coadd (Num := real) Exact.interpolate [[2%R]] [[1%R]]
              [Exact.obs [[[5%R]]] None] = Ok (detect, bg_cutoff)).
  { unfold build_sed_coadd, coadd_step, positive_channels. simpl.
    rewrite (Rleb_false 1 0) by lra. simpl.
    rewrite (Rgtb_true 2 0) by lra.
    simpl. eauto. }
  destruct Hrun as (detect & bg_cutoff & Hrun).
  exists detect, bg_cutoff. split; [assumption|].
  apply (build_sed_coadd_cutoff_inverse_snr Exact.interpolate [[2%R]] [[1%R]]
           [Exact.obs [[[5%R]]] None] detect bg_cutoff).
  - split.
    + exists (Exact.obs [[[5%R]]] None). split; [reflexivity|].
      constructor; [reflexivity|constructor].
    + constructor; [reflexivity|constructor].
  - repeat constructor. lra.
  - repeat constructor. lra.
  - discriminate.
  - exact Hrun.
Defined.

(* ------------------------------------------------------------------------- *)
(** ** [get_best_fit_seds] with one component is a least-squares fit *)

Lemma dotp_real (a b : list R) :
  List.length a = List.length b ->
  dotp (Num := real) a b
  = Ok (rsum (map (fun xy => (fst xy * snd xy)%R) (combine a b))).
Proof.
  intros H. unfold dotp. change (@num real) with R.
  rewrite H, Nat.eqb_refl. now rewrite fsum_real.
Qed.

Lemma residual_expand (m d : list R) (a : R) :
  List.length m = List.length d ->
  residual m d a
  = (rsum (map (fun xy => (fst xy * snd xy)%R) (combine d d))
     - 2 * a * rsum (map (fun xy => (fst xy * snd xy)%R) (combine m d))
     + a * a * rsum (map (fun xy => (fst xy * snd xy)%R) (combine m m)))%R.
Proof.
  unfold residual, rsum. revert d. induction m as [|x m IH]; intros [|y d] H;
    try discriminate; cbn [combine map fold_right fst snd]; [lra|].
  injection H as H. rewrite (IH d H). ring.
Qed.

Lemma sum_squares_nonneg (m : list R) :
  (0 <= rsum (map (fun xy => (fst xy * snd xy)%R) (combine m m)))%R.
Proof. unfold rsum. induction m as [|x m IH]; simpl; [lra|]. nra. Qed.

Lemma sum_squares_positive (m : list R) (x : R) :
  In x m -> x <> 0%R ->
  (0 < rsum (map (fun xy => (fst xy * snd xy)%R) (combine m m)))%R.
Proof.
  induction m as [|y m IH]; intros Hin Hx; [destruct Hin|].
  pose proof (sum_squares_nonneg m) as Hm. unfold rsum in *. simpl.
  destruct Hin as [->|Hin].
  - assert (0 < x * x)%R by nra. lra.
  - specialize (IH Hin Hx). nra.
Qed.

Lemma least_squares_amplitude (m d : list R) (a : R) :
  List.length m = List.length d ->
  let g := rsum (map (fun xy => (fst xy * snd xy)%R) (combine m m)) in
  let p := rsum (map (fun xy => (fst xy * snd xy)%R) (combine m d)) in
  (0 < g)%R ->
  (residual m d (/ g * p) <= residual m d a)%R.
Proof.
  intros Hlen g p Hg. rewrite !residual_expand by assumption.
  fold g. fold p. clearbody g p.
  assert (Hne : g <> 0%R) by lra.
  assert (H : (a * a * g - 2 * a * p
               - (/ g * p * (/ g * p) * g - 2 * (/ g * p) * p)
               = g * (a - / g * p) * (a - / g * p))%R) by (field; exact Hne).
  assert (0 <= g * (a - / g * p) * (a - / g * p))%R.
  { rewrite Rmult_assoc. apply Rmult_le_pos; [lra|]. apply Rle_0_sqr. }
  lra.
Qed.

Section LeastSquares.
Variable linalg_inv : list (list R) -> result (list (list R)).

(** [np.linalg.inv] inverts a 1x1 matrix with a non-zero entry *)
Hypothesis linalg_inv_1x1 :
  forall g : R, g <> 0%R -> linalg_inv [[g]] = Ok [[(/ g)%R]].

Lemma dot_T_row (fm : list R) (data : list (list R)) :
  Forall (fun d => List.length d = List.length fm) data ->
  dot_T (Num := real) [fm] data
  = Ok [map (fun d => rsum (map (fun xy => (fst xy * snd xy)%R) (combine fm d)))
            data].
Proof.
  intros H. unfold dot_T. cbn [mapM].
  assert (Hrow : mapM (fun b => dotp (Num := real) fm b) data
                 = Ok (map (fun d => rsum (map (fun xy => (fst xy * snd xy)%R)
                                               (combine fm d))) data)).
  { induction H as [|d data Hd H IH]; [reflexivity|].
    cbn [mapM map]. rewrite dotp_real by congruence. cbn [bind].
    change (@num real) with R in *. rewrite IH. reflexivity. }
  change (@num real) with R in *. rewrite Hrow. reflexivity.
Qed.

Lemma dot_scalar_row (k : R) (row : list R) :
  dot (Num := real) [[k]] [row] = Ok [map (fun x => (k * x)%R) row].
Proof.
  unfold dot, dot_T. cbn [transpose mapM].
  assert (Hrow : mapM (fun b => dotp (Num := real) [k] b) (map (fun x => [x]) row)
                 = Ok (map (fun x => (k * x)%R) row)).
  { induction row as [|x row IH]; [reflexivity|].
    cbn [map mapM]. rewrite dotp_real by reflexivity. cbn [bind].
    change (@num real) with R in *. rewrite IH. cbn [bind].
    f_equal. f_equal. unfold rsum. simpl. ring. }
  change (@num real) with R in *. rewrite Hrow. reflexivity.
Qed.

(** X6.  For a single morphology that is not identically zero, and images of
    its size, [get_best_fit_seds] returns one amplitude per channel, and
    each is a least-squares solution: no other amplitude brings the
    morphology closer to the image of that channel. *)
Theorem get_best_fit_seds_least_squares (morph : @Image real)
    (images : @Cube real) (x : R) :
  In x (flatten morph) -> x <> 0%R ->
  Forall (fun im => List.length (flatten im) = List.length (flatten morph))
         images ->
  exists sed : list R,
    get_best_fit_seds (Num := real) linalg_inv [morph] images = Ok [sed] /\
    Forall2 (fun a im =>
               forall a' : R,
                 (residual (flatten morph) (flatten im) a
                  <= residual (flatten morph) (flatten im) a')%R)
            sed images.
Proof.
  intros Hin Hx Hsz.
  set (fm := flatten morph) in *.
  set (g := rsum (map (fun xy => (fst xy * snd xy)%R) (combine fm fm))).
  assert (Hg : (0 < g)%R) by (eapply sum_squares_positive; eauto).
  exists (map (fun im => (/ g * rsum (map (fun xy => (fst xy * snd xy)%R)
                                         (combine fm (flatten im))))%R) images).
  split.
  - unfold get_best_fit_seds. cbn [map]. fold fm.
    pose proof (dot_T_row fm [fm]) as Hgram.
    pose proof (dot_T_row fm (map flatten images)) as Hmd.
    pose proof (dot_scalar_row (/ g)) as Hdot.
    change (@num real) with R in *. unfold Image, Cube in *.
    change (@num real) with R in *.
    rewrite Hgram by (constructor; [reflexivity|constructor]).
    cbn [bind map]. fold g.
    rewrite linalg_inv_1x1 by lra. cbn [bind].
    rewrite Hmd by (apply Forall_map; exact Hsz).
    cbn [bind]. rewrite Hdot. now rewrite !map_map.
  - clear - Hsz Hg. induction Hsz as [|im images Him H IH]; [constructor|].
    cbn [map]. constructor; [|exact IH].
    intros a'. apply least_squares_amplitude; [now symmetry|exact Hg].
Qed.
End LeastSquares.

Lemma get_best_fit_seds_least_squares_witness :
  exists sed : list R,
    get_best_fit_seds (Num := real)
      (fun m => match m with
                | [[g]] => Ok [[(/ g)%R]]
                | _ => Raise LinAlgError
                end)
      [[[1%R; 2%R]]] [[[3%R; 4%R]]] = Ok [sed] /\
    Forall2 (fun a im =>
               forall a' : R,
                 (residual [1%R; 2%R] (flatten im) a
                  <= residual [1%R; 2%R] (flatten im) a')%R)
            sed [[[3%R; 4%R]]].
Proof.
  apply (get_best_fit_seds_least_squares
           (fun m => match m with
                     | [[g]] => Ok [[(/ g)%R]]
                     | _ => Raise LinAlgError
                     end)
           (fun g _ => eq_refl) [[1%R; 2%R]] [[[3%R; 4%R]]] 1%R).
  - left. reflexivity.
  - lra.
  - repeat constructor.
Defined.

(* ------------------------------------------------------------------------- *)
(** ** The layers of the multi-component splitter *)

Lemma Forall_update_nth {A : Type} (P : A -> Prop) (f : A -> A) (k : nat)
    (l : list A) :
  Forall P l -> (forall a, P a -> P (f a)) -> Forall P (update_nth k f l).
Proof.
  intros Hl Hf. revert k. induction Hl as [|a l Ha Hl IH]; intros [|k]; simpl;
    constructor; auto.
Qed.

Lemma np_sort_Forall {Num : Scalar} (P : num -> Prop) (l : list num) :
  Forall P l -> Forall P (np_sort l).
Proof.
  unfold np_sort. induction 1 as [|x l Hx Hl IH]; simpl; [constructor|].
  clear Hl. induction IH as [|y l' Hy Hl' IH']; simpl.
  - now repeat constructor.
  - destruct (leb x y); constructor; auto.
Qed.

(** the column of layer values at a pixel stays non-negative through the
    loop over the percentiles *)
Lemma pixel_fold_nonneg (m max_flux : R) :
  forall (steps : list (nat * R)) (col : list R) (last : R),
  Sorted Rle (map (fun kp => flux_threshold (Num := real) max_flux (snd kp))
                  steps) ->
  HdRel Rle last (map (fun kp => flux_threshold (Num := real) max_flux (snd kp))
                      steps) ->
  Forall (fun x => 0 <= x)%R col ->
  Forall (fun x => 0 <= x)%R
         (fst (fold_left (pixel_step (Num := real) m max_flux) steps
                 (col, last))).
Proof.
  induction steps as [|[k perc] steps IH]; intros col last Hs Hhd Hcol;
    [exact Hcol|].
  cbn [fold_left map snd] in *.
  inversion Hs as [|? ? Hs' Hhd']; subst.
  inversion Hhd as [|? ? Hlast]; subst.
  set (t := flux_threshold (Num := real) max_flux perc) in *.
  unfold pixel_step at 2. cbn [fst snd]. fold t.
  apply IH; [assumption|assumption|].
  cbn [gtb sub real]. unfold Rgtb.
  destruct (Rlt_dec t m) as [Hmt|Hmt].
  - apply Forall_update_nth; [apply Forall_update_nth|]; try assumption.
    + intros a _. cbv beta iota. subst t. unfold flux_threshold.
      cbn [div mul of_Z real]. lra.
    + intros a _. cbv beta iota. lra.
  - cbv beta iota. now rewrite !update_nth_same.
Qed.

Lemma pixel_layers_nonneg (max_flux : R) (percs : list R) (m : R) :
  (0 <= max_flux)%R -> Forall (fun p => 0 <= p)%R percs -> (0 <= m)%R ->
  Forall (fun x => 0 <= x)%R (pixel_layers (Num := real) max_flux percs m).
Proof.
  intros Hmax Hp Hm. unfold pixel_layers.
  assert (Hsorted : Sorted Rle (np_sort (Num := real) percs))
    by apply np_sort_sorted.
  assert (Hpos : Forall (fun p => 0 <= p)%R (np_sort (Num := real) percs))
    by (apply (np_sort_Forall (Num := real)); exact Hp).
  pose proof (np_sort_length (Num := real) percs) as Hlen.
  change (@num real) with R in *.
  set (sorted := np_sort (Num := real) percs) in *.
  assert (Hth : forall (l : list R) (s : nat),
            map (fun kp : nat * R => flux_threshold (Num := real) max_flux (snd kp))
                (combine (seq s (List.length l)) l)
            = map (flux_threshold (Num := real) max_flux) l).
  { induction l as [|p l IH]; intros s; simpl; [reflexivity|].
    now rewrite IH. }
  rewrite <- Hlen.
  apply pixel_fold_nonneg.
  - rewrite Hth. now apply thresholds_sorted.
  - rewrite Hth. destruct Hpos as [|p l Hp0 Hl]; simpl; constructor.
    unfold flux_threshold. cbn [div mul of_Z zero real].
    apply Rmult_le_pos; [now apply Rmult_le_pos|].
    apply Rlt_le, Rinv_0_lt_compat. lra.
  - constructor; [assumption|].
    apply Forall_forall. intros z Hz. apply repeat_spec in Hz. subst z.
    cbn [zero real]. lra.
Qed.

(** X17.  Before they are renormalised, the layers that
    [init_multicomponent_source] builds from a non-negative morphology with
    non-negative percentiles are non-negative at every pixel (exact
    arithmetic). *)
Theorem layered_morphs_nonneg (morph : @Image real) (max_flux : R)
    (flux_percentiles : list R) :
  (0 <= max_flux)%R ->
  Forall (fun p => 0 <= p)%R flux_percentiles ->
  Forall (fun m => 0 <= m)%R (flatten morph) ->
  Forall (fun layer => Forall (fun x => 0 <= x)%R (flatten layer))
         (layered_morphs (Num := real) morph max_flux flux_percentiles).
Proof.
  intros Hmax Hp Hmorph.
  apply Forall_forall. intros layer Hlayer.
  apply Forall_forall. intros x Hx.
  rewrite Forall_forall in Hmorph.
  destruct (layered_morphs_pixelwise (Num := real) morph max_flux
              flux_percentiles) as (phi0 & phis & Heq & Hpix).
  rewrite Heq in Hlayer. unfold lift_layers in Hlayer.
  apply in_map_iff in Hlayer as [phi [<- Hphi]].
  unfold flatten, map2d in Hx. apply in_concat in Hx as [row [Hrow Hx]].
  apply in_map_iff in Hrow as [row0 [<- Hrow0]].
  apply in_map_iff in Hx as [m [<- Hm]].
  assert (Hin : In m (flatten morph))
    by (unfold flatten; apply in_concat; eauto).
  pose proof (pixel_layers_nonneg max_flux flux_percentiles m Hmax Hp
                (Hmorph m Hin)) as Hcol.
  rewrite <- Hpix in Hcol. rewrite Forall_forall in Hcol. apply Hcol.
  destruct Hphi as [<-|Hphi]; [now left|right].
  apply in_map_iff. eauto.
Qed.

Lemma layered_morphs_nonneg_witness :
  Forall (fun layer => Forall (fun x => 0 <= x)%R (flatten layer))
         (layered_morphs (Num := real) [[1%R; 4%R]] 4%R [25%R]).
Proof.
  apply (layered_morphs_nonneg [[1%R; 4%R]] 4%R [25%R]).
  - lra.
  - repeat constructor. lra.
  - repeat constructor; lra.
Defined.

(* ------------------------------------------------------------------------- *)
(** ** Renormalising a layer *)

Lemma fold_left_Rmax_spec (l : list R) (a : R) :
  (fold_left Rmax l a = a \/ In (fold_left Rmax l a) l) /\
  (a <= fold_left Rmax l a)%R /\
  Forall (fun x => x <= fold_left Rmax l a)%R l.
Proof.
  revert a. induction l as [|x l IH]; intros a; simpl.
  - split; [now left|]. split; [lra|constructor].
  - destruct (IH (Rmax a x)) as (Hin & Hle & Hall).
    pose proof (Rmax_l a x). pose proof (Rmax_r a x).
    split; [|split; [lra|constructor; [lra|assumption]]].
    destruct Hin as [Heq|Hin]; [|now right; right].
    rewrite Heq. unfold Rmax. destruct (Rle_dec a x); [right; now left|now left].
Qed.

Lemma amax_real_spec (l : list R) (mx : R) :
  amax (Num := real) l = Ok mx -> In mx l /\ Forall (fun x => x <= mx)%R l.
Proof.
  destruct l as [|a l]; [discriminate|]. unfold amax. cbn [fmax real].
  intros [= <-]. destruct (fold_left_Rmax_spec l a) as (Hin & Hle & Hall).
  split.
  - destruct Hin as [->|Hin]; [now left|now right].
  - constructor; assumption.
Qed.

(** X18.  In exact arithmetic a layer with a positive pixel is renormalised to
    peak one: the quotient by its maximum is returned, and the maximum of
    the result is 1. *)
Theorem renormalize_peak (layer : @Image real) (x : R) :
  In x (flatten layer) -> (0 < x)%R ->
  exists layer' : @Image real,
    renormalize (Num := real) layer = Ok layer' /\
    amax (Num := real) (flatten layer') = Ok 1%R.
Proof.
  intros Hin Hx. unfold renormalize.
  destruct (amax (Num := real) (flatten layer)) as [mx|e] eqn:E.
  2:{ destruct (flatten layer); [destruct Hin|discriminate]. }
  destruct (amax_real_spec _ _ E) as [Hmx Hall].
  rewrite Forall_forall in Hall.
  assert (Hpos : (0 < mx)%R) by (specialize (Hall x Hin); lra).
  cbn [bind]. eexists. split; [reflexivity|].
  rewrite flatten_map2d. cbn [div real]. apply amax_one.
  - apply Forall_forall. intros y Hy. apply in_map_iff in Hy as [v [<- Hv]].
    specialize (Hall v Hv). apply (Rmult_le_reg_r mx); [assumption|].
    unfold Rdiv. rewrite Rmult_assoc, Rinv_l by lra. lra.
  - apply in_map_iff. exists mx. split; [|assumption].
    change ((mx / mx)%R = 1%R). field. lra.
Qed.

Lemma renormalize_peak_witness :
  exists layer' : @Image real,
    renormalize (Num := real) [[1%R; 4%R]] = Ok layer' /\
    amax (Num := real) (flatten layer') = Ok 1%R.
Proof.
  apply (renormalize_peak [[1%R; 4%R]] 4%R).
  - right. left. reflexivity.
  - lra.
Defined.

Lemma amax_zeros (l : list float) :
  l <> [] -> Forall (fun x => x = PrimFloat.zero) l ->
  amax (Num := float64) l = Ok PrimFloat.zero.
Proof.
  intros Hne Hl. destruct l as [|a l]; [now elim Hne|].
  inversion Hl as [|? ? Ha Hl']; subst. unfold amax. f_equal.
  clear Hne Hl. induction Hl' as [|y l Hy Hl IH]; [reflexivity|].
  subst y. simpl. exact IH.
Qed.

(** X19.  In binary64 a layer that is zero everywhere has maximum zero, and
    renormalising it turns every pixel into NaN; the call still returns. *)
Theorem renormalize_zero_layer (layer : @Image float64) :
  flatten layer <> [] ->
  Forall (fun x => x = PrimFloat.zero) (flatten layer) ->
  exists layer' : @Image float64,
    renormalize (Num := float64) layer = Ok layer' /\
    flatten layer' <> [] /\
    Forall (fun y => PrimFloat.is_nan y = true) (flatten layer').
Proof.
  intros Hne Hz. unfold renormalize.
  rewrite (amax_zeros _ Hne Hz). cbn [bind]. eexists.
  split; [reflexivity|]. rewrite flatten_map2d. split.
  - intros Hnil. apply map_eq_nil in Hnil. now apply Hne.
  - apply Forall_forall. intros y Hy. apply in_map_iff in Hy as [v [<- Hv]].
    rewrite Forall_forall in Hz. rewrite (Hz v Hv). reflexivity.
Qed.

Lemma renormalize_zero_layer_witness :
  exists layer' : @Image float64,
    renormalize (Num := float64) [[0%float; 0%float]] = Ok layer' /\
    flatten layer' <> [] /\
    Forall (fun y => PrimFloat.is_nan y = true) (flatten layer').
Proof.
  apply (renormalize_zero_layer [[0%float; 0%float]]).
  - discriminate.
  - repeat constructor.
Defined.

(* ------------------------------------------------------------------------- *)
(** ** The stack of layers of [init_multicomponent_source] *)

Section LayerStack.
Context {Num : Scalar}.
Variable interpolate_observation : Observation -> Frame -> Cube.
Variable linalg_inv : list (list num) -> result (list (list num)).
Variable prox_uncentered_symmetry : Image -> Z -> Z * Z -> string -> Image.
Variable prox_weighted_monotonic :
  Z * Z -> string -> Z * Z -> num -> Image -> Z -> list num.

(** X20.  [init_multicomponent_source] returns one layer more than there are
    percentiles (two by default); every layer is a square image whose side
    is 16 times a power of two, and the box has that shape in every
    channel of the frame. *)
Theorem init_multicomponent_source_layer_stack
    (sky_coord : SkyCoord) (frame : Frame) (observations : observations_arg)
    (coadd : option Image) (bg_cutoff : option num)
    (flux_percentiles : option (list num)) (thresh : num)
    (symmetric monotonic : bool) (min_grad : num)
    (seds : list (list num)) (morphs : list Image) (bbox : Box) :
  init_multicomponent_source interpolate_observation linalg_inv
    prox_uncentered_symmetry prox_weighted_monotonic sky_coord frame
    observations coadd bg_cutoff flux_percentiles thresh symmetric monotonic
    min_grad = Ok (seds, morphs, bbox) ->
  exists n : nat,
    List.length morphs
    = S (match flux_percentiles with None => 1%nat | Some l => List.length l end)
    /\
    Box_shape bbox = [frame_C frame; 16 * 2 ^ Z.of_nat n; 16 * 2 ^ Z.of_nat n]
    /\
    Forall (fun layer =>
              len layer = 16 * 2 ^ Z.of_nat n /\
              Forall (fun row => len row = 16 * 2 ^ Z.of_nat n) layer)
           morphs.
Proof.
  intros H.
  apply init_multicomponent_source_layers in H
    as (sed & morph & max_flux & Hext & _ & Hren).
  unfold init_extended_source in Hext.
  apply bind_Ok in Hext as [seds0 [_ Hext]].
  apply bind_Ok in Hext as [sed0 [_ Hext]].
  apply bind_Ok in Hext as [[coadd' cut] [_ Hext]].
  apply bind_Ok in Hext as [morph0 [_ Hext]].
  apply bind_Ok in Hext as [[m b] [Htrim Hext]]. injection Hext as _ <- <-.
  apply trim_morphology_result in Htrim as (n & morph' & -> & ->).
  exists n.
  assert (Hp : 0 < 2 ^ Z.of_nat n) by (apply Z.pow_pos_nonneg; lia).
  set (c := get_pixel frame sky_coord) in *.
  set (h := 8 * 2 ^ Z.of_nat n) in *.
  destruct (extract2_shape (fst c - h, fst c + h) (snd c - h, snd c + h) morph')
    as [Hrows Hcols].
  cbn [fst snd] in Hrows, Hcols.
  set (trimmed := extract2 (fst c - h, fst c + h) (snd c - h, snd c + h) morph')
    in *.
  split; [|split].
  - apply mapM_Ok_length in Hren. rewrite Hren, layered_morphs_length.
    now destruct flux_percentiles.
  - unfold Box_shape, Box_from_bounds. cbn [bounds map fst snd]. subst h.
    f_equal; [lia|]. f_equal; [lia|]. f_equal; lia.
  - apply Forall_forall. intros layer' Hin.
    destruct (mapM_Ok_In _ _ _ Hren layer' Hin) as [layer [Hlayer Hnorm]].
    destruct (layered_morphs_pixelwise trimmed max_flux
                (match flux_percentiles with None => [of_Z 25] | Some l => l end))
      as (phi0 & phis & Heq & _).
    rewrite Heq in Hlayer. unfold lift_layers in Hlayer.
    apply in_map_iff in Hlayer as [phi [<- _]].
    unfold renormalize in Hnorm.
    apply bind_Ok in Hnorm as [mx [_ Hnorm]]. injection Hnorm as <-.
    rewrite map2d_map2d. unfold map2d, len. rewrite length_map, Hrows.
    split; [subst h; lia|].
    apply Forall_map. eapply Forall_impl; [|exact Hcols].
    intros row Hrow. cbn beta in Hrow. rewrite length_map, Hrow. subst h. lia.
Qed.
End LayerStack.

Lemma init_multicomponent_source_layer_stack_witness :
  exists (seds : list (list float)) (morphs : list (@Image float64))
         (bbox : Box) (n : nat),
    init_multicomponent_source (Num := float64) Scene.interpolate Scene.inv
      Scene.symmetry Scene.monotonic Scene.sky Scene.frame
      (one_observation Scene.obs) None None None 0.5%float true true
      Scene.min_grad = Ok (seds, morphs, bbox) /\
    List.length morphs = 2%nat /\
    Box_shape bbox = [1; 16 * 2 ^ Z.of_nat n; 16 * 2 ^ Z.of_nat n].
Proof.
  destruct (init_multicomponent_source (Num := float64) Scene.interpolate
              Scene.inv Scene.symmetry Scene.monotonic Scene.sky Scene.frame
              (one_observation Scene.obs) None None None 0.5%float true true
              Scene.min_grad) as [[[seds morphs] bbox]|e] eqn:E.
  - destruct (init_multicomponent_source_layer_stack _ _ _ _ _ _ _ _ _ _ _ _ _
                _ _ _ _ E) as (n & Hlen & Hbox & _).
    exists seds, morphs, bbox, n. repeat split; assumption.
  - vm_compute in E. discriminate E.
Defined.

(* ------------------------------------------------------------------------- *)
(** ** The thresholds of [StarletSource] below the last scale *)

Section StarletScales.
Context {Num : Scalar}.
Variable interpolate_observation : Observation -> Frame -> Cube.
Variable prox_uncentered_symmetry : Image -> Z -> Z * Z -> string -> Image.
Variable prox_weighted_monotonic :
  Z * Z -> string -> Z * Z -> num -> Image -> Z -> list num.
Variable Starlet : Image -> StarletTransform.
Variable mad_wavelet : Cube -> list num.

Lemma zero_last_level_front (levels levels' : Cube) (l : nat) :
  zero_last_level levels = Ok levels' ->
  (S l < List.length levels)%nat ->
  nth_error levels' l = nth_error levels l.
Proof.
  unfold zero_last_level. destruct (rev levels) as [|last front] eqn:Hr;
    [discriminate|].
  intros [= <-] Hl.
  assert (Hlev : levels = rev front ++ [last]).
  { rewrite <- (rev_involutive levels), Hr. reflexivity. }
  rewrite Hlev in *. rewrite length_app in Hl. cbn [List.length] in Hl.
  rewrite !nth_error_app1 by lia. reflexivity.
Qed.

Lemma scale_levels_same_length (levels : Cube) (starlet_norm : list num) :
  List.length levels = List.length starlet_norm ->
  (2 <= List.length starlet_norm)%nat ->
  scale_levels levels starlet_norm
  = Ok (map (fun ln => map2d (fun t => mul t (snd ln)) (fst ln))
            (combine levels starlet_norm)).
Proof.
  intros Hlen H2. unfold scale_levels.
  destruct starlet_norm as [|n0 [|n1 ns]]; cbn [List.length] in H2; try lia.
  destruct levels as [|l0 [|l1 ls]]; try discriminate.
  rewrite Hlen, Nat.eqb_refl. reflexivity.
Qed.

(** the threshold array, entry by entry, below the last scale *)
Lemma starlet_thresh_array_scales (morph : Coefficients) (thresh : num)
    (starlet_norm : list num) (thresh_array : Coefficients) :
  Forall (fun levels => List.length levels = List.length starlet_norm) morph ->
  (2 <= List.length starlet_norm)%nat ->
  starlet_thresh_array morph thresh starlet_norm = Ok thresh_array ->
  forall (levels : Cube) (l : nat) (image : Image) (x : num),
    In levels thresh_array -> nth_error levels l = Some image ->
    (S l < List.length starlet_norm)%nat -> In x (flatten image) ->
    exists n, nth_error starlet_norm l = Some n /\
              x = mul (add zero thresh) n.
Proof.
  intros Hlen H2 H levels l image x Hin Hl Hlt Hx.
  unfold starlet_thresh_array in H.
  apply bind_Ok in H as [scaled [Hs Hz]].
  destruct (mapM_Ok_In _ _ _ Hz levels Hin) as [levels1 [Hin1 Hzero]].
  destruct (mapM_Ok_In _ _ _ Hs levels1 Hin1) as [levels0 [Hin0 Hscale]].
  apply in_map_iff in Hin0 as [coeffs [<- Hc]].
  rewrite Forall_forall in Hlen. specialize (Hlen coeffs Hc).
  rewrite scale_levels_same_length in Hscale
    by (rewrite ?length_map; assumption).
  injection Hscale as <-.
  rewrite (zero_last_level_front _ _ l Hzero) in Hl.
  2:{ rewrite length_map, length_combine, !length_map.
      unfold Image in *. rewrite Hlen, Nat.min_id. exact Hlt. }
  rewrite nth_error_map in Hl.
  destruct (nth_error (combine _ starlet_norm) l) as [[lv n]|] eqn:Hn;
    [|discriminate].
  injection Hl as <-. cbn [fst snd] in Hx.
  exists n. split.
  - revert Hn. generalize (map (map2d (fun _ : num => add zero thresh)) coeffs).
    clear. revert l. induction starlet_norm as [|n0 ns IH]; intros l c Hn.
    + destruct c; destruct l; discriminate.
    + destruct c as [|c0 c]; [destruct l; discriminate|].
      destruct l as [|l]; simpl in *; [congruence|]. eauto.
  - apply nth_error_In, in_combine_l in Hn.
    apply in_map_iff in Hn as [lv0 [<- _]].
    unfold flatten, map2d in Hx. apply in_concat in Hx as [row [Hrow Hx]].
    apply in_map_iff in Hrow as [row0 [<- Hrow0]].
    apply in_map_iff in Hx as [t [<- Ht]].
    apply in_map_iff in Hrow0 as [row1 [<- _]].
    apply in_map_iff in Ht as [t0 [<- _]]. reflexivity.
Qed.

(** X23.  In a [StarletSource] whose transform has one norm per wavelet scale
    (at least two scales), the threshold of the sparsity constraint at
    every pixel of a scale other than the last is the norm of that scale
    times one number, the same for all scales:
    [starlet_thresh * sqrt(sum((sed * noise)^2))] (added to zero). *)
Theorem StarletSource_scale_thresholds
    (frame : Frame) (sky_coord : SkyCoord) (observations : observations_arg)
    (coadd : option Image) (bg_cutoff : option num)
    (thresh starlet_thresh min_grad : num) (src : StarletComponent) :
  StarletSource interpolate_observation prox_uncentered_symmetry
    prox_weighted_monotonic Starlet mad_wavelet frame sky_coord observations
    coadd bg_cutoff thresh starlet_thresh min_grad = Ok src ->
  Forall (fun levels =>
            List.length levels = List.length (norm (sc_transform src)))
         (coefficients (sc_transform src)) ->
  (2 <= List.length (norm (sc_transform src)))%nat ->
  exists (thresh_array : Coefficients) (noise : list (list num))
         (sed_noise : list num),
    constraint (sc_morph src) =
      Some (ConstraintChain [L0Constraint thresh_array; PositivityConstraint]) /\
    mapM (observation_noise mad_wavelet) (as_list observations) = Ok noise /\
    bcast mul (value (sc_sed src)) (List.concat noise) = Ok sed_noise /\
    forall (levels : Cube) (l : nat) (image : Image) (x : num),
      In levels thresh_array -> nth_error levels l = Some image ->
      (S l < List.length (norm (sc_transform src)))%nat ->
      In x (flatten image) ->
      exists n,
        nth_error (norm (sc_transform src)) l = Some n /\
        x = mul (add zero
                   (mul starlet_thresh
                      (fsqrt (fsum (map (fun s => mul s s) sed_noise)))))
                n.
Proof.
  unfold StarletSource. intros H.
  apply bind_Ok in H as [[[sed image_morph] bbox] [_ H]].
  apply bind_Ok in H as [noise0 [Hnoise H]].
  apply bind_Ok in H as [noise [Hcat H]].
  apply bind_Ok in H as [sed_noise [Hsn H]].
  apply bind_Ok in H as [thresh_array [Ht H]].
  injection H as <-.
  cbn [sc_morph sc_sed sc_transform constraint value Parameter_new].
  intros Hlen H2.
  exists thresh_array, noise0, sed_noise.
  split; [reflexivity|]. split; [exact Hnoise|]. split.
  - destruct noise0; [discriminate|]. now injection Hcat as <-.
  - intros levels l image x Hin Hl Hlt Hx.
    eapply starlet_thresh_array_scales; eauto.
Qed.
End StarletScales.

Lemma StarletSource_scale_thresholds_witness :
  exists (src : @StarletComponent float64)
         (thresh_array : @Coefficients float64)
         (noise : list (list float)) (sed_noise : list float),
    StarletSource Scene.interpolate Scene.symmetry Scene.monotonic
      Scene.starlet Scene.mad Scene.frame Scene.sky
      (one_observation Scene.obs) None None 0.5%float 5%float 0%float
      = Ok src /\
    constraint (sc_morph src) =
      Some (ConstraintChain [L0Constraint thresh_array; PositivityConstraint]) /\
    bcast (@mul float64) (value (sc_sed src)) (List.concat noise)
      = Ok sed_noise /\
    forall (levels : @Cube float64) (l : nat) (image : @Image float64)
           (x : float),
      In levels thresh_array -> nth_error levels l = Some image ->
      (S l < List.length (norm (sc_transform src)))%nat ->
      In x (flatten image) ->
      exists n,
        nth_error (norm (sc_transform src)) l = Some n /\
        x = @mul float64
              (@add float64 (@zero float64)
                 (@mul float64 5%float
                    (@fsqrt float64
                       (fsum (Num := float64)
                          (map (fun s => @mul float64 s s) sed_noise)))))
              n.
Proof.
  destruct (StarletSource Scene.interpolate Scene.symmetry Scene.monotonic
      Scene.starlet Scene.mad Scene.frame Scene.sky
      (one_observation Scene.obs) None None 0.5%float 5%float 0%float)
    as [src|e] eqn:E.
  - pose proof E as E'. vm_compute in E'. injection E' as Hsrc.
    destruct (StarletSource_scale_thresholds _ _ _ _ _ _ _ _ _ _ _ _ _ _ E)
      as (thresh_array & noise & sed_noise & Hc & _ & Hsn & Hth).
    + rewrite <- Hsrc. repeat constructor.
    + rewrite <- Hsrc. cbn. lia.
    + exists src, thresh_array, noise, sed_noise. auto.
  - vm_compute in E. discriminate E.
Defined.

(* ------------------------------------------------------------------------- *)
(** ** The components of a [MultiComponentSource] *)

Section ComponentFacts.
Context {Num : Scalar}.
Variable interpolate_observation : Observation -> Frame -> Cube.
Variable linalg_inv : list (list num) -> result (list (list num)).
Variable prox_uncentered_symmetry : Image -> Z -> Z * Z -> string -> Image.
Variable prox_weighted_monotonic :
  Z * Z -> string -> Z * Z -> num -> Image -> Z -> list num.

(** X24.  All components of a [MultiComponentSource] live in the same box and
    frame, share the shift parameter and the pixel center, and carry the
    same constraints: positivity on the SED, and on the morphology the
    chain of the optional monotonicity and symmetry constraints followed by
    positivity, center-on and max-normalisation.  The SED steps are
    relative with factor 1e-1, the morphology steps constant 1e-2. *)
Theorem MultiComponentSource_components
    (model_frame : Frame) (sky_coord : SkyCoord)
    (observations : observations_arg) (thresh : num)
    (coadd : option Image) (bg_cutoff : option num)
    (flux_percentiles : option (list num)) (symmetric : bool)
    (monotonic : monotonic_arg) (shifting : bool) (min_grad : num)
    (components : list FactorizedComponent) :
  MultiComponentSource interpolate_observation linalg_inv
    prox_uncentered_symmetry prox_weighted_monotonic model_frame sky_coord
    observations thresh coadd bg_cutoff flux_percentiles symmetric monotonic
    shifting min_grad = Ok components ->
  exists bbox : Box,
    Forall (fun c =>
              fc_frame c = model_frame /\ fc_bbox c = bbox /\
              fc_pixel_center c = get_pixel model_frame sky_coord /\
              fc_shift c
              = shift_parameter (get_pixel model_frame sky_coord) shifting /\
              constraint (fc_sed c) = Some PositivityConstraint /\
              step (fc_sed c) = relative_step tenth /\
              step (fc_morph c) = constant_step hundredth /\
              constraint (fc_morph c)
              = Some (ConstraintChain
                        (match monotonic_compat monotonic with
                         | Some neighbor_weight =>
                             [MonotonicityConstraint neighbor_weight min_grad]
                         | None => []
                         end
                         ++ (if symmetric then [SymmetryConstraint] else [])
                         ++ [PositivityConstraint; CenterOnConstraint;
                             NormalizationConstraint "max"])))
           components.
Proof.
  unfold MultiComponentSource. intros H.
  apply bind_Ok in H as [[[seds morphs] bbox] [_ H]].
  exists bbox. apply Forall_forall. intros c Hc.
  destruct (mapM_Ok_In _ _ _ H c Hc) as [k [_ Hk]].
  apply bind_Ok in Hk as [sed_k [_ Hk]].
  apply bind_Ok in Hk as [morph_k [_ Hk]]. injection Hk as <-.
  cbn [fc_frame fc_bbox fc_pixel_center fc_shift fc_sed fc_morph constraint
       step Parameter_new].
  repeat split.
  destruct (monotonic_compat monotonic), symmetric; reflexivity.
Qed.
End ComponentFacts.

Lemma MultiComponentSource_components_witness :
  exists (components : list (@FactorizedComponent float64)) (bbox : Box),
    MultiComponentSource Scene.interpolate Scene.inv Scene.symmetry
      Scene.monotonic Scene.frame Scene.sky (one_observation Scene.obs)
      0.5%float None None None true (mono_bool true) false Scene.min_grad
    = Ok components /\
    Forall (fun c =>
              fc_bbox c = bbox /\
              constraint (fc_morph c)
              = Some (ConstraintChain
                        [MonotonicityConstraint (Num := float64) "angle"
                           Scene.min_grad;
                         SymmetryConstraint; PositivityConstraint;
                         CenterOnConstraint; NormalizationConstraint "max"]))
           components.
Proof.
  destruct (MultiComponentSource Scene.interpolate Scene.inv Scene.symmetry
      Scene.monotonic Scene.frame Scene.sky (one_observation Scene.obs)
      0.5%float None None None true (mono_bool true) false Scene.min_grad)
    as [components|e] eqn:E.
  - destruct (MultiComponentSource_components _ _ _ _ _ _ _ _ _ _ _ _ _ _ _ _
                E) as [bbox Hall].
    exists components, bbox. split; [reflexivity|].
    eapply Forall_impl; [|exact Hall]. cbn beta.
    intros c (_ & Hb & _ & _ & _ & _ & _ & Hm). split; assumption.
  - vm_compute in E. discriminate E.
Defined.

(* ------------------------------------------------------------------------- *)
(** ** [PointSource] *)

Section PointFacts.
Context {Num : Scalar}.
Variable frame_shape : Frame -> Z * Z * Z.
Variable psf_shape : PSF -> list Z.

(** X21.  A point source needs the PSF of the model frame: once the SEDs are
    read, a frame without PSF model makes [PointSource] raise
    [AttributeError]. *)
Theorem PointSource_requires_psf
    (model_frame : Frame) (sky_coord : SkyCoord)
    (observations : observations_arg) (seds : list (list num)) :
  mapM (fun obs => get_psf_sed sky_coord obs model_frame)
       (as_list observations) = Ok seds ->
  as_list observations <> [] ->
  frame_psf model_frame = None ->
  PointSource frame_shape psf_shape model_frame sky_coord observations
  = Raise AttributeError.
Proof.
  intros Hseds Hne Hpsf. unfold PointSource.
  destruct (frame_shape model_frame) as [[C Ny] Nx].
  rewrite Hseds. cbn [bind].
  destruct seds as [|s0 seds].
  - apply mapM_Ok_length in Hseds.
    destruct (as_list observations); [now elim Hne|discriminate].
  - cbn [bind]. rewrite Hpsf. reflexivity.
Qed.

(** X22.  The box of a point source is centered on the pixel of the source and
    spans all channels of the model; along each image axis its size is the
    PSF size rounded down to an even number, so a PSF image with an odd
    number of rows or columns gets a box one pixel smaller than itself.
    The SED has one entry per channel of every observation. *)
Theorem PointSource_box
    (model_frame : Frame) (sky_coord : SkyCoord)
    (observations : observations_arg) (src : PointComponent) :
  PointSource frame_shape psf_shape model_frame sky_coord observations
  = Ok src ->
  exists (psf : PSF) (height width : Z),
    frame_psf model_frame = Some psf /\
    py_index (psf_shape psf) 1 = Ok height /\
    py_index (psf_shape psf) 2 = Ok width /\
    let c := get_pixel model_frame sky_coord in
    pc_bbox src
    = Box_from_bounds
        [(0, fst (fst (frame_shape model_frame)));
         (fst c - height / 2, fst c + height / 2);
         (snd c - width / 2, snd c + width / 2)] /\
    Box_shape (pc_bbox src)
    = [fst (fst (frame_shape model_frame));
       height - height mod 2; width - width mod 2] /\
    List.length (value (pc_sed src)) = total_channels (as_list observations).
Proof.
  unfold PointSource. intros H.
  destruct (frame_shape model_frame) as [[C Ny] Nx].
  apply bind_Ok in H as [seds [Hseds H]].
  apply bind_Ok in H as [sed [Hsed H]].
  apply bind_Ok in H as [psf [Hpsf H]].
  apply bind_Ok in H as [height [Hh H]].
  apply bind_Ok in H as [width [Hw H]]. injection H as <-.
  destruct (frame_psf model_frame) as [psf'|]; [|discriminate].
  injection Hpsf as ->.
  exists psf, height, width. cbn [pc_bbox pc_sed value Parameter_new fst snd].
  split; [reflexivity|]. split; [assumption|]. split; [assumption|].
  split; [reflexivity|]. split.
  - unfold Box_shape, Box_from_bounds. cbn [bounds map fst snd].
    pose proof (Z.div_mod height 2). pose proof (Z.div_mod width 2).
    f_equal; [lia|]. f_equal; [lia|]. f_equal; lia.
  - destruct seds as [|s0 seds]; [discriminate|]. injection Hsed as <-.
    exact (seds_total_channels _ _ _ _ Hseds).
Qed.
End PointFacts.

Lemma PointSource_requires_psf_witness :
  PointSource (Num := float64) (fun _ => (1, 3, 3)) (fun _ => [1; 3; 3])
    Scene.frame Scene.sky (one_observation Scene.obs)
  = Raise AttributeError.
Proof.
  eapply (PointSource_requires_psf (Num := float64)).
  - vm_compute. reflexivity.
  - discriminate.
  - reflexivity.
Defined.

Lemma PointSource_box_witness :
  exists src : @PointComponent float64,
    PointSource (Num := float64) (fun _ => (1, 3, 3)) (fun _ => [1; 1; 3])
      Scene.frame_psf2 Scene.sky (one_observation Scene.obs) = Ok src /\
    Box_shape (pc_bbox src) = [1; 1 - 1 mod 2; 3 - 3 mod 2].
Proof.
  destruct (PointSource (Num := float64) (fun _ => (1, 3, 3))
              (fun _ => [1; 1; 3]) Scene.frame_psf2 Scene.sky
              (one_observation Scene.obs)) as [src|e] eqn:E.
  - exists src. split; [reflexivity|].
    destruct (PointSource_box _ _ _ _ _ _ E)
      as (psf & height & width & _ & Hh & Hw & _ & Hshape & _).
    cbn in Hh, Hw. injection Hh as <-. injection Hw as <-. exact Hshape.
  - vm_compute in E. discriminate E.
Defined.

(* ------------------------------------------------------------------------- *)
(** ** Means: the background RMS of the weights and the relative step *)

Lemma sum_bounds (l : list R) (lo hi : R) :
  Forall (fun x => lo <= x <= hi)%R l ->
  (IZR (len l) * lo <= fold_right Rplus 0 l <= IZR (len l) * hi)%R.
Proof.
  unfold len. induction 1 as [|x l Hx Hl IH].
  - simpl. lra.
  - cbn [List.length fold_right]. rewrite Nat2Z.inj_succ, succ_IZR. nra.
Qed.

Lemma mean_bounds (X : list R) (lo hi : R) :
  X <> [] -> Forall (fun x => lo <= x <= hi)%R X ->
  (lo <= mean (Num := real) X <= hi)%R.
Proof.
  intros Hne H. unfold mean. cbn [div of_Z real]. rewrite fsum_real.
  pose proof (sum_bounds X lo hi H) as Hs.
  assert (Hn : (0 < IZR (len X))%R).
  { apply IZR_lt. unfold len. destruct X; [now elim Hne|]. simpl. lia. }
  change (@num real) with R in *.
  set (n := IZR (len X)) in *. set (s := fold_right Rplus 0%R X) in *.
  split.
  - apply (Rmult_le_reg_r n); [assumption|]. unfold Rdiv.
    rewrite Rmult_assoc, Rinv_l by lra. lra.
  - apply (Rmult_le_reg_r n); [assumption|]. unfold Rdiv.
    rewrite Rmult_assoc, Rinv_l by lra. lra.
Qed.

(** X25.  In exact arithmetic the relative step of a non-empty array lies
    between the factor times its smallest and the factor times its largest
    entry; for an SED with positive entries and a positive factor it is
    positive. *)
Theorem relative_step_bounds (X : list R) (it : Z) (factor lo hi : R) :
  X <> [] -> (0 <= factor)%R -> Forall (fun x => lo <= x <= hi)%R X ->
  (factor * lo <= relative_step_1d (Num := real) X it factor <= factor * hi)%R.
Proof.
  intros Hne Hf H. unfold relative_step_1d. cbn [mul real].
  pose proof (mean_bounds X lo hi Hne H). nra.
Qed.

Lemma relative_step_bounds_witness :
  (/ 100 * 2
   <= relative_step_1d (Num := real) [2%R; 6%R] 0 (/ 100) <= / 100 * 6)%R.
Proof.
  apply (relative_step_bounds [2%R; 6%R] 0 (/ 100)%R 2%R 6%R).
  - discriminate.
  - lra.
  - repeat constructor; lra.
Defined.

Lemma sum_constant (l : list R) (v : R) :
  Forall (fun x => x = v) l -> fold_right Rplus 0%R l = (IZR (len l) * v)%R.
Proof.
  intros H. pose proof (sum_bounds l v v) as Hb.
  assert (Hf : Forall (fun x => v <= x <= v)%R l).
  { eapply Forall_impl; [|exact H]. intros x ->. lra. }
  specialize (Hb Hf). lra.
Qed.

(** X15.  In exact arithmetic, inverse-variance weights [1/sigma^2] on the
    unmasked pixels of a channel (masked pixels have weight zero) give the
    background RMS [sigma] back. *)
Theorem weight_rms_inverse_variance (w : @Image real) (sigma : R) :
  (0 < sigma)%R ->
  Forall (fun x => x = 0 \/ x = / (sigma * sigma))%R (flatten w) ->
  In (/ (sigma * sigma))%R (flatten w) ->
  weight_rms (Num := real) w = sigma.
Proof.
  intros Hs Hall Hin. unfold weight_rms.
  set (v := (/ (sigma * sigma))%R) in *.
  assert (Hv : (0 < v)%R) by (apply Rinv_0_lt_compat; nra).
  set (sel := filter (fun x => @gtb real x (@zero real)) (flatten w)).
  assert (Hsel : Forall (fun x => x = v) sel).
  { apply Forall_forall. intros x Hx. apply filter_In in Hx as [Hx Hgt].
    rewrite Forall_forall in Hall. destruct (Hall x Hx) as [H0|Hxv];
      [|exact Hxv].
    subst x. cbn [gtb zero real] in Hgt. rewrite Rgtb_false in Hgt by lra.
    discriminate. }
  assert (Hne : sel <> []).
  { intros Hnil. assert (Hm : In v sel).
    { apply filter_In. split; [assumption|].
      cbn [gtb zero real]. now apply Rgtb_true. }
    rewrite Hnil in Hm. destruct Hm. }
  cbn [div one of_Z fsqrt real]. rewrite fsum_real, (sum_constant sel v Hsel).
  assert (Hn : (0 < IZR (len sel))%R).
  { apply IZR_lt. unfold len. destruct sel; [now elim Hne|]. simpl. lia. }
  clearbody sel. change (@num real) with R in *.
  set (n := IZR (len sel)) in *.
  replace (n * v / n)%R with v by (field; lra).
  unfold v. rewrite sqrt_inv, sqrt_square by lra.
  field. lra.
Qed.

Lemma weight_rms_inverse_variance_witness :
  weight_rms (Num := real) [[0%R; (/ (2 * 2))%R]; [(/ (2 * 2))%R; 0%R]] = 2%R.
Proof.
  apply (weight_rms_inverse_variance
           [[0%R; (/ (2 * 2))%R]; [(/ (2 * 2))%R; 0%R]] 2%R).
  - lra.
  - cbn. repeat (apply Forall_cons; [auto|]). apply Forall_nil.
  - right. left. reflexivity.
Defined.

(* ------------------------------------------------------------------------- *)
(** ** Reading the SED at the edge of an image *)

Lemma py_index_wraps {A : Type} (l : list A) (i : Z) :
  - len l <= i < len l ->
  exists a, py_index l i = Ok a /\ lookupZ l (i mod len l) = Some a.
Proof.
  intros Hi. unfold py_index, lookupZ.
  assert (Hlen : 0 < len l) by lia.
  destruct (Z.ltb_spec i 0) as [Hneg|Hpos].
  - replace (i mod len l) with (i + len l).
    2:{ apply (Z.mod_unique _ _ (-1)); lia. }
    destruct (Z.ltb_spec (i + len l) 0); [lia|].
    destruct (Z.leb_spec (len l) (i + len l)); [lia|]. cbn [orb].
    destruct (nth_error l (Z.to_nat (i + len l))) as [a|] eqn:E; [eauto|].
    apply nth_error_None in E. unfold len in *. lia.
  - rewrite Z.mod_small by lia.
    destruct (Z.ltb_spec i 0); [lia|].
    destruct (Z.leb_spec (len l) i); [lia|]. cbn [orb].
    destruct (nth_error l (Z.to_nat i)) as [a|] eqn:E; [eauto|].
    apply nth_error_None in E. unfold len in *. lia.
Qed.

Lemma py_index_out_of_range {A : Type} (l : list A) (i : Z) :
  i < - len l \/ len l <= i -> py_index l i = Raise IndexError.
Proof.
  intros Hi. unfold py_index.
  destruct (Z.ltb_spec i 0).
  - destruct (Z.ltb_spec (i + len l) 0); [reflexivity|].
    unfold len in *. lia.
  - destruct (Z.ltb_spec i 0); [lia|].
    destruct (Z.leb_spec (len l) i); [reflexivity|]. lia.
Qed.

Section EdgeFacts.
Context {Num : Scalar}.

(** X1.  [get_pixel_sed] follows numpy's rule for negative indices: a pixel
    position between [-H] and [H - 1] (rows) and [-W] and [W - 1] (columns)
    is read without error, a negative one from the opposite edge of the
    image, at the position taken modulo the size. *)
Theorem get_pixel_sed_wraps_around
    (sky_coord : SkyCoord) (observation : Observation) (H W : Z) :
  cube_shape H W (images observation) ->
  let p := get_pixel (obs_frame observation) sky_coord in
  - H <= fst p < H -> - W <= snd p < W ->
  exists sed : list num,
    get_pixel_sed sky_coord observation = Ok sed /\
    Forall2 (fun im v => pixel_at im (fst p mod H, snd p mod W) = Some v)
            (images observation) sed.
Proof.
  intros Hshape p Hy Hx. unfold get_pixel_sed. fold p.
  induction Hshape as [|im ims [Him Hrows] Hims IH].
  - exists []. split; [reflexivity|constructor].
  - destruct IH as [sed [Hsed Hall]].
    destruct (py_index_wraps im (fst p)) as [row [Hrow Hlrow]]; [lia|].
    assert (Hin : In row im) by (eapply py_index_In; eauto).
    rewrite Forall_forall in Hrows. specialize (Hrows row Hin).
    destruct (py_index_wraps row (snd p)) as [v [Hv Hlv]]; [lia|].
    exists (v :: sed). split.
    + cbn [mapM]. unfold index2 at 1. rewrite Hrow. cbn [bind].
      rewrite Hv. cbn [bind]. rewrite Hsed. reflexivity.
    + constructor; [|exact Hall].
      unfold pixel_at. cbn [fst snd]. rewrite <- Him, Hlrow, <- Hrows.
      exact Hlv.
Qed.

(** X2.  A pixel position below [-H] or from [H] on (rows), or below [-W] or
    from [W] on (columns), is refused: with at least one channel,
    [get_pixel_sed] raises [IndexError]. *)
Theorem get_pixel_sed_out_of_range
    (sky_coord : SkyCoord) (observation : Observation) (H W : Z) :
  cube_shape H W (images observation) ->
  images observation <> [] ->
  let p := get_pixel (obs_frame observation) sky_coord in
  (fst p < - H \/ H <= fst p \/ snd p < - W \/ W <= snd p) ->
  get_pixel_sed sky_coord observation = Raise IndexError.
Proof.
  intros Hshape Hne p Hout. unfold get_pixel_sed. fold p.
  destruct (images observation) as [|im ims]; [now elim Hne|].
  inversion Hshape as [|? ? [Him Hrows] _]; subst.
  cbn [mapM]. unfold index2.
  destruct (py_index im (fst p)) as [row|e] eqn:Hrow.
  - cbn [bind].
    assert (Hin : In row im) by (eapply py_index_In; eauto).
    rewrite Forall_forall in Hrows. specialize (Hrows row Hin).
    destruct Hout as [Hy|[Hy|Hx]].
    + rewrite py_index_out_of_range in Hrow by lia. discriminate.
    + rewrite py_index_out_of_range in Hrow by lia. discriminate.
    + rewrite py_index_out_of_range by lia. reflexivity.
  - apply py_index_raises in Hrow. subst e. reflexivity.
Qed.
End EdgeFacts.

Lemma get_pixel_sed_wraps_around_witness :
  exists sed : list float,
    get_pixel_sed (Num := float64) Scene.sky
      (@Build_Observation float64 true
         (@Build_Frame float64 (fun _ => (-1, -3)) 1 None)
         [Scene.image] None [])
    = Ok sed /\
    Forall2 (fun im v => pixel_at (Num := float64) im ((-1) mod 3, (-3) mod 3)
                         = Some v)
            [Scene.image] sed.
Proof.
  apply (get_pixel_sed_wraps_around (Num := float64) Scene.sky
           (@Build_Observation float64 true
              (@Build_Frame float64 (fun _ => (-1, -3)) 1 None)
              [Scene.image] None []) 3 3).
  - repeat constructor.
  - cbn. lia.
  - cbn. lia.
Defined.

Lemma get_pixel_sed_out_of_range_witness :
  get_pixel_sed (Num := float64) Scene.sky
    (@Build_Observation float64 true
       (@Build_Frame float64 (fun _ => (1, 3)) 1 None)
       [Scene.image] None [])
  = Raise IndexError.
Proof.
  apply (get_pixel_sed_out_of_range (Num := float64) Scene.sky
           (@Build_Observation float64 true
              (@Build_Frame float64 (fun _ => (1, 3)) 1 None)
              [Scene.image] None []) 3 3).
  - repeat constructor.
  - discriminate.
  - cbn. lia.
Defined.

(* ------------------------------------------------------------------------- *)
(** ** What the initialisers read *)

Section Reads.
Context {Num : Scalar}.
Variable linalg_inv : list (list num) -> result (list (list num)).
Variable prox_uncentered_symmetry : Image -> Z -> Z * Z -> string -> Image.
Variable prox_weighted_monotonic :
  Z * Z -> string -> Z * Z -> num -> Image -> Z -> list num.

Lemma get_psf_sed_without_weights (sky_coord : SkyCoord) (frame : Frame)
    (l : list Observation) :
  mapM (fun obs => get_psf_sed sky_coord obs frame) (map without_weights l)
  = mapM (fun obs => get_psf_sed sky_coord obs frame) l.
Proof.
  induction l as [|obs l IH]; [reflexivity|].
  cbn [map mapM]. rewrite IH. reflexivity.
Qed.

(** X14.  When the caller supplies the coadd and its cutoff,
    [init_extended_source] reads neither the weights of the observations
    nor any interpolated image: the result is the same without weights and
    with another interpolation. *)
Theorem init_extended_source_ignores_weights
    (interpolate interpolate' : Observation -> Frame -> Cube)
    (sky_coord : SkyCoord) (frame : Frame) (observations : observations_arg)
    (coadd : Image) (bg_cutoff thresh : num) (symmetric monotonic : bool)
    (min_grad : num) :
  init_extended_source interpolate prox_uncentered_symmetry
    prox_weighted_monotonic sky_coord frame observations (Some coadd)
    (Some bg_cutoff) thresh symmetric monotonic min_grad
  = init_extended_source interpolate' prox_uncentered_symmetry
      prox_weighted_monotonic sky_coord frame
      (map_observations without_weights observations) (Some coadd)
      (Some bg_cutoff) thresh symmetric monotonic min_grad.
Proof.
  unfold init_extended_source.
  replace (as_list (map_observations without_weights observations))
    with (map without_weights (as_list observations))
    by (now destruct observations).
  rewrite get_psf_sed_without_weights.
  destruct (mapM _ (as_list observations)) as [seds|e]; [|reflexivity].
  cbn [bind]. destruct seds; reflexivity.
Qed.

(** X16.  [init_multicomponent_source] looks for its reference observation
    first: when no element of [observations] is exactly an [Observation]
    it raises [IndexError], whatever the other arguments are. *)
Theorem init_multicomponent_source_needs_observation
    (interpolate : Observation -> Frame -> Cube)
    (sky_coord : SkyCoord) (frame : Frame) (observations : observations_arg)
    (coadd : option Image) (bg_cutoff : option num)
    (flux_percentiles : option (list num)) (thresh : num)
    (symmetric monotonic : bool) (min_grad : num) :
  Forall (fun obs => is_Observation obs = false) (as_list observations) ->
  init_multicomponent_source interpolate linalg_inv prox_uncentered_symmetry
    prox_weighted_monotonic sky_coord frame observations coadd bg_cutoff
    flux_percentiles thresh symmetric monotonic min_grad
  = Raise IndexError.
Proof.
  intros Hall. unfold init_multicomponent_source, reference_observation.
  replace (find is_Observation (as_list observations)) with (@None Observation);
    [reflexivity|].
  symmetry. induction Hall as [|obs l Hobs Hl IH]; [reflexivity|].
  cbn [find]. now rewrite Hobs.
Qed.
End Reads.

Lemma init_multicomponent_source_needs_observation_witness :
  init_multicomponent_source (Num := float64) Scene.interpolate Scene.inv
    Scene.symmetry Scene.monotonic Scene.sky Scene.frame
    (one_observation
       (@Build_Observation float64 false Scene.frame [Scene.image] None []))
    None None None 1%float true true Scene.min_grad
  = Raise IndexError.
Proof.
  apply (init_multicomponent_source_needs_observation (Num := float64)).
  repeat constructor.
Defined.

(* ------------------------------------------------------------------------- *)
(** ** The SED estimator and the peaks of the PSF *)






(** the same in binary64 *)
Example get_psf_sed_two_channel_psf :
  get_psf_sed (Num := float64) Scene.sky
    (@Build_Observation float64 true
       (@Build_Frame float64 (fun _ => (1, 1)) 2
          (Some (@Build_PSF float64
                   [[[0.5; 1]]; [[2; 1]]]%float)))
       [Scene.image; [[1; 1; 1]; [1; 5; 1]; [1; 1; 1]]%float] None [])
    (@Build_Frame float64 (fun _ => (1, 1)) 2
       (Some (@Build_PSF float64 [[[1; 4]]; [[7]]]%float)))
  = Ok [16; 10]%float.
Proof. vm_compute. reflexivity. Qed.

(* ------------------------------------------------------------------------- *)
(** ** The last scale of the thresholds of [StarletSource] *)

Lemma image_shape_map2d {A B : Type} (f : A -> B) (im : list (list A)) :
  image_shape (map2d f im) = image_shape im.
Proof. unfold image_shape. apply map2d_map2d. Qed.

Lemma map2d_const_shape {A B C : Type} (c : C) (a : list (list A))
    (b : list (list B)) :
  image_shape a = image_shape b ->
  map2d (fun _ => c) a = map2d (fun _ => c) b.
Proof.
  intros H. unfold image_shape in H.
  rewrite <- (map2d_map2d (fun _ : A => tt) (fun _ : unit => c) a).
  rewrite <- (map2d_map2d (fun _ : B => tt) (fun _ : unit => c) b).
  now rewrite H.
Qed.

Section StarletLastScale.
Context {Num : Scalar}.
Variable interpolate_observation : Observation -> Frame -> Cube.
Variable prox_uncentered_symmetry : Image -> Z -> Z * Z -> string -> Image.
Variable prox_weighted_monotonic :
  Z * Z -> string -> Z * Z -> num -> Image -> Z -> list num.
Variable Starlet : Image -> StarletTransform.
Variable mad_wavelet : Cube -> list num.

(** [a[-1, :, :] = 0] keeps every scale but the last, and replaces the
    last one by zeros *)
Lemma zero_last_level_last (levels levels' : Cube) :
  zero_last_level levels = Ok levels' ->
  exists front last,
    levels = front ++ [last] /\
    levels' = front ++ [map2d (fun _ => zero) last].
Proof.
  unfold zero_last_level. destruct (rev levels) as [|last front] eqn:Hr;
    [discriminate|].
  intros [= <-]. exists (rev front), last. split; [|reflexivity].
  rewrite <- (rev_involutive levels), Hr. reflexivity.
Qed.

(** with one norm per scale the product with the norms has the shape of
    the array of thresholds *)
Lemma scale_levels_shape (levels scaled : Cube) (starlet_norm : list num) :
  List.length levels = List.length starlet_norm ->
  scale_levels levels starlet_norm = Ok scaled ->
  map image_shape scaled = map image_shape levels.
Proof.
  intros Hlen. unfold scale_levels.
  assert (Hzip : forall (ls : Cube) (ns : list num),
            List.length ls = List.length ns ->
            map image_shape
              (map (fun ln : Image * num =>
                      map2d (fun t => mul t (snd ln)) (fst ln))
                   (combine ls ns))
            = map image_shape ls).
  { induction ls as [|l ls IH]; intros [|n ns] H; try discriminate;
      [reflexivity|].
    cbn [combine map fst snd]. rewrite image_shape_map2d. f_equal.
    apply IH. now injection H. }
  destruct starlet_norm as [|n0 [|n1 ns]].
  - destruct levels as [|l0 ls]; [|discriminate].
    cbn. intros [= <-]. reflexivity.
  - destruct levels as [|l0 [|l1 ls]]; try discriminate.
    intros [= <-]. cbn [map]. now rewrite image_shape_map2d.
  - destruct levels as [|l0 [|l1 ls]]; try discriminate.
    rewrite Hlen, Nat.eqb_refl. intros [= <-].
    exact (Hzip (l0 :: l1 :: ls) (n0 :: n1 :: ns) Hlen).
Qed.

(** C7.  In every [StarletSource] that is constructed, the threshold array
    given to the sparsity constraint is, band by band, the array of
    thresholds (the constant threshold times the norms of the scales) with
    its last scale replaced by zeros: every other scale keeps its
    threshold, and no scale is added or removed.  When the transform has
    one norm per scale, the threshold array has, band by band, the scales
    of the coefficients with their shapes, and its last scale is the image
    of zeros of the shape of the last scale of the coefficients: every
    threshold that meets a coefficient of the last scale is 0 exactly. *)
Theorem StarletSource_last_scale_threshold
    (frame : Frame) (sky_coord : SkyCoord) (observations : observations_arg)
    (coadd : option Image) (bg_cutoff : option num)
    (thresh starlet_thresh min_grad : num) (src : StarletComponent) :
  StarletSource interpolate_observation prox_uncentered_symmetry
    prox_weighted_monotonic Starlet mad_wavelet frame sky_coord observations
    coadd bg_cutoff thresh starlet_thresh min_grad = Ok src ->
  exists (thresh_array : Coefficients) (t : num),
    constraint (sc_morph src) =
      Some (ConstraintChain [L0Constraint thresh_array; PositivityConstraint]) /\
    Forall2 (fun levels tlevels =>
               exists front last,
                 scale_levels (map (map2d (fun _ => add zero t)) levels)
                   (norm (sc_transform src)) = Ok (front ++ [last]) /\
                 tlevels = front ++ [map2d (fun _ => zero) last])
            (value (sc_morph src)) thresh_array /\
    (Forall (fun levels =>
               List.length levels = List.length (norm (sc_transform src)))
            (value (sc_morph src)) ->
     Forall2 (fun levels tlevels =>
                exists cfront clast tfront,
                  levels = cfront ++ [clast] /\
                  map image_shape tfront = map image_shape cfront /\
                  tlevels = tfront ++ [map2d (fun _ => zero) clast])
             (value (sc_morph src)) thresh_array).
Proof.
  unfold StarletSource. intros H.
  apply bind_Ok in H as [[[sed image_morph] bbox] [_ H]].
  apply bind_Ok in H as [noise0 [_ H]].
  apply bind_Ok in H as [noise [_ H]].
  apply bind_Ok in H as [sed_noise [_ H]].
  apply bind_Ok in H as [thresh_array [Ht H]].
  injection H as <-.
  cbn [sc_morph sc_transform constraint value Parameter_new].
  set (t := mul starlet_thresh
              (fsqrt (fsum (map (fun x => mul x x) sed_noise)))) in *.
  set (tr := Starlet image_morph) in *.
  exists thresh_array, t. split; [reflexivity|].
  unfold starlet_thresh_array in Ht.
  apply bind_Ok in Ht as [scaled [Hs Hz]].
  apply mapM_Forall2 in Hs, Hz.
  assert (Hall : Forall2 (fun levels tlevels =>
               exists front last,
                 scale_levels (map (map2d (fun _ => add zero t)) levels)
                   (norm tr) = Ok (front ++ [last]) /\
                 tlevels = front ++ [map2d (fun _ => zero) last])
            (coefficients tr) thresh_array).
  { clear - Hs Hz. revert scaled thresh_array Hs Hz.
    induction (coefficients tr) as [|levels coeffs IH];
      intros scaled thresh_array Hs Hz.
    - inversion Hs; subst. inversion Hz; subst. constructor.
    - cbn [map] in Hs. inversion Hs as [|? sc ? scs Hsc Hscs]; subst.
      inversion Hz as [|? tl ? tls Htl Htls]; subst.
      constructor; [|eapply IH; eauto].
      apply zero_last_level_last in Htl as (front & last & -> & ->).
      exists front, last. split; [exact Hsc|reflexivity]. }
  split; [exact Hall|].
  intros Hlen.
  assert (Hboth : Forall2 (fun levels tlevels =>
            List.length levels = List.length (norm tr) /\
            exists front last,
              scale_levels (map (map2d (fun _ => add zero t)) levels)
                (norm tr) = Ok (front ++ [last]) /\
              tlevels = front ++ [map2d (fun _ => zero) last])
          (coefficients tr) thresh_array).
  { clear - Hall Hlen. induction Hall as [|levels tlevels coeffs ts H Hall IH];
      [constructor|].
    inversion Hlen; subst. constructor; auto. }
  eapply Forall2_impl; [|exact Hboth]. cbn beta.
  intros levels tlevels (Hl & front & last & Hsc & ->).
  apply scale_levels_shape in Hsc; [|now rewrite length_map].
  rewrite map_map in Hsc.
  assert (Hsh : map (fun im : Image =>
                       image_shape (map2d (fun _ : num => add zero t) im))
                    levels
                = map image_shape levels)
    by (apply map_ext; intros im; apply image_shape_map2d).
  pose proof (eq_trans Hsc Hsh) as Hshape. clear Hsc Hsh.
  rename Hshape into Hsc. symmetry in Hsc.
  rewrite (map_app image_shape front) in Hsc. apply map_eq_app in Hsc as (cfront & cl & -> & Hf & Hc).
  destruct cl as [|clast [|c2 cl]]; try discriminate.
  injection Hc as Hc.
  exists cfront, clast, front. split; [reflexivity|]. split; [now symmetry|].
  f_equal. f_equal. now apply map2d_const_shape.
Qed.
End StarletLastScale.

Lemma StarletSource_last_scale_threshold_witness :
  exists (src : @StarletComponent float64)
         (thresh_array : @Coefficients float64),
    StarletSource Scene.interpolate Scene.symmetry Scene.monotonic
      Scene.starlet Scene.mad Scene.frame Scene.sky
      (one_observation Scene.obs) None None 0.5%float 5%float 0%float
      = Ok src /\
    constraint (sc_morph src) =
      Some (ConstraintChain [L0Constraint thresh_array; PositivityConstraint]) /\
    Forall2 (fun levels tlevels =>
               exists cfront clast tfront,
                 levels = cfront ++ [clast] /\
                 map image_shape tfront = map image_shape cfront /\
                 tlevels
                 = tfront ++ [map2d (fun _ => @zero float64) clast])
            (value (sc_morph src)) thresh_array.
Proof.
  destruct (StarletSource Scene.interpolate Scene.symmetry Scene.monotonic
      Scene.starlet Scene.mad Scene.frame Scene.sky
      (one_observation Scene.obs) None None 0.5%float 5%float 0%float)
    as [src|e] eqn:E.
  - pose proof E as E'. vm_compute in E'. injection E' as Hsrc.
    destruct (StarletSource_last_scale_threshold _ _ _ _ _ _ _ _ _ _ _ _ _ _ E)
      as (thresh_array & t & Hc & _ & Hlast).
    exists src, thresh_array. split; [reflexivity|]. split; [exact Hc|].
    apply Hlast. rewrite <- Hsrc. repeat constructor.
  - vm_compute in E. discriminate E.
Defined.
